(** * BVH tools: skeleton reconciliation, frame decomposition, metrics
      and forward kinematics

    A shallow embedding of the Python package [bvh] (helpers.py,
    numpy_reader.py, numpy_renderer.py, theano_renderer.py) and the
    properties of its specification.

    Conventions of the embedding.
    - Python floats and NumPy/Theano array entries are idealised as real
      numbers [R] where the code computes with them without branching on
      the result (the rotations and transforms of the renderers, the
      buffers of the reconciler and the loader); rounding is outside
      these statements. The metrics pass and the frame decomposer are
      also taken over binary64 numbers (module [Binary64]), and their
      statements are about that arithmetic.
    - Python strings are [string]; [str.lower] acts on the ASCII letters.
    - Python dicts with string keys are [gmap string _]; Python lists used
      as arrays are [list _] with stdpp's lookup and insert, and the
      [IndexError] of an out-of-range store is written out.
    - A raised exception is the [Err] branch of [result]; objects mutated
      in place (buffers, the angle list, the index cell, the reader, the
      nodes) are threaded through as explicit state. *)

From Stdlib Require Import Reals Lra Lia RNsatz.
From Stdlib Require Import String Ascii List.
From Stdlib Require PrimFloat.
From stdpp Require Import base option list strings gmap.

#[local] Set Warnings "-register-all".

Local Open Scope string_scope.
Local Open Scope list_scope.

(** ** Exceptions and results *)

Inductive exn : Type :=
| AssertionError (message : string)
| KeyError (key : string)
| IndexError
| ValueError
| AttributeError
| TypeError
| Exception (message : string).

Inductive result (A : Type) : Type :=
| Ok (a : A)
| Err (e : exn).
Arguments Ok {A} a.
Arguments Err {A} e.

Definition bind {A B : Type} (r : result A) (k : A -> result B) : result B :=
  match r with
  | Ok a => k a
  | Err e => Err e
  end.

(** [result] is a monad; stdpp's [x ← r; k] is its sequencing. *)
#[global] Instance result_ret : MRet result := fun A a => Ok a.
#[global] Instance result_bind : MBind result := fun A B k r => bind r k.
#[global] Instance result_fmap : FMap result :=
  fun A B f r => bind r (fun a => Ok (f a)).

Definition is_ok {A : Type} (r : result A) : bool :=
  match r with Ok _ => true | Err _ => false end.

(** ** Strings *)

(** [c.lower()] on one character: the ASCII capitals move to lower case. *)
Definition lower_ascii (c : ascii) : ascii :=
  let n := nat_of_ascii c in
  if (65 <=? n)%nat && (n <=? 90)%nat then ascii_of_nat (n + 32) else c.

(** [s.lower()]. *)
Fixpoint lower (s : string) : string :=
  match s with
  | EmptyString => EmptyString
  | String c s' => String (lower_ascii c) (lower s')
  end.

(** ** The skeleton node

    The class of the nodes lives in the tokenizer module, which the
    package imports; its attributes are the ones the package reads and
    writes. *)

Definition vec3 : Type := R * R * R.

(** Modelled from the spec: the Node class of the imported reader module
    (name, channels, offset, children, is_end_site), together with the
    two attributes that [process_skeleton] adds; an attribute that was
    never set is [None]. *)
Inductive Node : Type :=
  mkNode {
    name : string;
    channels : list string;
    offset : vec3;
    children : list Node;
    is_end_site : bool;
    node_length : option R;
    offset_unit : option vec3
  }.

Section NodeInduction.
Variable P : Node -> Prop.
Hypothesis step :
  forall nm chs off cs es len ou,
    Forall P cs -> P (mkNode nm chs off cs es len ou).

Fixpoint Node_tree_ind (n : Node) : P n :=
  match n with
  | mkNode nm chs off cs es len ou =>
      step nm chs off cs es len ou
        ((fix all (l : list Node) : Forall P l :=
            match l with
            | [] => @List.Forall_nil Node P
            | c :: l' => @List.Forall_cons Node P c l' (Node_tree_ind c) (all l')
            end) cs)
  end.
End NodeInduction.

(** Every node of a tree, parents before children. *)
Fixpoint subnodes (n : Node) : list Node :=
  n :: flat_map subnodes (children n).

(** The spec's invariant: an end site has no children. *)
Definition end_sites_are_leaves (root : Node) : Prop :=
  Forall (fun n => is_end_site n = true -> children n = []) (subnodes root).

(** ** helpers.py: canonical joint orders *)

(** [{joint: (i, order) for i, (joint, order) in enumerate(l)}]. *)
Definition enumerate_joint_order (l : list (string * string))
  : gmap string (nat * string) :=
  fold_left (fun m '(i, (joint, order)) => <[joint := (i, order)]> m)
            (combine (seq 0 (length l)) l) ∅.

Definition standard_joint_order : gmap string (nat * string) :=
  enumerate_joint_order
    [ ("hips", "xyz"); ("spine", "xyz"); ("head", "xyz");
      ("leftshoulder", "xyz"); ("leftarm", "xyz"); ("leftforearm", "yzx");
      ("lefthand", "xyz"); ("lefthandthumb1", "xzy");
      ("rightshoulder", "xyz"); ("rightarm", "xyz");
      ("rightforearm", "yzx"); ("righthand", "xyz");
      ("righthandthumb1", "xzy"); ("leftupleg", "xyz"); ("leftleg", "xyz");
      ("leftfoot", "xyz"); ("lefttoebase", "xyz"); ("rightupleg", "xyz");
      ("rightleg", "xyz"); ("rightfoot", "xyz"); ("righttoebase", "xyz") ].

Definition rom_joint_order : gmap string (nat * string) :=
  enumerate_joint_order
    [ ("hips", "xyz"); ("spine", "xyz"); ("head", "xyz");
      ("leftshoulder", "xyz"); ("leftarm", "xyz"); ("leftforearm", "zyx");
      ("lefthand", "xyz"); ("lefthandthumb1", "xyz"); ("leftupleg", "xyz");
      ("leftleg", "xyz"); ("leftfoot", "xyz"); ("lefttoebase", "xyz");
      ("rightshoulder", "xyz"); ("rightarm", "xyz");
      ("rightforearm", "zyx"); ("righthand", "xyz");
      ("righthandthumb1", "xyz"); ("rightupleg", "xyz");
      ("rightleg", "xyz"); ("rightfoot", "xyz"); ("righttoebase", "xyz") ].

(** ** helpers.py: populate_channel_order_and_offsets *)

(** The loop over [node.channels] that builds [file_order_string]: a
    channel [ch] with [ch[1:].lower() == 'rotation'] adds [ch[0].lower()]. *)
Definition file_order_string (chs : list string) : string :=
  fold_left
    (fun acc ch =>
       match ch with
       | EmptyString => acc
       | String c rest =>
           if String.eqb (lower rest) "rotation"
           then acc +:+ String (lower_ascii c) EmptyString
           else acc
       end)
    chs EmptyString.

(** The message of the failed [assert]. *)
Definition mismatch_message (std_order_string file_order node_name : string)
  : string :=
  "Expected channel order " +:+ std_order_string +:+
  " but file specifies " +:+ file_order +:+ " for node " +:+ node_name.

(** The two caller-owned buffers and the one-element list [index]. *)
Record buffers : Type :=
  mkBuffers {
    channel_order : list nat;
    offsets : list R;
    index : nat
  }.

(** [channel_order[i] = index[0]; index[0] += 1]: a store past the end of
    a Python list raises IndexError. *)
Definition store_index (i : nat) (b : buffers) : result buffers :=
  if (i <? length (channel_order b))%nat
  then Ok (mkBuffers (<[i := index b]> (channel_order b)) (offsets b)
                     (S (index b)))
  else Err IndexError.

(** [for i in range(lo, lo + n): channel_order[i] = index[0]; index[0] += 1]. *)
Fixpoint store_range (lo n : nat) (b : buffers) : result buffers :=
  match n with
  | O => Ok b
  | S n' => b' ← store_index lo b; store_range (S lo) n' b'
  end.

(** [offsets[lo:hi] = t] on a Python list, for [lo <= hi]: the slice bounds
    are clamped to the length and the slice is replaced by [t]. *)
Definition assign_slice (lo hi : nat) (t : list R) (l : list R) : list R :=
  firstn lo l ++ t ++ skipn hi l.

Definition vec3_to_list (v : vec3) : list R :=
  let '(x, y, z) := v in [x; y; z].

(** What one call does at a node that is not an end site, before it
    recurses into the children. *)
Definition populate_node (joint_order : gmap string (nat * string))
    (node : Node) (b : buffers) : result buffers :=
  let file_order := file_order_string (channels node) in
  match joint_order !! lower (name node) with
  | None => Err (KeyError (lower (name node)))
  | Some (joint_index, std_order_string) =>
      if String.eqb file_order std_order_string
      then
        b1 ← store_range (joint_index * 3) 3 b;
        Ok (mkBuffers (channel_order b1)
              (assign_slice (joint_index * 3) ((joint_index + 1) * 3)
                            (vec3_to_list (offset node)) (offsets b1))
              (index b1))
      else Err (AssertionError
                  (mismatch_message std_order_string file_order (name node)))
  end.

Fixpoint populate_channel_order_and_offsets
    (joint_order : gmap string (nat * string)) (node : Node) (b : buffers)
  : result buffers :=
  match node with
  | mkNode _ _ _ cs es _ _ =>
      if es then Ok b
      else
        b1 ← populate_node joint_order node b;
        (fix for_children (l : list Node) (b : buffers) : result buffers :=
           match l with
           | [] => Ok b
           | child :: l' =>
               b' ← populate_channel_order_and_offsets joint_order child b;
               for_children l' b'
           end) cs b1
  end.

(** The non-end-site nodes that the traversal above reaches, in the order
    in which it reaches them: it stops at an end site. *)
Fixpoint visited (node : Node) : list Node :=
  match node with
  | mkNode _ _ _ cs es _ _ =>
      if es then [] else node :: flat_map visited cs
  end.

(** The joints of a tree: its nodes that are not end sites. *)
Definition joints_of (root : Node) : list Node :=
  filter (fun n => is_end_site n = false) (subnodes root).

(** Running [populate_node] over a list of nodes, stopping at the first
    exception. *)
Fixpoint populate_nodes (joint_order : gmap string (nat * string))
    (l : list Node) (b : buffers) : result buffers :=
  match l with
  | [] => Ok b
  | n :: l' => b' ← populate_node joint_order n b;
               populate_nodes joint_order l' b'
  end.

(** ** numpy_reader.py: NumpyBvhReader *)

(** [self._pos_idx] is a slice or a list of three indices. *)
Inductive pos_index : Type :=
| PosSlice (start stop : nat)
| PosList (l : list nat).

(** The reader object once [on_motion] has run. [num_channels] and [root]
    are set by the base class of the tokenizer. *)
Record NumpyBvhReader : Type :=
  mkReader {
    root : Node;
    num_channels : nat;
    _pos_idx : pos_index;
    _ang_idx : list nat;
    num_frames : nat;
    dt : R;
    positions : list (list R);
    angles_deg : list (list R);
    angles_rad : list (list R);
    _frame_num : nat
  }.

(** [l.index(x)] on a list of strings: ValueError when [x] is absent. *)
Fixpoint list_index (x : string) (l : list string) : result nat :=
  match l with
  | [] => Err ValueError
  | y :: l' => if String.eqb y x then Ok 0%nat
               else i ← list_index x l'; Ok (S i)
  end.

Definition nat_in (i : nat) (l : list nat) : bool :=
  existsb (Nat.eqb i) l.

(** [a[l]] with a list of indices: IndexError when one is out of range. *)
Fixpoint take_indices (l : list nat) (a : list R) : result (list R) :=
  match l with
  | [] => Ok []
  | i :: l' =>
      match a !! i with
      | Some x => xs ← take_indices l' a; Ok (x :: xs)
      | None => Err IndexError
      end
  end.

(** ** helpers.py: load_all *)

(** [a[:, cols]] on an array of [ncols] columns: the listed columns of
    every row, IndexError when a listed column does not exist. *)
Fixpoint take_rows_columns (cols : list nat) (a : list (list R))
  : result (list (list R)) :=
  match a with
  | [] => Ok []
  | row :: a' => r ← take_indices cols row;
                 rs ← take_rows_columns cols a';
                 Ok (r :: rs)
  end.

Definition take_columns (ncols : nat) (cols : list nat) (a : list (list R))
  : result (list (list R)) :=
  if forallb (fun c => (c <? ncols)%nat) cols
  then take_rows_columns cols a
  else Err IndexError.

(** What the loop of [load_all] has accumulated and printed. *)
Record loaded : Type :=
  mkLoaded {
    angles_list : list (list (list R));
    offsets_list : list (list R);
    printed : list string
  }.

(** The body of the loop for one .bvh file that the reader has parsed:
    only an AssertionError is caught, and its [message] (the attribute
    that Python 2 gives the exception) is printed; any other exception
    leaves the loop. *)
Definition load_one (joint_order : gmap string (nat * string))
    (file_path : string) (reader : NumpyBvhReader) (acc : loaded)
  : result loaded :=
  let offsets0 := repeat 0%R (size joint_order * 3) in
  let channel_order0 := repeat 0%nat (size joint_order * 3) in
  match populate_channel_order_and_offsets joint_order (root reader)
          (mkBuffers channel_order0 offsets0 0) with
  | Ok b =>
      cols ← take_columns (length (_ang_idx reader)) (channel_order b)
                          (angles_rad reader);
      Ok (mkLoaded (angles_list acc ++ [cols])
                   (offsets_list acc ++ [offsets b])
                   (printed acc ++ ["Loaded " +:+ file_path]))
  | Err (AssertionError message) =>
      Ok (mkLoaded (angles_list acc) (offsets_list acc)
            (printed acc ++
               ["Skipping file " +:+ file_path +:+
                " due to unexpected channel order: " +:+ message]))
  | Err e => Err e
  end.

Fixpoint load_loop (joint_order : gmap string (nat * string))
    (files : list (string * NumpyBvhReader)) (acc : loaded)
  : result loaded :=
  match files with
  | [] => Ok acc
  | (file_path, reader) :: files' =>
      acc' ← load_one joint_order file_path reader acc;
      load_loop joint_order files' acc'
  end.

(** [np.vstack]: ValueError on an empty list or on rows of unequal
    width. *)
Definition np_vstack (l : list (list (list R))) : result (list (list R)) :=
  match concat l with
  | [] => if (length l =? 0)%nat then Err ValueError else Ok []
  | row :: rows =>
      if forallb (fun r => (length r =? length row)%nat) rows
      then Ok (row :: rows) else Err ValueError
  end.

(** [load_all] over the .bvh files of the directory walk, each with the
    reader that parsing it gave; the result is the pair that is returned
    and the lines printed on the way. *)
Definition load_all (joint_order : gmap string (nat * string))
    (files : list (string * NumpyBvhReader))
  : result (list (list R) * list (list R) * list string) :=
  acc ← load_loop joint_order files (mkLoaded [] [] []);
  angles ← np_vstack (angles_list acc);
  Ok (angles, offsets_list acc, printed acc).

(** ** helpers.py: process_skeleton *)

Definition vec3_dot (u v : vec3) : R :=
  let '(a, b, c) := u in
  let '(x, y, z) := v in
  (a * x + b * y + c * z)%R.

Definition vec3_div (v : vec3) (d : R) : vec3 :=
  let '(x, y, z) := v in ((x / d)%R, (y / d)%R, (z / d)%R).

Definition vec3_scale (v : vec3) (k : R) : vec3 :=
  let '(x, y, z) := v in ((x * k)%R, (y * k)%R, (z * k)%R).

(** [offset.dot(offset) ** 0.5]. *)
Definition euclidean_norm (v : vec3) : R := sqrt (vec3_dot v v).

(** [offset / length if length != 0. else offset]. *)
Definition unit_of (v : vec3) (len : R) : vec3 :=
  if Req_dec_T len 0 then v else vec3_div v len.

(** The name of a child once the loop over [node.children] has looked at
    it: an end site still called 'End Site' takes the parent's name. *)
Definition child_name (parent_name : string) (child : Node) : string :=
  if is_end_site child && String.eqb (name child) "End Site"
  then parent_name +:+ "EndSite"
  else name child.

(** [process_skeleton] on a node whose name is, by now, [nm]: the parent
    renames a child before it recurses into it, so the name under which
    a node is processed is passed along with the node. *)
Fixpoint process_node (nm : string) (node : Node) : Node :=
  match node with
  | mkNode _ chs off cs es _ _ =>
      let len := euclidean_norm off in
      mkNode nm chs off
             (map (fun child => process_node (child_name nm child) child) cs)
             es (Some len) (Some (unit_of off len))
  end.

Definition process_skeleton (node : Node) : Node :=
  process_node (name node) node.

(** ** numpy_renderer.py *)

Definition vec4 : Type := (R * R * R * R)%type.
Definition mat3 : Type := (vec3 * vec3 * vec3)%type.
Definition mat4 : Type := (vec4 * vec4 * vec4 * vec4)%type.

Definition vec4_dot (u v : vec4) : R :=
  let '(a, b, c, d) := u in
  let '(x, y, z, w) := v in
  (a * x + b * y + c * z + d * w)%R.

(** [np.eye(3)], [np.eye(4)]. *)
Definition eye3 : mat3 :=
  ((1, 0, 0), (0, 1, 0), (0, 0, 1))%R.
Definition eye4 : mat4 :=
  ((1, 0, 0, 0), (0, 1, 0, 0), (0, 0, 1, 0), (0, 0, 0, 1))%R.

Definition mat3_transpose (m : mat3) : mat3 :=
  let '((a, b, c), (d, e, f), (g, h, i)) := m in
  ((a, d, g), (b, e, h), (c, f, i)).

Definition mat4_transpose (m : mat4) : mat4 :=
  let '((a0, a1, a2, a3), (b0, b1, b2, b3),
        (c0, c1, c2, c3), (d0, d1, d2, d3)) := m in
  ((a0, b0, c0, d0), (a1, b1, c1, d1), (a2, b2, c2, d2), (a3, b3, c3, d3)).

(** [a.dot(b)] for two 3x3 and two 4x4 arrays, and for a 4x4 array and a
    vector of four. *)
Definition mat3_dot (a b : mat3) : mat3 :=
  let '(c0, c1, c2) := mat3_transpose b in
  let row r := (vec3_dot r c0, vec3_dot r c1, vec3_dot r c2) in
  let '(r0, r1, r2) := a in (row r0, row r1, row r2).

Definition mat4_dot (a b : mat4) : mat4 :=
  let '(c0, c1, c2, c3) := mat4_transpose b in
  let row r := (vec4_dot r c0, vec4_dot r c1, vec4_dot r c2, vec4_dot r c3) in
  let '(r0, r1, r2, r3) := a in (row r0, row r1, row r2, row r3).

Definition mat4_vec (m : mat4) (v : vec4) : vec4 :=
  let '(r0, r1, r2, r3) := m in
  (vec4_dot r0 v, vec4_dot r1 v, vec4_dot r2 v, vec4_dot r3 v).

Definition rot_x (ang : R) : mat3 :=
  ((1, 0, 0), (0, cos ang, - sin ang), (0, sin ang, cos ang))%R.

Definition rot_y (ang : R) : mat3 :=
  ((cos ang, 0, sin ang), (0, 1, 0), (- sin ang, 0, cos ang))%R.

Definition rot_z (ang : R) : mat3 :=
  ((cos ang, - sin ang, 0), (sin ang, cos ang, 0), (0, 0, 1))%R.

(** The dict [rotation_map]: [None] when [ch] is not one of its keys. *)
Definition rotation_map (ch : string) : option (R -> mat3) :=
  if String.eqb ch "Xrotation" then Some rot_x
  else if String.eqb ch "Yrotation" then Some rot_y
  else if String.eqb ch "Zrotation" then Some rot_z
  else None.

(** [m[:3, :3] = rot]. *)
Definition set_rotation (m : mat4) (rot : mat3) : mat4 :=
  let '((_, _, _, a3), (_, _, _, b3), (_, _, _, c3), r3) := m in
  let '((a0, a1, a2), (b0, b1, b2), (c0, c1, c2)) := rot in
  ((a0, a1, a2, a3), (b0, b1, b2, b3), (c0, c1, c2, c3), r3).

(** [m[:, 3] = v]. *)
Definition set_column3 (m : mat4) (v : vec4) : mat4 :=
  let '((a0, a1, a2, _), (b0, b1, b2, _),
        (c0, c1, c2, _), (d0, d1, d2, _)) := m in
  let '(x, y, z, w) := v in
  ((a0, a1, a2, x), (b0, b1, b2, y), (c0, c1, c2, z), (d0, d1, d2, w)).

(** [m[:3, 3] = v]. *)
Definition set_translation (m : mat4) (v : vec3) : mat4 :=
  let '((a0, a1, a2, _), (b0, b1, b2, _), (c0, c1, c2, _), r3) := m in
  let '(x, y, z) := v in
  ((a0, a1, a2, x), (b0, b1, b2, y), (c0, c1, c2, z), r3).

(** [m[:, 3]]. *)
Definition column3 (m : mat4) : vec4 :=
  let '((_, _, _, x), (_, _, _, y), (_, _, _, z), (_, _, _, w)) := m in
  (x, y, z, w).

Definition zeros4 : mat4 :=
  ((0, 0, 0, 0), (0, 0, 0, 0), (0, 0, 0, 0), (0, 0, 0, 0))%R.

(** [p[:3] / p[3]]. *)
Definition dehomogenize (p : vec4) : vec3 :=
  let '(x, y, z, w) := p in ((x / w)%R, (y / w)%R, (z / w)%R).

(** [t + (1,)] and [np.r_[t, 1.]]. *)
Definition homogeneous (t : vec3) : vec4 :=
  let '(x, y, z) := t in (x, y, z, 1%R).

(** The loop over [node.channels] of [get_bones]: every channel that is
    a key of [rotation_map] pops the first angle of the list, IndexError
    when the list is empty. The list that is left is returned with the
    rotation, as the caller's list is the one that is popped. *)
Fixpoint bones_rotation (chs : list string) (rot : mat3) (angles_rad : list R)
  : result (mat3 * list R) :=
  match chs with
  | [] => Ok (rot, angles_rad)
  | ch :: chs' =>
      match rotation_map ch with
      | Some r =>
          match angles_rad with
          | [] => Err IndexError
          | a :: rest => bones_rotation chs' (mat3_dot rot (r a)) rest
          end
      | None => bones_rotation chs' rot angles_rad
      end
  end.

Definition bone : Type := (vec3 * vec3)%type.

(** The loop over [node.children] of [get_bones]; [rec] is the recursive
    call with [node_trans] as the parent transform. *)
Definition bones_of_children
    (rec : Node -> list R -> result (list bone * list R))
    (point_1 : vec4) (node_trans : mat4)
  : list Node -> list bone -> list R -> result (list bone * list R) :=
  fix for_children (l : list Node) (bones : list bone) (angles : list R) :=
    match l with
    | [] => Ok (bones, angles)
    | child :: l' =>
        let point_2 := mat4_vec node_trans (homogeneous (offset child)) in
        let bones1 :=
          bones ++ [(dehomogenize point_1, dehomogenize point_2)] in
        '(sub, angles') ← rec child angles;
        for_children l' (bones1 ++ sub) angles'
    end.

(** [get_bones(node, angles_rad, parent_trans)]: the bones, and the
    caller's list as the call leaves it. *)
Fixpoint get_bones (node : Node) (angles_rad : list R) (parent_trans : mat4)
  : result (list bone * list R) :=
  match node with
  | mkNode _ chs off cs _ _ _ =>
      '(rot, angles1) ← bones_rotation chs eye3 angles_rad;
      let local_trans :=
        set_column3 (set_rotation zeros4 rot) (homogeneous off) in
      let node_trans := mat4_dot parent_trans local_trans in
      let point_1 := mat4_vec node_trans (0, 0, 0, 1)%R in
      bones_of_children (fun child angles => get_bones child angles node_trans)
                        point_1 node_trans cs [] angles1
  end.

(** Two calls in a row that are handed the same list object, as in
    [b1 = get_bones(node, a); b2 = get_bones(node, a)]: the second call
    starts from the list as the first one left it. The outcome of the
    second call is kept apart, so that it can be compared with the first. *)
Definition get_bones_twice (node : Node) (a : list R)
  : result (list bone * result (list bone)) :=
  '(b1, a') ← get_bones node a eye4;
  Ok (b1, fst <$> get_bones node a' eye4).

(** ** helpers.py: get_all_channels *)

(** An entry of the list [[0] * n] once labels are stored in it: the
    integer it started with, or a label. *)
Inductive channel_cell : Type :=
| Unset
| Label (s : string).

(** [for channel in order: all_channels[i] = name + '_' + channel; i += 1]:
    IndexError on a store past the end of the list. *)
Fixpoint store_labels (joint_name order : string) (i : nat)
    (all_channels : list channel_cell) : result (list channel_cell) :=
  match order with
  | EmptyString => Ok all_channels
  | String channel rest =>
      if (i <? length all_channels)%nat
      then store_labels joint_name rest (S i)
             (<[i := Label (joint_name +:+ "_" +:+ String channel EmptyString)]>
                all_channels)
      else Err IndexError
  end.

(** The loop [for name in joint_order] over the keys in the order [keys]
    in which the dict yields them. *)
Fixpoint label_joints (joint_order : gmap string (nat * string))
    (keys : list string) (all_channels : list channel_cell)
  : result (list channel_cell) :=
  match keys with
  | [] => Ok all_channels
  | joint_name :: keys' =>
      match joint_order !! joint_name with
      | None => Err (KeyError joint_name)
      | Some (joint_index, order) =>
          all_channels' ← store_labels joint_name order (joint_index * 3)
                                       all_channels;
          label_joints joint_order keys' all_channels'
      end
  end.

(** [get_all_channels(joint_order)], for the order [keys] in which the
    dict is iterated (Python fixes none). *)
Definition get_all_channels (keys : list string)
    (joint_order : gmap string (nat * string)) : result (list channel_cell) :=
  label_joints joint_order keys (repeat Unset (3 * size joint_order)).

(** ** helpers.py: populate_lengths *)

(** The loop over [node.children] of [populate_lengths]. *)
Definition lengths_of_children (rec : Node -> list R -> result (list R))
  : list Node -> list R -> result (list R) :=
  fix for_children (l : list Node) (lens : list R) :=
    match l with
    | [] => Ok lens
    | child :: l' => lens' ← rec child lens; for_children l' lens'
    end.

(** [populate_lengths(node, lengths, lengths_map)] for an array [lengths]
    and a map from lowercase names to places of the array: IndexError on
    a place that the array does not have. *)
Fixpoint populate_lengths (lmap : gmap string nat) (node : Node)
    (lens : list R) : result (list R) :=
  match node with
  | mkNode nm _ off cs _ _ _ =>
      lens1 ← match lmap !! lower nm with
              | Some k =>
                  if (k <? length lens)%nat
                  then Ok (<[k := euclidean_norm off]> lens)
                  else Err IndexError
              | None => Ok lens
              end;
      lengths_of_children (populate_lengths lmap) cs lens1
  end.

(** ** helpers.py: string_repr *)

(** [', '.join(l)]. *)
Fixpoint join_comma (l : list string) : string :=
  match l with
  | [] => EmptyString
  | [s] => s
  | s :: l' => s +:+ ", " +:+ join_comma l'
  end.

Definition newline : string := String "010"%char EmptyString.

Fixpoint string_repr (node : Node) (prefix : string) : string :=
  match node with
  | mkNode nm chs _ cs _ _ _ =>
      fold_left
        (fun rep child => rep +:+ string_repr child (prefix +:+ "--"))
        cs
        (prefix +:+ nm +:+ "(" +:+ join_comma chs +:+ ")" +:+ newline)
  end.

(** ** numpy_reader.py: sorted_angle_channels *)

(** The loop over [node.children] of [sorted_angle_channels]: an end site
    is passed over. *)
Definition angles_of_children
    (rec : Node -> nat -> result (list nat * nat))
  : list Node -> list nat -> nat -> result (list nat * nat) :=
  fix for_children (l : list Node) (angle_idx : list nat) (ch_offset : nat) :=
    match l with
    | [] => Ok (angle_idx, ch_offset)
    | child :: l' =>
        if is_end_site child then for_children l' angle_idx ch_offset
        else
          '(sub, ch_offset') ← rec child ch_offset;
          for_children l' (angle_idx ++ sub) ch_offset'
    end.

(** [sorted_angle_channels(node, ch_offset)]: the indices, and the cell
    [ch_offset[0]] as the call leaves it. The cell is a default argument
    of the method, so that calls which do not pass one share it. *)
Fixpoint sorted_angle_channels (node : Node) (ch_offset : nat)
  : result (list nat * nat) :=
  match node with
  | mkNode _ chs _ cs _ _ _ =>
      ch_rot_x ← list_index "Xrotation" chs;
      ch_rot_y ← list_index "Yrotation" chs;
      ch_rot_z ← list_index "Zrotation" chs;
      angles_of_children sorted_angle_channels cs
        [ch_rot_x + ch_offset; ch_rot_y + ch_offset; ch_rot_z + ch_offset]
        (ch_offset + length chs)
  end.

(** ** theano_renderer.py

    The Theano expressions are taken at their numeric values: a tensor of
    rank one is a list, a tensor of rank two a list of rows, and a stack
    of matrices a list of matrices. [astype(floatX)] changes no value of
    the model. The rotation matrices of this module are the ones of
    numpy_renderer.py. *)

Module Theano.

(** The arguments shared by the calls of one traversal. *)
Record options : Type :=
  mkOptions {
    fixed_angles : option (gmap string R);
    lengths : option (list R);
    lengths_map : option (gmap string nat);
    skip : list string
  }.

(** [x in skip]. *)
Definition in_skip (x : string) (l : list string) : bool :=
  existsb (String.eqb x) l.

(** [node.name.lower() + '_' + ch[0].lower()]: IndexError on an empty
    channel label. *)
Definition channel_key (node_name ch : string) : result string :=
  match ch with
  | EmptyString => Err IndexError
  | String c _ =>
      Ok (lower node_name +:+ "_" +:+ String (lower_ascii c) EmptyString)
  end.

(** [fixed_angles is not None and ch_key in fixed_angles], with the value
    when it holds. *)
Definition fixed_angle (fixed : option (gmap string R)) (ch_key : string)
  : option R :=
  match fixed with
  | None => None
  | Some m => m !! ch_key
  end.

(** The loop over [node.channels] of [joint_positions]; [i] is the cell
    [i[0]]. *)
Fixpoint joint_rotation (fixed : option (gmap string R)) (node_name : string)
    (chs : list string) (angles : list R) (rot : mat3) (i : nat)
  : result (mat3 * nat) :=
  match chs with
  | [] => Ok (rot, i)
  | ch :: chs' =>
      ch_key ← channel_key node_name ch;
      match rotation_map ch with
      | Some r =>
          match fixed_angle fixed ch_key with
          | Some a =>
              joint_rotation fixed node_name chs' angles (mat3_dot rot (r a)) i
          | None =>
              match angles !! i with
              | Some a =>
                  joint_rotation fixed node_name chs' angles
                                 (mat3_dot rot (r a)) (S i)
              | None => Err IndexError
              end
          end
      | None => joint_rotation fixed node_name chs' angles rot i
      end
  end.

(** [lengths[lengths_map[node.name.lower()]]]. *)
Definition lookup_length (lens : list R) (lmap : option (gmap string nat))
    (node_name : string) : result R :=
  match lmap with
  | None => Err TypeError
  | Some m =>
      match m !! lower node_name with
      | None => Err (KeyError (lower node_name))
      | Some k =>
          match lens !! k with
          | Some x => Ok x
          | None => Err IndexError
          end
      end
  end.

(** The offset that enters the local transform: the file's, or the unit
    offset scaled to the given length. *)
Definition node_offset (o : options) (node : Node) : result vec3 :=
  match lengths o with
  | None => Ok (offset node)
  | Some lens =>
      match node_length node with
      | None => Err AttributeError
      | Some len =>
          if Req_dec_T len 0 then Ok (offset node)
          else
            x ← lookup_length lens (lengths_map o) (name node);
            match offset_unit node with
            | None => Err AttributeError
            | Some u => Ok (vec3_scale u x)
            end
      end
  end.

(** The part of a call that a node is pruned at: it is in [skip] and it
    is an end site. *)
Definition pruned (o : options) (node : Node) : bool :=
  in_skip (lower (name node)) (skip o) && is_end_site node.

(** [node_trans] of a node that is not pruned. *)
Definition node_transform (o : options) (node : Node) (rot : mat3)
    (parent_trans : mat4) : result mat4 :=
  off ← node_offset o node;
  Ok (mat4_dot parent_trans (set_translation (set_rotation eye4 rot) off)).

(** The loop over [node.children] of [joint_positions] and of its batch
    variant; [rec] is the recursive call with [node_trans] as the parent
    transform. *)
Definition joints_of_children {J : Type}
    (rec : Node -> nat -> result (list J * nat))
  : list Node -> list J -> nat -> result (list J * nat) :=
  fix for_children (l : list Node) (joints : list J) (i : nat) :=
    match l with
    | [] => Ok (joints, i)
    | child :: l' =>
        '(sub, i') ← rec child i;
        for_children l' (joints ++ sub) i'
    end.

(** The recursive call of [joint_positions], with the cell [i] and
    [parent_trans] given: the joints, and the cell as the call leaves
    it. *)
Fixpoint joint_positions_from (o : options) (node : Node) (angles : list R)
    (i : nat) (parent_trans : mat4) : result (list vec4 * nat) :=
  match node with
  | mkNode nm chs _ cs _ _ _ =>
      '(rot, i1) ← joint_rotation (fixed_angles o) nm chs angles eye3 i;
      if pruned o node then Ok ([], i1)
      else
        node_trans ← node_transform o node rot parent_trans;
        let joints :=
          if in_skip (lower nm) (skip o) then []
          else [column3 node_trans] in
        joints_of_children
          (fun child i => joint_positions_from o child angles i node_trans)
          cs joints i1
  end.

(** [joint_positions(node, angles, fixed_angles, lengths, lengths_map,
    skip)] with [i] and [parent_trans] left at their defaults. *)
Definition joint_positions (o : options) (node : Node) (angles : list R)
  : result (list vec4) :=
  fst <$> joint_positions_from o node angles 0 eye4.

(** *** The batch variant *)

(** The rank of an array argument, with its entries for the two ranks
    that the function accepts. *)
Inductive tensor : Type :=
| Rank1 (v : list R)
| Rank2 (m : list (list R))
| RankOther.

(** [m[:, k]]: IndexError when a row has no entry [k]. *)
Fixpoint take_column (k : nat) (m : list (list R)) : result (list R) :=
  match m with
  | [] => Ok []
  | row :: m' =>
      match row !! k with
      | Some x => xs ← take_column k m'; Ok (x :: xs)
      | None => Err IndexError
      end
  end.

(** [tt.repeat(x[None, :, :], n_batch, 0)]. *)
Definition repeat_batch {A : Type} (x : A) (n_batch : nat) : list A :=
  repeat x n_batch.

(** [tt.batched_dot] on two stacks of the same height. *)
Definition batched_dot3 (a b : list mat3) : list mat3 :=
  zip_with mat3_dot a b.
Definition batched_dot4 (a b : list mat4) : list mat4 :=
  zip_with mat4_dot a b.

(** The options of the batch variant: [lengths] is an array of rank one
    or two. *)
Record batch_options : Type :=
  mkBatchOptions {
    b_fixed_angles : option (gmap string R);
    b_lengths : option tensor;
    b_lengths_map : option (gmap string nat);
    b_skip : list string
  }.

(** The check at the entry of [joint_positions_batch]. *)
Definition normalize (angles : tensor) (lens : option tensor)
  : result (list (list R) * option tensor) :=
  match angles with
  | Rank2 m => Ok (m, lens)
  | Rank1 v =>
      Ok ([v], match lens with
               | Some (Rank1 l) => Some (Rank2 [l])
               | other => other
               end)
  | RankOther => Err (Exception "angles should be one or two dimensional.")
  end.

(** The loop over [node.channels] of the batch variant. *)
Fixpoint joint_rotation_batch (fixed : option (gmap string R))
    (node_name : string) (chs : list string) (angles : list (list R))
    (rot : list mat3) (i : nat) : result (list mat3 * nat) :=
  match chs with
  | [] => Ok (rot, i)
  | ch :: chs' =>
      ch_key ← channel_key node_name ch;
      match rotation_map ch with
      | Some r =>
          match fixed_angle fixed ch_key with
          | Some a =>
              joint_rotation_batch fixed node_name chs' angles
                (map (fun m => mat3_dot m (r a)) rot) i
          | None =>
              col ← take_column i angles;
              joint_rotation_batch fixed node_name chs' angles
                (batched_dot3 rot (map r col)) (S i)
          end
      | None => joint_rotation_batch fixed node_name chs' angles rot i
      end
  end.

(** [lengths[:, lengths_map[node.name.lower()]]]: an array of rank one
    has no second axis. *)
Definition lookup_length_batch (lens : tensor)
    (lmap : option (gmap string nat)) (node_name : string)
  : result (list R) :=
  match lmap with
  | None => Err TypeError
  | Some m =>
      match m !! lower node_name with
      | None => Err (KeyError (lower node_name))
      | Some k =>
          match lens with
          | Rank2 rows => take_column k rows
          | _ => Err IndexError
          end
      end
  end.

(** Writing rows into a stack of [n_batch]: as many rows, or one row that
    is broadcast. *)
Definition broadcast_rows {A : Type} (n_batch : nat) (rows : list A)
  : result (list A) :=
  if (length rows =? n_batch)%nat then Ok rows
  else match rows with
       | [x] => Ok (repeat x n_batch)
       | _ => Err ValueError
       end.

Definition node_offset_batch (o : batch_options) (node : Node)
  : result (list vec3) :=
  match b_lengths o with
  | None => Ok [offset node]
  | Some lens =>
      match node_length node with
      | None => Err AttributeError
      | Some len =>
          if Req_dec_T len 0 then Ok [offset node]
          else
            xs ← lookup_length_batch lens (b_lengths_map o) (name node);
            match offset_unit node with
            | None => Err AttributeError
            | Some u => Ok (map (vec3_scale u) xs)
            end
      end
  end.

Definition pruned_batch (o : batch_options) (node : Node) : bool :=
  in_skip (lower (name node)) (b_skip o) && is_end_site node.

Definition node_transform_batch (o : batch_options) (node : Node)
    (n_batch : nat) (rot : list mat3) (parent_trans : list mat4)
  : result (list mat4) :=
  offs ← node_offset_batch o node;
  offs' ← broadcast_rows n_batch offs;
  let local_trans :=
    zip_with set_translation
      (zip_with set_rotation (repeat_batch eye4 n_batch) rot) offs' in
  Ok (batched_dot4 parent_trans local_trans).

(** The recursive call of [joint_positions_batch]: [angles] has rank two
    by then, so the entry check leaves it as it is. *)
Fixpoint joint_positions_batch_from (o : batch_options) (node : Node)
    (angles : list (list R)) (i : nat) (parent_trans : list mat4)
  : result (list (list vec4) * nat) :=
  match node with
  | mkNode nm chs _ cs _ _ _ =>
      let n_batch := length angles in
      '(rot, i1) ← joint_rotation_batch (b_fixed_angles o) nm chs angles
                     (repeat_batch eye3 n_batch) i;
      if pruned_batch o node then Ok ([], i1)
      else
        node_trans ← node_transform_batch o node n_batch rot parent_trans;
        let joints :=
          if in_skip (lower nm) (b_skip o) then []
          else [map column3 node_trans] in
        joints_of_children
          (fun child i =>
             joint_positions_batch_from o child angles i node_trans)
          cs joints i1
  end.

(** [joint_positions_batch(node, angles, fixed_angles, lengths,
    lengths_map, skip)] with [i] and [parent_trans] left at their
    defaults. *)
Definition joint_positions_batch (o : batch_options) (node : Node)
    (angles : tensor) : result (list (list vec4)) :=
  '(angles2, lens) ← normalize angles (b_lengths o);
  let o' := mkBatchOptions (b_fixed_angles o) lens (b_lengths_map o)
                           (b_skip o) in
  fst <$> joint_positions_batch_from o' node angles2 0
            (repeat_batch eye4 (length angles2)).

End Theano.

(** ** theano_renderer.py: get_bones

    The function of this name in theano_renderer.py; it is kept in a
    module of its own, apart from the one of numpy_renderer.py. *)

Module TheanoBones.


(** The loop over [node.channels] of this module's [get_bones]: the
    angles are read at the cell [i], which moves on; the list is left as
    it is. *)
Fixpoint bones_rotation_at (chs : list string) (rot : mat3)
    (angles_rad : list R) (i : nat) : result (mat3 * nat) :=
  match chs with
  | [] => Ok (rot, i)
  | ch :: chs' =>
      match rotation_map ch with
      | Some r =>
          match angles_rad !! i with
          | Some a => bones_rotation_at chs' (mat3_dot rot (r a)) angles_rad (S i)
          | None => Err IndexError
          end
      | None => bones_rotation_at chs' rot angles_rad i
      end
  end.

(** [m[3, 3] = x]. *)
Definition set_corner (m : mat4) (x : R) : mat4 :=
  let '(r0, r1, r2, (d0, d1, d2, _)) := m in (r0, r1, r2, (d0, d1, d2, x)).

(** The loop over [node.children] of [get_bones]. *)
Definition bones_of_children_at
    (rec : Node -> nat -> result (list bone * nat))
    (point_1 : vec4) (node_trans : mat4)
  : list Node -> list bone -> nat -> result (list bone * nat) :=
  fix for_children (l : list Node) (bones : list bone) (i : nat) :=
    match l with
    | [] => Ok (bones, i)
    | child :: l' =>
        let point_2 := mat4_vec node_trans (homogeneous (offset child)) in
        let bones1 :=
          bones ++ [(dehomogenize point_1, dehomogenize point_2)] in
        '(sub, i') ← rec child i;
        for_children l' (bones1 ++ sub) i'
    end.

(** [get_bones(node, angles_rad, i, parent_trans)]: the bones, and the
    cell [i[0]] as the call leaves it. The cell is a default argument, so
    that calls which do not pass one share it. *)
Fixpoint get_bones (node : Node) (angles_rad : list R) (i : nat)
    (parent_trans : mat4) : result (list bone * nat) :=
  match node with
  | mkNode _ chs off cs _ _ _ =>
      '(rot, i1) ← bones_rotation_at chs eye3 angles_rad i;
      let local_trans :=
        set_corner (set_translation (set_rotation zeros4 rot) off) 1 in
      let node_trans := mat4_dot parent_trans local_trans in
      let point_1 := column3 node_trans in
      bones_of_children_at
        (fun child j => get_bones child angles_rad j node_trans)
        point_1 node_trans cs [] i1
  end.

End TheanoBones.

(** ** theano_renderer.py: camera_matrix and camera_matrix_batch *)

Module TheanoCamera.

Definition mat34 : Type := (vec4 * vec4 * vec4)%type.

(** [tt.zeros((3, 4))]. *)
Definition zeros34 : mat34 :=
  ((0, 0, 0, 0), (0, 0, 0, 0), (0, 0, 0, 0))%R.

(** [m[:, :3] = rot] and [m[:, 3] = position] on a 3x4 array. *)
Definition set_block (m : mat34) (rot : mat3) : mat34 :=
  let '((_, _, _, a3), (_, _, _, b3), (_, _, _, c3)) := m in
  let '((a0, a1, a2), (b0, b1, b2), (c0, c1, c2)) := rot in
  ((a0, a1, a2, a3), (b0, b1, b2, b3), (c0, c1, c2, c3)).

Definition set_last_column (m : mat34) (position : vec3) : mat34 :=
  let '((a0, a1, a2, _), (b0, b1, b2, _), (c0, c1, c2, _)) := m in
  let '(x, y, z) := position in
  ((a0, a1, a2, x), (b0, b1, b2, y), (c0, c1, c2, z)).

(** [a.dot(b)] for a 3x3 and a 3x4 array. *)
Definition mat3_dot34 (a : mat3) (b : mat34) : mat34 :=
  let '((b00, b01, b02, b03), (b10, b11, b12, b13), (b20, b21, b22, b23)) :=
    b in
  let row r :=
    (vec3_dot r (b00, b10, b20), vec3_dot r (b01, b11, b21),
     vec3_dot r (b02, b12, b22), vec3_dot r (b03, b13, b23)) in
  let '(r0, r1, r2) := a in (row r0, row r1, row r2).

(** The rotation of the camera: roll about z, then pitch about x, then
    yaw about y. *)
Definition camera_rotation (yaw_pitch_roll : vec3) : mat3 :=
  let '(yaw, pitch, roll) := yaw_pitch_roll in
  mat3_dot (mat3_dot (rot_z roll) (rot_x pitch)) (rot_y yaw).

Definition camera_matrix (focal_length : R) (position yaw_pitch_roll : vec3)
  : mat34 :=
  let cam_mtx :=
    set_last_column (set_block zeros34 (camera_rotation yaw_pitch_roll))
                    position in
  let int_mtx :=
    ((focal_length, 0, 0), (0, focal_length, 0), (0, 0, 1))%R in
  mat3_dot34 int_mtx cam_mtx.

(** The arguments of [camera_matrix_batch]: a focal length of rank one
    with a position and a pose for each of its entries, or one focal
    length with one position and one pose. *)
Inductive camera_arguments : Type :=
| OneCamera (focal_length : R) (position yaw_pitch_roll : vec3)
| Cameras (focal_length : list R) (position yaw_pitch_roll : list vec3).

(** [(int_mtx * cam_mtx.T).T] for one element of the batch, where column
    [b] of [int_mtx] is [(f, f, 1)]: the rows are scaled. *)
Definition scale_rows (f : R) (m : mat34) : mat34 :=
  let '((a0, a1, a2, a3), (b0, b1, b2, b3), (c0, c1, c2, c3)) := m in
  (((f * a0)%R, (f * a1)%R, (f * a2)%R, (f * a3)%R),
   ((f * b0)%R, (f * b1)%R, (f * b2)%R, (f * b3)%R),
   ((1 * c0)%R, (1 * c1)%R, (1 * c2)%R, (1 * c3)%R)).

Definition camera_matrix_batch (args : camera_arguments)
  : result (list mat34) :=
  let '(focal_length, position, yaw_pitch_roll) :=
    match args with
    | Cameras fs ps yprs => (fs, ps, yprs)
    | OneCamera f p ypr => ([f], [p], [ypr])
    end in
  let n_batch := length focal_length in
  let rot_mtx :=
    Theano.batched_dot3
      (Theano.batched_dot3
         (map rot_z (map (fun ypr : vec3 => snd ypr) yaw_pitch_roll))
         (map rot_x (map (fun ypr : vec3 => snd (fst ypr)) yaw_pitch_roll)))
      (map rot_y (map (fun ypr : vec3 => fst (fst ypr)) yaw_pitch_roll)) in
  rots ← Theano.broadcast_rows n_batch rot_mtx;
  let cam_mtx := zip_with set_block (repeat zeros34 n_batch) rots in
  ps ← Theano.broadcast_rows n_batch position;
  let cam_mtx := zip_with set_last_column cam_mtx ps in
  Ok (zip_with scale_rows focal_length cam_mtx).

End TheanoCamera.

(** * The binary64 numbers of the metrics pass and of the reader

    [process_skeleton] and [on_frame] compute with the binary64 numbers
    of numpy. Where a statement depends on what that arithmetic does at
    the ends of its range (a square that underflows to zero, a product
    that overflows to infinity) the two functions are taken from the
    source over the binary64 numbers of the kernel, whose operations
    are the ones of IEEE 754: the sum of [dot] is taken in the order of
    the indices, each product and each sum rounded, and [** 0.5] is the
    rounded square root. The trees and the readers of this module are
    the ones above with binary64 numbers for the reals. *)

Module Binary64.
Import PrimFloat.

Definition vec3 : Type := (float * float * float)%type.

Inductive Node : Type :=
  mkNode {
    name : string;
    channels : list string;
    offset : vec3;
    children : list Node;
    is_end_site : bool;
    node_length : option float;
    offset_unit : option vec3
  }.

Section NodeInduction.
Variable P : Node -> Prop.
Hypothesis step :
  forall nm chs off cs es len ou,
    Forall P cs -> P (mkNode nm chs off cs es len ou).

Fixpoint Node_tree_ind (n : Node) : P n :=
  match n with
  | mkNode nm chs off cs es len ou =>
      step nm chs off cs es len ou
        ((fix all (l : list Node) : Forall P l :=
            match l with
            | [] => @List.Forall_nil Node P
            | c :: l' => @List.Forall_cons Node P c l' (Node_tree_ind c) (all l')
            end) cs)
  end.
End NodeInduction.

(** Every node of a tree, parents before children. *)
Fixpoint subnodes (n : Node) : list Node :=
  n :: flat_map subnodes (children n).

(** ** helpers.py: process_skeleton *)

(** [u.dot(v)] on two arrays of three numbers. *)
Definition vec3_dot (u v : vec3) : float :=
  let '(a, b, c) := u in
  let '(x, y, z) := v in
  (a * x + b * y + c * z)%float.

(** [v / d], entry by entry. *)
Definition vec3_div (v : vec3) (d : float) : vec3 :=
  let '(x, y, z) := v in ((x / d)%float, (y / d)%float, (z / d)%float).

(** [offset.dot(offset) ** 0.5]. *)
Definition euclidean_norm (v : vec3) : float := sqrt (vec3_dot v v).

(** [offset / length if length != 0. else offset]: the comparison is the
    one of IEEE 754, under which both zeros are equal to [0.] and a NaN
    is equal to nothing. *)
Definition unit_of (v : vec3) (len : float) : vec3 :=
  if (len =? 0)%float then v else vec3_div v len.

Definition child_name (parent_name : string) (child : Node) : string :=
  if is_end_site child && String.eqb (name child) "End Site"
  then parent_name +:+ "EndSite"
  else name child.

(** [process_skeleton] on a node whose name is, by now, [nm]. *)
Fixpoint process_node (nm : string) (node : Node) : Node :=
  match node with
  | mkNode _ chs off cs es _ _ =>
      let len := euclidean_norm off in
      mkNode nm chs off
             (map (fun child => process_node (child_name nm child) child) cs)
             es (Some len) (Some (unit_of off len))
  end.

Definition process_skeleton (node : Node) : Node :=
  process_node (name node) node.

(** ** numpy_reader.py: NumpyBvhReader *)

Record NumpyBvhReader : Type :=
  mkReader {
    root : Node;
    num_channels : nat;
    _pos_idx : pos_index;
    _ang_idx : list nat;
    num_frames : nat;
    dt : float;
    positions : list (list float);
    angles_deg : list (list float);
    angles_rad : list (list float);
    _frame_num : nat
  }.

(** [on_hierarchy]: the position and angle indices of a frame. *)
Definition on_hierarchy (n_channels : nat) (r : Node)
  : result (pos_index * list nat) :=
  ch_x ← list_index "Xposition" (channels r);
  ch_y ← list_index "Yposition" (channels r);
  ch_z ← list_index "Zposition" (channels r);
  let pos :=
    if (ch_y =? ch_x + 1)%nat && (ch_z =? ch_y + 1)%nat
    then PosSlice ch_x (ch_z + 1)
    else PosList [ch_x; ch_y; ch_z] in
  Ok (pos, filter (fun i => negb (nat_in i [ch_x; ch_y; ch_z]))
                  (seq 0 n_channels)).

(** [np.empty((rows, cols))]: the entries are whatever the memory holds. *)
Definition np_empty (mem : nat -> nat -> float) (rows cols : nat)
  : list (list float) :=
  map (fun i => map (mem i) (seq 0 cols)) (seq 0 rows).

(** [on_motion], from the indices that [on_hierarchy] stored. *)
Definition on_motion (mem : nat -> nat -> nat -> float) (r : Node)
    (n_channels : nat) (idx : pos_index * list nat) (frames : nat)
    (dt : float) : NumpyBvhReader :=
  mkReader r n_channels (fst idx) (snd idx) frames dt
           (np_empty (mem 0%nat) frames 3)
           (np_empty (mem 1%nat) frames (length (snd idx)))
           (np_empty (mem 2%nat) frames (length (snd idx)))
           0.

(** [a[start:stop]] on a one-dimensional array: the bounds are clamped. *)
Definition take_slice (start stop : nat) (a : list float) : list float :=
  firstn (stop - start) (skipn start a).

(** [a[l]] with a list of indices: IndexError when one is out of range. *)
Fixpoint take_indices (l : list nat) (a : list float) : result (list float) :=
  match l with
  | [] => Ok []
  | i :: l' =>
      match a !! i with
      | Some x => xs ← take_indices l' a; Ok (x :: xs)
      | None => Err IndexError
      end
  end.

Definition take_pos (p : pos_index) (a : list float) : result (list float) :=
  match p with
  | PosSlice start stop => Ok (take_slice start stop a)
  | PosList l => take_indices l a
  end.

(** [buf[k] = v] on a two-dimensional array: IndexError when the row does
    not exist, ValueError when [v] has neither the length of the row nor
    length one (which is broadcast). *)
Definition store_row (k : nat) (v : list float) (buf : list (list float))
  : result (list (list float)) :=
  match buf !! k with
  | None => Err IndexError
  | Some row =>
      if (length v =? length row)%nat then Ok (<[k := v]> buf)
      else match v with
           | [x] => Ok (<[k := map (fun _ => x) row]> buf)
           | _ => Err ValueError
           end
  end.

(** [buf[k]]. *)
Definition load_row (k : nat) (buf : list (list float))
  : result (list float) :=
  match buf !! k with
  | Some row => Ok row
  | None => Err IndexError
  end.

(** [np.pi]: the binary64 number nearest to pi. *)
Definition np_pi : float := 0x1.921fb54442d18p+1%float.

(** [deg * np.pi / 180.], entry by entry: the product first, then the
    quotient, each rounded. *)
Definition deg_to_rad (row : list float) : list float :=
  map (fun d => (d * np_pi / 180)%float) row.

Definition on_frame (self : NumpyBvhReader) (values : list float)
  : result NumpyBvhReader :=
  let k := _frame_num self in
  pos ← take_pos (_pos_idx self) values;
  positions1 ← store_row k pos (positions self);
  ang ← take_indices (_ang_idx self) values;
  angles_deg1 ← store_row k ang (angles_deg self);
  deg ← load_row k angles_deg1;
  angles_rad1 ← store_row k (deg_to_rad deg) (angles_rad self);
  Ok (mkReader (root self) (num_channels self) (_pos_idx self)
               (_ang_idx self) (num_frames self) (dt self)
               positions1 angles_deg1 angles_rad1 (S k)).

(** ** The vocabulary of the statements *)


(** The state in which the tokenizer hands a frame to the reader. *)
Record reader_ready (self : NumpyBvhReader) : Prop :=
  mkReady {
    ready_indices :
      on_hierarchy (num_channels self) (root self)
      = Ok (_pos_idx self, _ang_idx self);
    ready_channels : length (channels (root self)) <= num_channels self;
    ready_positions :
      length (positions self) = num_frames self
      /\ Forall (fun row => length row = 3) (positions self);
    ready_degrees :
      length (angles_deg self) = num_frames self
      /\ Forall (fun row => length row = length (_ang_idx self))
                (angles_deg self);
    ready_radians :
      length (angles_rad self) = num_frames self
      /\ Forall (fun row => length row = length (_ang_idx self))
                (angles_rad self)
  }.

(** The frames of a list, delivered one after the other. *)
Fixpoint on_frames (self : NumpyBvhReader) (frames : list (list float))
  : result NumpyBvhReader :=
  match frames with
  | [] => Ok self
  | values :: frames' => self' ← on_frame self values; on_frames self' frames'
  end.



(** ** Sample skeletons and frames *)



(** A reader for a file whose root declares its position channels first,
    after [on_motion] with two frames declared. *)
Definition small_reader : NumpyBvhReader :=
  on_motion (fun _ _ _ => 0%float)
    (mkNode "Hips"
       ["Xposition"; "Yposition"; "Zposition";
        "Zrotation"; "Xrotation"; "Yrotation"]
       (0, 0, 0)%float [] false None None)
    6 (PosSlice 0 3, [3; 4; 5]) 2 0x1p-7%float.


End Binary64.

Import Theano.

(** * The vocabulary of the statements *)

(** ** Reconciliation *)

(** The buffers that [load_all] hands to the reconciler. *)
Definition fresh_buffers (jo : gmap string (nat * string)) : buffers :=
  mkBuffers (repeat 0%nat (size jo * 3)) (repeat 0%R (size jo * 3)) 0.

(** The slots of a joint order number its joints: they are 0, 1, ...,
    one for each joint, as [enumerate] hands them out. *)
Definition slots_enumerated (jo : gmap string (nat * string)) : Prop :=
  map (fun kv => fst (snd kv)) (map_to_list jo) ≡ₚ seq 0 (size jo).

(** The slot of a node in a joint order. *)
Definition slot_of (jo : gmap string (nat * string)) (n : Node) : nat :=
  default 0%nat (fst <$> jo !! lower (name n)).

(** The node's lowercase name is a key of the joint order, and the
    expected rotation string is the one the node declares. *)
Definition reconciles (jo : gmap string (nat * string)) (n : Node) : Prop :=
  exists slot,
    jo !! lower (name n) = Some (slot, file_order_string (channels n)).

(** The three stores of the loop over [range(slot * 3, (slot + 1) * 3)]. *)
Definition write_slot (slot idx : nat) (co : list nat) : list nat :=
  <[slot * 3 + 2 := idx + 2]>
    (<[slot * 3 + 1 := idx + 1]> (<[slot * 3 := idx]> co)).

(** ** Bone segments *)

(** The number of channels of a list that are keys of [rotation_map]. *)
Fixpoint rotation_count (chs : list string) : nat :=
  match chs with
  | [] => 0
  | ch :: chs' =>
      match rotation_map ch with
      | Some _ => S (rotation_count chs')
      | None => rotation_count chs'
      end
  end.

(** The number of rotation channels of a whole tree: the number of
    angles that one call of [get_bones] pops. *)
Fixpoint total_rotations (node : Node) : nat :=
  match node with
  | mkNode _ chs _ cs _ _ _ =>
      rotation_count chs + list_sum (map total_rotations cs)
  end.

(** ** Batches *)

(** The batch of size one that holds one value. *)
Definition batch_of_one {A : Type} (x : A) : list A := [x].

(** The joints of a single-sample call, each as a batch of one, with the
    cell [i]. *)
Definition lift_joints (r : list vec4 * nat) : list (list vec4) * nat :=
  (map batch_of_one (fst r), snd r).

(** The options of the batch variant that the entry check makes of the
    options of a call with a vector of angles. *)
Definition batch_options_of (o : options) : batch_options :=
  mkBatchOptions (fixed_angles o)
                 ((fun l => Rank2 [l]) <$> lengths o)
                 (lengths_map o) (skip o).

(** ** Loading *)

(** What [load_all] returns, without the lines it printed. *)
Definition loaded_data
    (r : result (list (list R) * list (list R) * list string))
  : result (list (list R) * list (list R)) :=
  fst <$> r.

(** Two states of the loop of [load_all] that hold the same data. *)
Definition same_data (acc1 acc2 : loaded) : Prop :=
  angles_list acc1 = angles_list acc2
  /\ offsets_list acc1 = offsets_list acc2.

(** ** Bone lengths *)

(** What [populate_lengths] does at one node, before it goes on to the
    children. *)
Definition measure_node (lmap : gmap string nat) (n : Node) (lens : list R)
  : result (list R) :=
  match lmap !! lower (name n) with
  | Some k =>
      if (k <? length lens)%nat
      then Ok (<[k := euclidean_norm (offset n)]> lens)
      else Err IndexError
  | None => Ok lens
  end.

Fixpoint measure_nodes (lmap : gmap string nat) (l : list Node)
    (lens : list R) : result (list R) :=
  match l with
  | [] => Ok lens
  | n :: l' => lens' ← measure_node lmap n lens; measure_nodes lmap l' lens'
  end.

(** The nodes of a list that the map sends to place [k]. *)
Definition sent_to (lmap : gmap string nat) (k : nat) (l : list Node)
  : list Node :=
  filter (fun n => lmap !! lower (name n) = Some k) l.

(** How two trees of the same shape compare, node by node: the same
    flag, channels and offset, and the same name where the node is not
    an end site. *)
Definition same_joint (n n' : Node) : Prop :=
  is_end_site n' = is_end_site n
  /\ channels n' = channels n
  /\ offset n' = offset n
  /\ (is_end_site n = false -> name n' = name n).

(** ** The sorted angle channels *)

(** The nodes at which [sorted_angle_channels] looks for the three
    rotation channels: the node it is called on, and below it every
    node that is reached without passing an end site. *)
Fixpoint angle_joints (node : Node) : list Node :=
  match node with
  | mkNode _ _ _ cs _ _ _ =>
      node :: flat_map (fun c => if is_end_site c then [] else angle_joints c)
                       cs
  end.

(** The place of a label among the channels of a node, 0 when it is not
    there. *)
Definition channel_place (label : string) (n : Node) : nat :=
  match list_index label (channels n) with
  | Ok i => i
  | Err _ => 0%nat
  end.

(** The three rotation channels of each node of a list, about x, y and z
    in this order, when the channels of the nodes follow each other in
    a frame from place [ch_offset] on. *)
Fixpoint angle_places (l : list Node) (ch_offset : nat) : list nat :=
  match l with
  | [] => []
  | n :: l' =>
      [channel_place "Xrotation" n + ch_offset;
       channel_place "Yrotation" n + ch_offset;
       channel_place "Zrotation" n + ch_offset]
      ++ angle_places l' (ch_offset + length (channels n))
  end.

(** The number of channels of the nodes of a list. *)
Definition channel_count (l : list Node) : nat :=
  list_sum (map (fun n => length (channels n)) l).

(** The node declares the three rotation channels. *)
Definition has_rotations (n : Node) : Prop :=
  In "Xrotation" (channels n) /\ In "Yrotation" (channels n)
  /\ In "Zrotation" (channels n).

(** Two calls of [sorted_angle_channels] that leave the cell to its
    default, the first ones after the class is defined. *)
Definition sorted_angle_channels_twice (node : Node)
  : result (list nat * list nat) :=
  '(first, cell) ← sorted_angle_channels node 0;
  '(second, _) ← sorted_angle_channels node cell;
  Ok (first, second).

(** ** Rigid transforms *)

(** [m.dot(v)] for a 3x3 array and a vector of three. *)
Definition mat3_vec (m : mat3) (v : vec3) : vec3 :=
  let '(r0, r1, r2) := m in (vec3_dot r0 v, vec3_dot r1 v, vec3_dot r2 v).

Definition vec3_add (u v : vec3) : vec3 :=
  let '(a, b, c) := u in
  let '(x, y, z) := v in ((a + x)%R, (b + y)%R, (c + z)%R).

Definition vec3_sub (u v : vec3) : vec3 :=
  let '(a, b, c) := u in
  let '(x, y, z) := v in ((a - x)%R, (b - y)%R, (c - z)%R).

(** A matrix whose transpose is its inverse. *)
Definition orthogonal (m : mat3) : Prop :=
  mat3_dot (mat3_transpose m) m = eye3.

(** The homogeneous transform with rotation part [rot] and translation
    [t]. *)
Definition affine (rot : mat3) (t : vec3) : mat4 :=
  set_translation (set_rotation eye4 rot) t.

(** The length of a bone segment. *)
Definition bone_length (b : bone) : R :=
  euclidean_norm (vec3_sub (snd b) (fst b)).

(** The nodes of a tree below its root, parents before children. *)
Definition below (node : Node) : list Node :=
  flat_map subnodes (children node).

(** ** Joint positions *)

(** The call of [joint_positions] with every option left at its
    default. *)
Definition plain_options : options := mkOptions None None None [].

(** No channel of the tree has the empty string as its label. *)
Definition labels_not_empty (node : Node) : Prop :=
  Forall (fun n => Forall (fun ch => ch <> EmptyString) (channels n))
         (subnodes node).

(** The joints of a result as points of space, with the cell. *)
Definition joints_as_points (r : list vec4 * nat) : list vec3 * nat :=
  (map dehomogenize (fst r), snd r).

(** The end points of the bones of a result after the point [p], with
    the cell. *)
Definition end_points_after (p : vec3) (r : list bone * nat)
  : list vec3 * nat :=
  (p :: map snd (fst r), snd r).

(** Every rotation channel of the tree has a fixed angle. *)
Definition all_rotations_fixed (fixed : gmap string R) (node : Node) : Prop :=
  Forall (fun n =>
            Forall (fun ch =>
                      forall r, rotation_map ch = Some r ->
                                exists key a,
                                  channel_key (name n) ch = Ok key
                                  /\ fixed !! key = Some a)
                   (channels n))
         (subnodes node).

(** ** The skip set *)

(** What the children of a node put in the output: each child in its
    turn, computed under the transform [trans] of the node and from the
    angle cell as the child before it left it; the positions of the
    children follow one another. *)
Inductive children_emit (o : options) (angles : list R) (trans : mat4)
  : list Node -> nat -> list vec4 -> nat -> Prop :=
| children_emit_nil (i : nat) : children_emit o angles trans [] i [] i
| children_emit_cons (child : Node) (rest : list Node) (i : nat)
    (sub : list vec4) (i1 : nat) (more : list vec4) (i2 : nat) :
    joint_positions_from o child angles i trans = Ok (sub, i1) ->
    children_emit o angles trans rest i1 more i2 ->
    children_emit o angles trans (child :: rest) i (sub ++ more) i2.

(** The joints with a position in the output: a joint in [skip] has
    none; below it the search goes on, unless it is an end site. *)
Fixpoint emitted_joints (skip : list string) (node : Node) : list Node :=
  match node with
  | mkNode nm _ _ cs es _ _ =>
      if in_skip (lower nm) skip
      then (if es then [] else flat_map (emitted_joints skip) cs)
      else node :: flat_map (emitted_joints skip) cs
  end.

(** ** Batches of any size *)

(** The options of the single-sample call for element [b] of a batch:
    the lengths are row [b] of the table of the batch. *)
Definition options_at (o : batch_options) (b : nat) : options :=
  mkOptions (b_fixed_angles o)
            match b_lengths o with
            | Some (Rank2 rows) => rows !! b
            | _ => None
            end
            (b_lengths_map o) (b_skip o).

(** The table of lengths of a batch, when there is one, has rank two and
    a row for every row of angles. *)
Definition lengths_fit (o : batch_options) (angles : list (list R)) : Prop :=
  b_lengths o = None
  \/ exists rows, b_lengths o = Some (Rank2 rows)
                  /\ length rows = length angles.

(** Element [b] of every joint of the result of a batch. *)
Definition element_of_batch {A : Type} (b : nat) (joints : list (list A))
  : list (option A) :=
  map (fun positions => positions !! b) joints.

(** ** The printed tree *)

(** The nodes of a tree, parents before children, each with the prefix
    of its line when the root has the prefix [prefix]: two dashes more
    for every level. *)
Fixpoint indented_nodes (node : Node) (prefix : string)
  : list (string * Node) :=
  match node with
  | mkNode _ _ _ cs _ _ _ =>
      (prefix, node)
      :: flat_map (fun c => indented_nodes c (prefix +:+ "--")) cs
  end.

(** The line of a node: its prefix, its name and its channels between
    brackets, and a newline. *)
Definition repr_line (entry : string * Node) : string :=
  fst entry +:+ name (snd entry) +:+ "("
  +:+ join_comma (channels (snd entry)) +:+ ")" +:+ newline.

(** The strings of a list, one after the other. *)
Definition concat_strings (l : list string) : string :=
  fold_right String.append EmptyString l.

(** * Sample skeletons and files *)

(** An end site as the tokenizer leaves it, and a joint. *)
Definition end_site (off : vec3) : Node :=
  mkNode "End Site" [] off [] true None None.

Definition joint (nm : string) (chs : list string) (off : vec3)
    (cs : list Node) : Node :=
  mkNode nm chs off cs false None None.

(** The three rotation channels of a joint, in the orders that the
    standard joint order expects. *)
Definition xyz : list string := ["Xrotation"; "Yrotation"; "Zrotation"].
Definition yzx : list string := ["Yrotation"; "Zrotation"; "Xrotation"].
Definition xzy : list string := ["Xrotation"; "Zrotation"; "Yrotation"].

(** An arm and a leg of the side ["Left"] or ["Right"]. *)
Definition arm (side : string) (off : vec3) : Node :=
  joint (side +:+ "Shoulder") xyz off
    [joint (side +:+ "Arm") xyz (off.1.1, 0, 0)%R
       [joint (side +:+ "ForeArm") yzx (off.1.1, 0, 0)%R
          [joint (side +:+ "Hand") xyz (off.1.1, 0, 0)%R
             [joint (side +:+ "HandThumb1") xzy (0, 0, 1)%R
                [end_site (0, 0, 1)%R];
              end_site (off.1.1, 0, 0)%R]]]].

Definition leg (side : string) (off : vec3) : Node :=
  joint (side +:+ "UpLeg") xyz off
    [joint (side +:+ "Leg") xyz (0, -4, 0)%R
       [joint (side +:+ "Foot") xyz (0, -4, 0)%R
          [joint (side +:+ "ToeBase") xyz (0, 0, 1)%R
             [end_site (0, 0, 1)%R]]]].

(** A skeleton with the joints of the standard order, as a file would
    declare it. *)
Definition standard_skeleton : Node :=
  joint "Hips" (["Xposition"; "Yposition"; "Zposition"] ++ xyz) (0, 0, 0)%R
    [leg "Left" (1, 0, 0)%R;
     leg "Right" (-1, 0, 0)%R;
     joint "Spine" xyz (0, 1, 0)%R
       [arm "Left" (1, 3, 0)%R;
        arm "Right" (-1, 3, 0)%R;
        joint "Head" xyz (0, 4, 0)%R [end_site (0, 1, 0)%R]]].





(** A parsed file of one frame whose root is the only node. *)
Definition one_joint_file (root_name : string) : NumpyBvhReader :=
  mkReader
    (joint root_name (["Xposition"; "Yposition"; "Zposition"] ++ xyz)
           (0, 0, 0)%R [])
    6 (PosSlice 0 3) [3; 4; 5]%nat 1 1%R
    [[0; 0; 0]%R] [[0; 0; 0]%R] [[0; 0; 0]%R] 1.

(** A file with a root that the standard order does not know, and a file
    that reconciles. *)
Definition unknown_root_file : NumpyBvhReader := one_joint_file "Pelvis".
Definition hips_only_file : NumpyBvhReader := one_joint_file "Hips".

(** The skeleton of two joints: a root at the origin whose only rotation
    channel is Zrotation, and one child at (0, 1, 0) with no channel. *)
Definition minimal_skeleton : Node :=
  joint "root" ["Zrotation"] (0, 0, 0)%R [end_site (0, 1, 0)%R].

(** A torso whose spine and whose end site are skipped: hips without a
    channel at the origin, a spine at (0, 1, 0) that turns about z, a
    head at (0, 1, 0) from the spine, and an end site called Top. *)
Definition top_site : Node := mkNode "Top" [] (0, 1, 0)%R [] true None None.

Definition head_with_top : Node := joint "Head" [] (0, 1, 0)%R [top_site].

Definition turning_spine : Node :=
  joint "Spine" ["Zrotation"] (0, 1, 0)%R [head_with_top].

Definition torso : Node := joint "Hips" [] (0, 0, 0)%R [turning_spine].

Definition skip_spine_and_top : options :=
  mkOptions None None None ["spine"; "top"].

(** A table of two bone lengths, with one label for the two arms, and a
    torso with two arms of different lengths. *)
Definition arms_map : gmap string nat :=
  <["rightarm" := 0%nat]> (<["leftarm" := 0%nat]> (<["spine" := 1%nat]> ∅)).

Definition uneven_arms : Node :=
  joint "Spine" xyz (0, 1, 0)%R
    [joint "LeftArm" xyz (3, 4, 0)%R []; joint "RightArm" xyz (0, 0, 2)%R []].

(** A fixed angle for the one rotation channel of the skeleton of two
    joints. *)
Definition quarter_turn_fixed : gmap string R :=
  <["root_z" := (PI / 2)%R]> ∅.

(** * Properties *)

(** ** The result monad *)

Lemma bind_ok {A B : Type} (a : A) (k : A -> result B) :
  (Ok a ≫= k) = k a.
Proof. reflexivity. Qed.

Lemma bind_err {A B : Type} (e : exn) (k : A -> result B) :
  (Err e ≫= k) = Err e.
Proof. reflexivity. Qed.

Lemma bind_assoc {A B C : Type} (r : result A) (k : A -> result B)
    (h : B -> result C) :
  ((r ≫= k) ≫= h) = (r ≫= fun a => k a ≫= h).
Proof. destruct r; reflexivity. Qed.

Lemma is_ok_true {A : Type} (r : result A) :
  is_ok r = true <-> exists a, r = Ok a.
Proof.
  destruct r as [a|e]; simpl; split.
  - eauto.
  - reflexivity.
  - discriminate.
  - intros [a Ha]. discriminate.
Qed.

Lemma is_ok_false {A : Type} (r : result A) :
  is_ok r = false <-> exists e, r = Err e.
Proof.
  destruct r as [a|e]; simpl; split.
  - discriminate.
  - intros [e He]. discriminate.
  - eauto.
  - reflexivity.
Qed.

(** ** The traversal of the reconciler *)

Lemma populate_nodes_app jo (l1 l2 : list Node) (b : buffers) :
  populate_nodes jo (l1 ++ l2) b =
  (populate_nodes jo l1 b ≫= populate_nodes jo l2).
Proof.
  revert b. induction l1 as [|n l1 IH]; intros b; simpl.
  - reflexivity.
  - destruct (populate_node jo n b) as [b'|e]; simpl.
    + apply IH.
    + reflexivity.
Qed.

(** The recursion is the node step run over the nodes it reaches. *)
Lemma populate_as_visited jo (node : Node) :
  forall b,
    populate_channel_order_and_offsets jo node b =
    populate_nodes jo (visited node) b.
Proof.
  induction node as [nm chs off cs es len ou IH] using Node_tree_ind.
  intros b. simpl. destruct es; [reflexivity|].
  simpl. destruct (populate_node jo _ b) as [b1|e]; [|reflexivity].
  rewrite !bind_ok. clear b. revert b1.
  induction IH as [|c cs' Hc _ IHcs]; intros b1; simpl.
  - reflexivity.
  - rewrite populate_nodes_app, Hc.
    destruct (populate_nodes jo (visited c) b1) as [b2|e]; [|reflexivity].
    rewrite !bind_ok. apply IHcs.
Qed.


(** The first node at which the step raises decides the exception of the
    whole run. *)
Lemma populate_nodes_first_failure jo (before after : list Node) (n : Node)
    (b b' : buffers) (e : exn) :
  populate_nodes jo before b = Ok b' ->
  populate_node jo n b' = Err e ->
  populate_nodes jo (before ++ n :: after) b = Err e.
Proof.
  intros Hb Hn. rewrite populate_nodes_app, Hb, bind_ok. simpl.
  rewrite Hn. reflexivity.
Qed.


Lemma populate_node_missing jo (n : Node) (b : buffers) :
  jo !! lower (name n) = None ->
  populate_node jo n b = Err (KeyError (lower (name n))).
Proof. intros Hjo. unfold populate_node. rewrite Hjo. reflexivity. Qed.

Lemma visited_not_end_site (node n : Node) :
  In n (visited node) -> is_end_site n = false.
Proof.
  induction node as [nm chs off cs es len ou IH] using Node_tree_ind.
  simpl. destruct es eqn:Hes; [intros []|].
  intros [<-|Hin]; [reflexivity|].
  apply in_flat_map in Hin as (c & Hc & Hn).
  rewrite List.Forall_forall in IH. exact (IH c Hc Hn).
Qed.

Lemma populate_node_ok jo (n : Node) (slot : nat) (b : buffers) :
  jo !! lower (name n) = Some (slot, file_order_string (channels n)) ->
  slot * 3 + 3 <= length (channel_order b) ->
  populate_node jo n b =
  Ok (mkBuffers
        (write_slot slot (index b) (channel_order b))
        (assign_slice (slot * 3) ((slot + 1) * 3)
                      (vec3_to_list (offset n)) (offsets b))
        (index b + 3)).
Proof.
  intros Hjo Hlen. unfold populate_node. rewrite Hjo.
  rewrite String.eqb_refl. unfold store_range, store_index. simpl.
  destruct (Nat.ltb_spec (slot * 3) (length (channel_order b))); [|lia].
  simpl. rewrite length_insert.
  destruct (Nat.ltb_spec (S (slot * 3)) (length (channel_order b))); [|lia].
  simpl. rewrite !length_insert.
  destruct (Nat.ltb_spec (S (S (slot * 3))) (length (channel_order b)));
    [|lia].
  simpl. unfold write_slot.
  replace (slot * 3 + 2)%nat with (S (S (slot * 3))) by lia.
  replace (slot * 3 + 1)%nat with (S (slot * 3)) by lia.
  replace (index b + 2)%nat with (S (S (index b))) by lia.
  replace (index b + 1)%nat with (S (index b)) by lia.
  replace (index b + 3)%nat with (S (S (S (index b)))) by lia.
  reflexivity.
Qed.





(** ** The directory loader *)

Lemma load_loop_app jo (l1 l2 : list (string * NumpyBvhReader))
    (acc : loaded) :
  load_loop jo (l1 ++ l2) acc = (load_loop jo l1 acc ≫= load_loop jo l2).
Proof.
  revert acc. induction l1 as [|[p r] l1 IH]; intros acc; simpl.
  - reflexivity.
  - destruct (load_one jo p r acc) as [acc'|e]; simpl.
    + apply IH.
    + reflexivity.
Qed.

(** A file whose reconciliation fails on the assertion is skipped: a line
    is printed and the loop goes on with what it had. *)
Lemma load_one_skips_mismatch jo (path : string) (reader : NumpyBvhReader)
    (acc : loaded) (message : string) :
  populate_channel_order_and_offsets jo (root reader) (fresh_buffers jo)
  = Err (AssertionError message) ->
  load_one jo path reader acc =
  Ok (mkLoaded (angles_list acc) (offsets_list acc)
        (printed acc ++
           ["Skipping file " +:+ path +:+
            " due to unexpected channel order: " +:+ message])).
Proof.
  intros H. unfold load_one. unfold fresh_buffers in H. rewrite H.
  reflexivity.
Qed.

(** C1, as stated, fails: the root of the first file is a joint with no
    entry in the standard order; the file is not skipped, the KeyError of
    the lookup leaves [load_all] and the second file is never read. *)
Lemma load_all_missing_joint_not_skipped :
  In (root unknown_root_file) (joints_of (root unknown_root_file))
  /\ standard_joint_order !! lower (name (root unknown_root_file)) = None
  /\ load_all standard_joint_order
       [("a.bvh", unknown_root_file); ("b.bvh", hips_only_file)]
     = Err (KeyError "pelvis").
Proof.
  split; [left; reflexivity|]. split; reflexivity.
Qed.

(** C1, amended: when the first node at which the reconciliation of a
    file fails is a joint whose lowercase name has no entry in the joint
    order, [load_all] does not skip the file: the KeyError of the lookup
    is not caught, it leaves [load_all], and no later file is read. *)
Theorem load_all_propagates_missing_joint
    (jo : gmap string (nat * string))
    (earlier later : list (string * NumpyBvhReader))
    (path : string) (reader : NumpyBvhReader) (acc : loaded)
    (before after : list Node) (n : Node) (b : buffers) :
  load_loop jo earlier (mkLoaded [] [] []) = Ok acc ->
  visited (root reader) = before ++ n :: after ->
  populate_nodes jo before (fresh_buffers jo) = Ok b ->
  jo !! lower (name n) = None ->
  load_all jo (earlier ++ (path, reader) :: later)
  = Err (KeyError (lower (name n))).
Proof.
  intros Hearlier Hvisited Hbefore Hmissing.
  unfold load_all. rewrite load_loop_app, Hearlier. simpl.
  unfold load_one.
  change (mkBuffers _ _ 0) with (fresh_buffers jo).
  rewrite populate_as_visited, Hvisited.
  rewrite (populate_nodes_first_failure jo before after n _ b
             (KeyError (lower (name n))) Hbefore
             (populate_node_missing jo n b Hmissing)).
  reflexivity.
Qed.

Lemma load_all_propagates_missing_joint_witness :
  load_all standard_joint_order
    ([("b.bvh", hips_only_file)] ++
     ("a.bvh", unknown_root_file) :: [("c.bvh", hips_only_file)])
  = Err (KeyError "pelvis").
Proof.
  apply (load_all_propagates_missing_joint standard_joint_order
           [("b.bvh", hips_only_file)] [("c.bvh", hips_only_file)]
           "a.bvh" unknown_root_file
           (mkLoaded [[repeat 0%R 63]] [repeat 0%R 63] ["Loaded b.bvh"])
           [] [] (root unknown_root_file)
           (fresh_buffers standard_joint_order));
    reflexivity.
Defined.

(** ** The reconciler's permutation *)

Lemma filter_flat_map {A B : Type} (P : B -> Prop) `{!forall x, Decision (P x)}
    (f : A -> list B) (l : list A) :
  filter P (flat_map f l) = flat_map (fun x => filter P (f x)) l.
Proof.
  induction l as [|x l IH]; simpl; [reflexivity|].
  rewrite filter_app, IH. reflexivity.
Qed.

Lemma end_sites_are_leaves_child nm chs off cs es len ou (c : Node) :
  end_sites_are_leaves (mkNode nm chs off cs es len ou) ->
  In c cs -> end_sites_are_leaves c.
Proof.
  unfold end_sites_are_leaves. rewrite !List.Forall_forall.
  intros H Hc n Hn. apply H. simpl. right.
  apply in_flat_map. exists c. split; assumption.
Qed.

(** Under the invariant of the data model the traversal reaches every
    joint of the tree. *)
Lemma visited_joints_of (root : Node) :
  end_sites_are_leaves root -> visited root = joints_of root.
Proof.
  induction root as [nm chs off cs es len ou IH] using Node_tree_ind.
  intros Hinv. unfold joints_of. simpl.
  destruct es eqn:Hes.
  - assert (cs = []) as ->.
    { unfold end_sites_are_leaves in Hinv. simpl in Hinv.
      apply List.Forall_inv in Hinv. simpl in Hinv. auto. }
    simpl. rewrite filter_cons_False; [reflexivity|]. simpl. discriminate.
  - rewrite filter_cons_True by reflexivity. f_equal.
    rewrite filter_flat_map.
    assert (forall c, In c cs -> visited c = joints_of c) as Hcs.
    { intros c Hc. rewrite List.Forall_forall in IH. apply IH; [exact Hc|].
      eapply end_sites_are_leaves_child; eassumption. }
    clear IH Hinv. induction cs as [|c cs IHcs]; simpl; [reflexivity|].
    rewrite (Hcs c) by (left; reflexivity).
    unfold joints_of at 1. f_equal. apply IHcs.
    intros c' Hc'. apply Hcs. right. exact Hc'.
Qed.

Lemma write_slot_length slot idx (co : list nat) :
  length (write_slot slot idx co) = length co.
Proof. unfold write_slot. rewrite !length_insert. reflexivity. Qed.

Lemma write_slot_here slot idx (co : list nat) (r : nat) :
  slot * 3 + 3 <= length co -> r < 3 ->
  write_slot slot idx co !! (3 * slot + r) = Some (idx + r).
Proof.
  intros Hlen Hr. unfold write_slot.
  destruct r as [|[|[|r]]]; [| | |lia].
  - rewrite list_lookup_insert_ne by lia.
    rewrite list_lookup_insert_ne by lia.
    replace (3 * slot + 0) with (slot * 3) by lia.
    rewrite list_lookup_insert_eq by lia. f_equal. lia.
  - rewrite list_lookup_insert_ne by lia.
    replace (3 * slot + 1) with (slot * 3 + 1) by lia.
    rewrite list_lookup_insert_eq by (rewrite length_insert; lia).
    reflexivity.
  - replace (3 * slot + 2) with (slot * 3 + 2) by lia.
    rewrite list_lookup_insert_eq by (rewrite !length_insert; lia).
    reflexivity.
Qed.

Lemma write_slot_elsewhere slot idx (co : list nat) (p : nat) :
  (forall r, r < 3 -> p <> 3 * slot + r) ->
  write_slot slot idx co !! p = co !! p.
Proof.
  intros Hp. unfold write_slot.
  pose proof (Hp 0 ltac:(lia)). pose proof (Hp 1 ltac:(lia)).
  pose proof (Hp 2 ltac:(lia)).
  rewrite !list_lookup_insert_ne by lia. reflexivity.
Qed.

#[local] Arguments Nat.mul : simpl never.

(** What the run over a list of reconciling nodes with distinct slots
    leaves in [channel_order]: the node at position [j] of the list has
    put [index + 3 j + r] at place [r] of its slot, and the places of no
    node of the list are as they were. *)
Lemma populate_nodes_ok jo (k : nat) (l : list Node) :
  forall b,
    Forall (reconciles jo) l ->
    NoDup (map (slot_of jo) l) ->
    Forall (fun s => s < k) (map (slot_of jo) l) ->
    length (channel_order b) = 3 * k ->
    exists b',
      populate_nodes jo l b = Ok b'
      /\ length (channel_order b') = 3 * k
      /\ (forall j n r, l !! j = Some n -> r < 3 ->
            channel_order b' !! (3 * slot_of jo n + r)
            = Some (index b + 3 * j + r))
      /\ (forall p, (forall n r, In n l -> r < 3 -> p <> 3 * slot_of jo n + r) ->
            channel_order b' !! p = channel_order b !! p).
Proof.
  induction l as [|n l IH]; intros b Hrec Hnd Hlt Hlen.
  - exists b. simpl. split; [reflexivity|]. split; [exact Hlen|].
    split; [intros j n r Hj; discriminate|reflexivity].
  - simpl in Hnd, Hlt.
    apply List.Forall_cons_iff in Hrec as [[slot Hslot] Hrec].
    apply NoDup_cons in Hnd as [Hnotin Hnd].
    apply List.Forall_cons_iff in Hlt as [Hs Hlt].
    assert (slot_of jo n = slot) as Hso.
    { unfold slot_of. rewrite Hslot. reflexivity. }
    rewrite Hso in Hs, Hnotin.
    simpl. rewrite (populate_node_ok jo n slot b Hslot) by lia. simpl.
    set (b1 := mkBuffers _ _ _).
    destruct (IH b1 Hrec Hnd Hlt) as (b' & Hrun & Hlen' & Hhere & Helse).
    { subst b1. simpl. rewrite write_slot_length. exact Hlen. }
    exists b'. split; [exact Hrun|]. split; [exact Hlen'|]. split.
    + intros j m r Hj Hr. destruct j as [|j]; simpl in Hj.
      * injection Hj as <-. rewrite Hso.
        rewrite Helse.
        -- subst b1. simpl. rewrite write_slot_here by lia. f_equal. lia.
        -- intros m r' Hm Hr' Heq.
           apply Hnotin. apply list_elem_of_In, in_map_iff.
           exists m. split; [lia|exact Hm].
      * rewrite (Hhere j m r Hj Hr). subst b1. simpl. f_equal. lia.
    + intros p Hp. rewrite Helse.
      * subst b1. simpl. apply write_slot_elsewhere.
        intros r Hr. rewrite <- Hso. apply Hp; [left; reflexivity|exact Hr].
      * intros m r Hm Hr. apply Hp; [right; exact Hm|exact Hr].
Qed.

(** The slots of the joints of a tree that matches the joint order name
    by name are the slots of the joint order. *)
Lemma joint_slots_permutation jo (l : list Node) :
  map (fun n => lower (name n)) l ≡ₚ map fst (map_to_list jo) ->
  map (slot_of jo) l ≡ₚ map (fun kv => fst (snd kv)) (map_to_list jo).
Proof.
  intros Hnames.
  pose (g := fun nm : string => default 0%nat (fst <$> jo !! nm)).
  assert (map (slot_of jo) l = map g (map (fun n => lower (name n)) l))
    as ->.
  { rewrite map_map. reflexivity. }
  assert (map (fun kv => fst (snd kv)) (map_to_list jo)
          = map g (map fst (map_to_list jo))) as ->.
  { rewrite map_map. apply map_ext_in. intros [key v] Hin. simpl.
    apply list_elem_of_In, elem_of_map_to_list in Hin.
    unfold g. rewrite Hin. reflexivity. }
  apply Permutation_map, Hnames.
Qed.

(** C3: when the joints of a tree are, name by name and each exactly
    once, the joints of a canonical joint order whose slots are
    enumerated, and every joint declares its rotation channels in the
    order that the joint order expects, then
    [populate_channel_order_and_offsets], started with index 0 on a
    buffer of N = 3 x (number of canonical joints) places, returns
    normally and leaves in [channel_order] a permutation of 0..N-1. *)
Theorem populate_channel_order_is_permutation
    (jo : gmap string (nat * string)) (root : Node)
    (co : list nat) (offs : list R) :
  slots_enumerated jo ->
  end_sites_are_leaves root ->
  map (fun n => lower (name n)) (joints_of root) ≡ₚ map fst (map_to_list jo) ->
  Forall (reconciles jo) (joints_of root) ->
  length co = 3 * size jo ->
  exists b',
    populate_channel_order_and_offsets jo root (mkBuffers co offs 0) = Ok b'
    /\ channel_order b' ≡ₚ seq 0 (3 * size jo).
Proof.
  intros Henum Hinv Hnames Hrec Hlen.
  rewrite populate_as_visited, (visited_joints_of root Hinv).
  set (l := joints_of root) in *.
  assert (map (slot_of jo) l ≡ₚ seq 0 (size jo)) as Hslots.
  { etransitivity; [apply joint_slots_permutation, Hnames|exact Henum]. }
  assert (length l = size jo) as Hl.
  { rewrite <- (length_map (slot_of jo) l), Hslots. apply length_seq. }
  destruct (populate_nodes_ok jo (size jo) l (mkBuffers co offs 0))
    as (b' & Hrun & Hlen' & Hhere & _).
  - exact Hrec.
  - rewrite Hslots. apply NoDup_seq.
  - rewrite Hslots. apply List.Forall_forall. intros s Hs.
    apply in_seq in Hs. lia.
  - exact Hlen.
  - exists b'. split; [exact Hrun|]. simpl in Hhere.
    (* every place of the buffer is place [r] of the slot of some joint *)
    assert (forall p, p < 3 * size jo ->
              exists j n r, l !! j = Some n /\ r < 3
                            /\ p = 3 * slot_of jo n + r) as Hcover.
    { intros p Hp.
      assert (In (p / 3) (map (slot_of jo) l)) as Hin.
      { apply list_elem_of_In. rewrite Hslots. apply list_elem_of_In, in_seq.
        split; [lia|]. rewrite Nat.add_0_l.
        apply Nat.Div0.div_lt_upper_bound. lia. }
      apply in_map_iff in Hin as (n & Hn & Hin).
      apply list_elem_of_In, list_elem_of_lookup in Hin as [j Hj].
      exists j, n, (p mod 3). split; [exact Hj|]. split.
      - apply Nat.mod_upper_bound. lia.
      - rewrite Hn. apply Nat.div_mod_eq. }
    apply submseteq_length_Permutation.
    + apply NoDup_submseteq.
      * apply NoDup_alt. intros p q x Hp Hq.
        destruct (Hcover p) as (j & n & r & Hj & Hr & ->).
        { rewrite <- Hlen'. eapply lookup_lt_Some, Hp. }
        destruct (Hcover q) as (j' & n' & r' & Hj' & Hr' & ->).
        { rewrite <- Hlen'. eapply lookup_lt_Some, Hq. }
        rewrite (Hhere j n r Hj Hr) in Hp.
        rewrite (Hhere j' n' r' Hj' Hr') in Hq.
        assert (3 * j + r = 3 * j' + r') as Hx by congruence.
        assert (j = j') as <- by lia.
        assert (r = r') as <- by lia.
        congruence.
      * intros x Hx. apply list_elem_of_lookup in Hx as [p Hp].
        destruct (Hcover p) as (j & n & r & Hj & Hr & ->).
        { rewrite <- Hlen'. eapply lookup_lt_Some, Hp. }
        rewrite (Hhere j n r Hj Hr) in Hp. injection Hp as <-.
        apply list_elem_of_In, in_seq. apply lookup_lt_Some in Hj. lia.
    + rewrite length_seq, Hlen'. lia.
Qed.

(** The dict comprehension over [enumerate] is the map of the listed
    entries, the later ones first. *)
Lemma enumerate_joint_order_as_map (l : list (string * string)) :
  enumerate_joint_order l
  = list_to_map
      (rev (map (fun e : nat * (string * string) => (e.2.1, (e.1, e.2.2)))
                (combine (seq 0 (length l)) l))).
Proof.
  unfold enumerate_joint_order, list_to_map.
  rewrite fold_left_rev_right.
  generalize (combine (seq 0 (length l)) l).
  generalize (∅ : gmap string (nat * string)).
  intros m es. revert m.
  induction es as [|[i [joint order]] es IH]; intros m; simpl.
  - reflexivity.
  - apply IH.
Qed.

(** A joint order that is built from a list of distinct names has its
    slots enumerated. *)
Lemma enumerate_joint_order_enumerated (l : list (string * string)) :
  NoDup (map fst l) ->
  slots_enumerated (enumerate_joint_order l)
  /\ size (enumerate_joint_order l) = length l
  /\ map fst (map_to_list (enumerate_joint_order l)) ≡ₚ map fst l.
Proof.
  intros Hnd. rewrite enumerate_joint_order_as_map.
  set (es := combine (seq 0 (length l)) l).
  set (kv := map (fun e : nat * (string * string) => (e.2.1, (e.1, e.2.2)))
                 es).
  assert (map snd es = l) as Hsnd.
  { subst es. apply snd_zip. rewrite length_seq. reflexivity. }
  assert (map fst es = seq 0 (length l)) as Hfst.
  { subst es. apply fst_zip. rewrite length_seq. reflexivity. }
  assert (map fst kv = map fst l) as Hkeys.
  { subst kv. rewrite map_map. simpl.
    transitivity (map fst (map snd es)); [|rewrite Hsnd; reflexivity].
    rewrite map_map. reflexivity. }
  assert (NoDup (map fst (rev kv))) as Hnd'.
  { rewrite map_rev, <- Permutation_rev, Hkeys. exact Hnd. }
  assert (length kv = length l) as Hlen.
  { rewrite <- (length_map fst kv), Hkeys. apply length_map. }
  pose proof (map_to_list_to_map (M := gmap string) (rev kv) Hnd') as Hperm.
  assert (size (list_to_map (rev kv) : gmap string (nat * string))
          = length l) as Hsize.
  { rewrite map_size_list_to_map by exact Hnd'.
    rewrite length_rev. exact Hlen. }
  split; [|split].
  - unfold slots_enumerated. rewrite Hsize, Hperm.
    rewrite map_rev, <- Permutation_rev.
    subst kv. rewrite map_map. simpl. rewrite <- Hfst.
    reflexivity.
  - exact Hsize.
  - rewrite Hperm, map_rev, <- Permutation_rev, Hkeys. reflexivity.
Qed.

Lemma standard_joint_order_enumerated : slots_enumerated standard_joint_order.
Proof. apply (bool_decide_unpack _). vm_compute. exact I. Qed.

Lemma rom_joint_order_enumerated : slots_enumerated rom_joint_order.
Proof. apply (bool_decide_unpack _). vm_compute. exact I. Qed.

Lemma populate_channel_order_is_permutation_witness :
  exists b',
    populate_channel_order_and_offsets standard_joint_order standard_skeleton
      (mkBuffers (repeat 0%nat 63) (repeat 0%R 63) 0) = Ok b'
    /\ channel_order b' ≡ₚ seq 0 (3 * size standard_joint_order).
Proof.
  apply (populate_channel_order_is_permutation standard_joint_order
           standard_skeleton (repeat 0%nat 63) (repeat 0%R 63)).
  - exact standard_joint_order_enumerated.
  - unfold end_sites_are_leaves.
    repeat (apply List.Forall_cons;
            [simpl; intros H; first [discriminate H | reflexivity]|]).
    apply List.Forall_nil.
  - apply (bool_decide_unpack _). vm_compute. exact I.
  - repeat (apply List.Forall_cons; [eexists; reflexivity|]).
    apply List.Forall_nil.
  - reflexivity.
Defined.

(** ** The bone segments of numpy_renderer.py *)

Lemma bones_rotation_consumes (chs : list string) :
  forall rot a1,
    length a1 = rotation_count chs ->
    exists rot', forall rest,
      bones_rotation chs rot (a1 ++ rest) = Ok (rot', rest).
Proof.
  induction chs as [|ch chs IH]; intros rot a1 Hlen; simpl in *.
  - destruct a1; [|discriminate]. exists rot. reflexivity.
  - destruct (rotation_map ch) as [r|].
    + destruct a1 as [|a a1]; [discriminate|]. simpl.
      apply IH. simpl in Hlen. lia.
    + apply IH, Hlen.
Qed.

Lemma bones_rotation_short (chs : list string) :
  forall rot a,
    length a < rotation_count chs ->
    bones_rotation chs rot a = Err IndexError.
Proof.
  induction chs as [|ch chs IH]; intros rot a Hlen; simpl in *; [lia|].
  destruct (rotation_map ch) as [r|].
  - destruct a as [|x a]; [reflexivity|]. apply IH. simpl in Hlen. lia.
  - apply IH, Hlen.
Qed.

(** A call pops exactly the angles of the rotation channels of its tree,
    and its bones depend on nothing else of the list. *)
Lemma get_bones_consumes (node : Node) :
  forall T a1,
    length a1 = total_rotations node ->
    exists bones, forall rest,
      get_bones node (a1 ++ rest) T = Ok (bones, rest).
Proof.
  induction node as [nm chs off cs es len ou IH] using Node_tree_ind.
  intros T a1 Hlen. simpl in Hlen.
  destruct (bones_rotation_consumes chs eye3 (take (rotation_count chs) a1))
    as [rot Hrot].
  { rewrite length_take. lia. }
  set (T' := mat4_dot T (set_column3 (set_rotation zeros4 rot)
                                     (homogeneous off))).
  set (p1 := mat4_vec T' (0, 0, 0, 1)%R).
  assert (forall acc a2,
            length a2 = list_sum (map total_rotations cs) ->
            exists bones, forall rest,
              bones_of_children (fun c a => get_bones c a T') p1 T' cs acc
                                (a2 ++ rest) = Ok (bones, rest)) as Hloop.
  { clear Hlen Hrot. induction IH as [|c cs' Hc _ IHcs]; intros acc a2 Hlen2.
    - destruct a2; [|discriminate]. exists acc. reflexivity.
    - simpl in Hlen2.
      destruct (Hc T' (take (total_rotations c) a2)) as [sub Hsub].
      { rewrite length_take. lia. }
      destruct (IHcs
                  ((acc ++ [(dehomogenize p1,
                             dehomogenize
                               (mat4_vec T' (homogeneous (offset c))))])
                   ++ sub)
                  (drop (total_rotations c) a2)) as [bones Hbones].
      { rewrite length_drop. lia. }
      exists bones. intros rest. simpl.
      rewrite <- (take_drop (total_rotations c) a2) at 1.
      rewrite <- app_assoc, Hsub. simpl. apply Hbones. }
  destruct (Hloop [] (drop (rotation_count chs) a1)) as [bones Hbones].
  { rewrite length_drop. lia. }
  exists bones. intros rest. simpl.
  rewrite <- (take_drop (rotation_count chs) a1) at 1.
  rewrite <- app_assoc, Hrot. simpl. apply Hbones.
Qed.

Lemma get_bones_enough (node : Node) (T : mat4) (a : list R) :
  total_rotations node <= length a ->
  exists bones,
    get_bones node a T = Ok (bones, drop (total_rotations node) a)
    /\ forall a', take (total_rotations node) a'
                  = take (total_rotations node) a ->
                  total_rotations node <= length a' ->
                  get_bones node a' T
                  = Ok (bones, drop (total_rotations node) a').
Proof.
  intros Hlen.
  destruct (get_bones_consumes node T (take (total_rotations node) a))
    as [bones Hbones].
  { rewrite length_take. lia. }
  exists bones. split.
  - rewrite <- (take_drop (total_rotations node) a) at 1. apply Hbones.
  - intros a' Htake Hlen'.
    rewrite <- (take_drop (total_rotations node) a') at 1.
    rewrite Htake. apply Hbones.
Qed.

(** A call on a list with fewer angles than the tree has rotation
    channels ends in the IndexError of [pop(0)] on the empty list. *)
Lemma get_bones_short (node : Node) :
  forall T a,
    length a < total_rotations node ->
    get_bones node a T = Err IndexError.
Proof.
  induction node as [nm chs off cs es len ou IH] using Node_tree_ind.
  intros T a Hlen. simpl in Hlen. simpl.
  destruct (Nat.lt_ge_cases (length a) (rotation_count chs)) as [Hlt|Hge].
  { rewrite bones_rotation_short by exact Hlt. reflexivity. }
  destruct (bones_rotation_consumes chs eye3 (take (rotation_count chs) a))
    as [rot Hrot].
  { rewrite length_take. lia. }
  rewrite <- (take_drop (rotation_count chs) a) at 1.
  rewrite Hrot. simpl.
  set (T' := mat4_dot T _). set (p1 := mat4_vec T' _).
  assert (length (drop (rotation_count chs) a)
          < list_sum (map total_rotations cs)) as Hrest.
  { rewrite length_drop. lia. }
  generalize (@nil bone) as acc.
  revert Hrest. generalize (drop (rotation_count chs) a) as a2.
  clear Hlen Hge Hrot.
  induction IH as [|c cs' Hc _ IHcs]; intros a2 Hrest acc; simpl in Hrest.
  - lia.
  - simpl.
    destruct (Nat.lt_ge_cases (length a2) (total_rotations c)) as [Hlt|Hge].
    { rewrite Hc by exact Hlt. reflexivity. }
    destruct (get_bones_enough c T' a2 Hge) as (sub & Hsub & _).
    rewrite Hsub. simpl. apply IHcs. rewrite length_drop. lia.
Qed.

(** C2, as stated, fails: the call pops the angles off the caller's
    list, so a second call that is handed the same list finds it empty
    and raises IndexError where the first call returned a bone. *)
Lemma get_bones_second_call_differs :
  exists b1,
    get_bones_twice minimal_skeleton [(PI / 2)%R] = Ok (b1, Err IndexError)
    /\ (Err IndexError : result (list bone)) <> Ok b1.
Proof.
  eexists. split; [reflexivity|discriminate].
Qed.

(** C2, amended: [get_bones] has no state of its own, but it consumes its
    argument. On a list that holds at least k angles, k the number of
    rotation channels of the tree, the call returns normally; its bones
    are the same for every list that starts with the same k angles; the
    k angles are popped off the caller's list, so that a second call
    with the same list object is a call on the angles that follow, and
    it raises IndexError when fewer than k of them are left. *)
Theorem get_bones_consumes_its_angles (node : Node) (a : list R) :
  total_rotations node <= length a ->
  exists b1,
    get_bones node a eye4 = Ok (b1, drop (total_rotations node) a)
    /\ (forall a',
          take (total_rotations node) a' = take (total_rotations node) a ->
          total_rotations node <= length a' ->
          fst <$> get_bones node a' eye4 = Ok b1)
    /\ get_bones_twice node a
       = Ok (b1, fst <$> get_bones node (drop (total_rotations node) a) eye4)
    /\ (length a < 2 * total_rotations node ->
        get_bones_twice node a = Ok (b1, Err IndexError)).
Proof.
  intros Hlen.
  destruct (get_bones_enough node eye4 a Hlen) as (b1 & Hfirst & Hsame).
  exists b1. split; [exact Hfirst|]. split; [|split].
  - intros a' Htake Hlen'. rewrite (Hsame a' Htake Hlen'). reflexivity.
  - unfold get_bones_twice. rewrite Hfirst. reflexivity.
  - intros Hshort. unfold get_bones_twice. rewrite Hfirst. simpl.
    rewrite get_bones_short; [reflexivity|].
    rewrite length_drop. lia.
Qed.

Lemma get_bones_consumes_its_angles_witness :
  exists b1,
    get_bones minimal_skeleton [(PI / 2)%R] eye4 = Ok (b1, [])
    /\ (forall a',
          take 1 a' = [(PI / 2)%R] -> 1 <= length a' ->
          fst <$> get_bones minimal_skeleton a' eye4 = Ok b1)
    /\ get_bones_twice minimal_skeleton [(PI / 2)%R]
       = Ok (b1, fst <$> get_bones minimal_skeleton [] eye4)
    /\ (1 < 2 -> get_bones_twice minimal_skeleton [(PI / 2)%R]
                 = Ok (b1, Err IndexError)).
Proof.
  apply (get_bones_consumes_its_angles minimal_skeleton [(PI / 2)%R]).
  simpl. lia.
Defined.

(** C7: on the skeleton of two joints (a root at the origin with
    Zrotation as its only rotation channel, one child at (0, 1, 0) with
    no rotation channel), [get_bones] with the angle pi/2 at the root
    yields one segment, from the origin to (-1, 0, 0). *)
Theorem get_bones_quarter_turn_about_z
    (root_name child_name : string) (root_end child_end : bool)
    (root_len child_len : option R) (root_unit child_unit : option vec3) :
  get_bones
    (mkNode root_name ["Zrotation"] (0, 0, 0)%R
       [mkNode child_name [] (0, 1, 0)%R [] child_end child_len child_unit]
       root_end root_len root_unit)
    [(PI / 2)%R] eye4
  = Ok ([((0, 0, 0)%R, (-1, 0, 0)%R)], []).
Proof.
  simpl. unfold mat3_dot, mat4_dot, mat4_vec, vec3_dot, vec4_dot,
    dehomogenize, homogeneous, rot_z, eye3, eye4, zeros4; simpl.
  rewrite cos_PI2, sin_PI2.
  repeat f_equal; field.
Qed.

(** ** The skeleton metrics *)

Lemma string_length_append (s1 s2 : string) :
  String.length (s1 +:+ s2) = String.length s1 + String.length s2.
Proof. induction s1 as [|c s1 IH]; simpl; [reflexivity|]. rewrite IH. reflexivity. Qed.

Lemma end_site_suffix_is_not_marker (nm : string) :
  nm +:+ "EndSite" <> "End Site".
Proof.
  intros H. destruct nm as [|c [|c' nm]]; simpl in H.
  - discriminate.
  - injection H as _ H. discriminate.
  - injection H as _ _ H.
    apply (f_equal String.length) in H.
    rewrite string_length_append in H. simpl in H. lia.
Qed.

Lemma process_node_name nm node : name (process_node nm node) = nm.
Proof. destruct node; reflexivity. Qed.

Lemma process_node_is_end_site nm node :
  is_end_site (process_node nm node) = is_end_site node.
Proof. destruct node; reflexivity. Qed.

(** A child that the pass has looked at keeps its name in a second pass. *)
Lemma child_name_settled (nm : string) (c : Node) :
  child_name nm (process_node (child_name nm c) c) = child_name nm c.
Proof.
  unfold child_name at 1.
  rewrite process_node_name, process_node_is_end_site.
  unfold child_name.
  destruct (is_end_site c); simpl; [|reflexivity].
  destruct (String.eqb_spec (name c) "End Site") as [Heq|Hne].
  - destruct (String.eqb_spec (nm +:+ "EndSite") "End Site") as [Habs|_].
    + destruct (end_site_suffix_is_not_marker nm Habs).
    + reflexivity.
  - destruct (String.eqb_spec (name c) "End Site"); [contradiction|].
    reflexivity.
Qed.

Lemma process_node_idempotent (node : Node) :
  forall nm, process_node nm (process_node nm node) = process_node nm node.
Proof.
  induction node as [nm0 chs off cs es len ou IH] using Node_tree_ind.
  intros nm. simpl. f_equal. rewrite map_map.
  induction IH as [|c cs' Hc _ IHcs]; simpl; [reflexivity|].
  rewrite child_name_settled, Hc, IHcs. reflexivity.
Qed.

(** C10: the pass is idempotent. A second pass renames nothing, as no end
    site is called 'End Site' after the first one (a name that ends in
    'EndSite' is not 'End Site'), and it computes the same length and
    unit offset from the offset, which the pass does not change. *)
Theorem process_skeleton_idempotent (root : Node) :
  process_skeleton (process_skeleton root) = process_skeleton root.
Proof.
  unfold process_skeleton. rewrite process_node_name.
  apply process_node_idempotent.
Qed.

(** ** The frame decomposer *)

Lemma list_index_lt (x : string) (l : list string) (i : nat) :
  list_index x l = Ok i -> i < length l.
Proof.
  revert i. induction l as [|y l IH]; intros i; simpl; [discriminate|].
  destruct (String.eqb y x).
  - intros [= <-]. lia.
  - destruct (list_index x l) as [j|e]; simpl; [|discriminate].
    intros [= <-]. specialize (IH j eq_refl). lia.
Qed.

(** ** The metrics pass and the reader in binary64 *)

Section Binary64Facts.
Import PrimFloat.
Import Binary64.





Lemma take_indices_binary64_ok (l : list nat) (a : list float) :
  Forall (fun i => i < length a) l ->
  exists r, take_indices l a = Ok r /\ length r = length l.
Proof.
  induction l as [|i l IH]; intros Hall; simpl.
  - exists []. split; reflexivity.
  - apply List.Forall_cons_iff in Hall as [Hi Hall].
    destruct (lookup_lt_is_Some_2 a i Hi) as [x Hx]. rewrite Hx.
    destruct (IH Hall) as (r & Hr & Hlen). rewrite Hr. simpl.
    exists (x :: r). split; [reflexivity|]. simpl. rewrite Hlen. reflexivity.
Qed.

Lemma store_row_binary64_ok (k : nat) (v row : list float)
    (buf : list (list float)) :
  buf !! k = Some row -> length v = length row ->
  store_row k v buf = Ok (<[k := v]> buf).
Proof.
  intros Hrow Hlen. unfold store_row. rewrite Hrow.
  rewrite (proj2 (Nat.eqb_eq _ _) Hlen). reflexivity.
Qed.

Lemma np_empty_binary64_shape (mem : nat -> nat -> float) (rows cols : nat) :
  length (np_empty mem rows cols) = rows
  /\ Forall (fun row => length row = cols) (np_empty mem rows cols).
Proof.
  unfold np_empty. split.
  - rewrite length_map, length_seq. reflexivity.
  - apply List.Forall_forall. intros row Hrow.
    apply in_map_iff in Hrow as (i & <- & _).
    rewrite length_map, length_seq. reflexivity.
Qed.

Lemma insert_row_binary64_shape (n k : nat) (v : list float)
    (buf : list (list float)) :
  length v = n ->
  Forall (fun row => length row = n) buf ->
  Forall (fun row => length row = n) (<[k := v]> buf).
Proof. intros Hv Hbuf. apply Forall_insert; assumption. Qed.

(** [on_motion] leaves the reader ready for its first frame. *)
Lemma on_motion_binary64_ready (mem : nat -> nat -> nat -> float) (r : Node)
    (n_channels : nat) (idx : pos_index * list nat) (frames : nat)
    (dt : float) :
  on_hierarchy n_channels r = Ok idx ->
  length (channels r) <= n_channels ->
  reader_ready (on_motion mem r n_channels idx frames dt).
Proof.
  intros Hidx Hch. destruct idx as [pos ang].
  constructor; simpl; try assumption; apply np_empty_binary64_shape.
Qed.

Lemma take_pos_binary64_ok (self : NumpyBvhReader) (values : list float) :
  reader_ready self ->
  length values = num_channels self ->
  exists pos, take_pos (_pos_idx self) values = Ok pos /\ length pos = 3.
Proof.
  intros [Hidx Hch _ _ _] Hlen. unfold on_hierarchy in Hidx.
  destruct (list_index "Xposition" _) as [ch_x|] eqn:Hx; [|discriminate].
  destruct (list_index "Yposition" _) as [ch_y|] eqn:Hy; [|discriminate].
  destruct (list_index "Zposition" _) as [ch_z|] eqn:Hz; [|discriminate].
  apply list_index_lt in Hx, Hy, Hz. simpl in Hidx.
  injection Hidx as Hpos _. rewrite <- Hpos.
  destruct ((ch_y =? ch_x + 1)%nat && (ch_z =? ch_y + 1)%nat) eqn:Hc.
  - apply andb_true_iff in Hc as [H1 H2].
    apply Nat.eqb_eq in H1, H2. simpl. eexists. split; [reflexivity|].
    unfold take_slice. rewrite length_take, length_drop. lia.
  - simpl.
    destruct (take_indices_binary64_ok [ch_x; ch_y; ch_z] values)
      as (pos & Hp & Hl).
    { repeat (apply List.Forall_cons; [lia|]). apply List.Forall_nil. }
    exists pos. split; [exact Hp|exact Hl].
Qed.

Lemma take_angles_binary64_ok (self : NumpyBvhReader) (values : list float) :
  reader_ready self ->
  length values = num_channels self ->
  exists ang, take_indices (_ang_idx self) values = Ok ang
              /\ length ang = length (_ang_idx self).
Proof.
  intros [Hidx _ _ _ _] Hlen. apply take_indices_binary64_ok.
  unfold on_hierarchy in Hidx.
  destruct (list_index "Xposition" _) as [ch_x|]; [|discriminate].
  destruct (list_index "Yposition" _) as [ch_y|]; [|discriminate].
  destruct (list_index "Zposition" _) as [ch_z|]; [|discriminate].
  simpl in Hidx. injection Hidx as _ Hang. rewrite <- Hang.
  apply List.Forall_forall. intros i Hi.
  apply list_elem_of_In, list_elem_of_filter in Hi as [_ Hi].
  apply list_elem_of_In, in_seq in Hi. lia.
Qed.

(** The reader after a frame that fits: the three rows of the frame are
    written, the others are as they were. *)
Lemma on_frame_binary64_step (self : NumpyBvhReader) (values : list float) :
  reader_ready self ->
  _frame_num self < num_frames self ->
  length values = num_channels self ->
  exists pos deg,
    take_pos (_pos_idx self) values = Ok pos
    /\ take_indices (_ang_idx self) values = Ok deg
    /\ on_frame self values
       = Ok (mkReader (root self) (num_channels self) (_pos_idx self)
               (_ang_idx self) (num_frames self) (dt self)
               (<[_frame_num self := pos]> (positions self))
               (<[_frame_num self := deg]> (angles_deg self))
               (<[_frame_num self := deg_to_rad deg]> (angles_rad self))
               (S (_frame_num self)))
    /\ reader_ready
         (mkReader (root self) (num_channels self) (_pos_idx self)
            (_ang_idx self) (num_frames self) (dt self)
            (<[_frame_num self := pos]> (positions self))
            (<[_frame_num self := deg]> (angles_deg self))
            (<[_frame_num self := deg_to_rad deg]> (angles_rad self))
            (S (_frame_num self))).
Proof.
  intros Hready Hframe Hlen.
  destruct (take_pos_binary64_ok self values Hready Hlen) as (pos & Hpos & Hpos3).
  destruct (take_angles_binary64_ok self values Hready Hlen) as (deg & Hdeg & Hdegn).
  destruct Hready as [Hidx Hch [Hp Hprows] [Hd Hdrows] [Hr Hrrows]].
  set (k := _frame_num self) in *.
  destruct (lookup_lt_is_Some_2 (positions self) k) as [prow Hprow]; [lia|].
  destruct (lookup_lt_is_Some_2 (angles_deg self) k) as [drow Hdrow]; [lia|].
  destruct (lookup_lt_is_Some_2 (angles_rad self) k) as [rrow Hrrow]; [lia|].
  assert (length prow = 3) as Hprow3.
  { rewrite List.Forall_forall in Hprows. apply Hprows.
    apply list_elem_of_In. eapply list_elem_of_lookup_2, Hprow. }
  assert (length drow = length (_ang_idx self)) as Hdrown.
  { rewrite List.Forall_forall in Hdrows. apply Hdrows.
    apply list_elem_of_In. eapply list_elem_of_lookup_2, Hdrow. }
  assert (length rrow = length (_ang_idx self)) as Hrrown.
  { rewrite List.Forall_forall in Hrrows. apply Hrrows.
    apply list_elem_of_In. eapply list_elem_of_lookup_2, Hrrow. }
  exists pos, deg. split; [exact Hpos|]. split; [exact Hdeg|]. split.
  - unfold on_frame. fold k. rewrite Hpos. simpl.
    rewrite (store_row_binary64_ok k pos prow) by (assumption || lia). simpl.
    rewrite Hdeg. simpl.
    rewrite (store_row_binary64_ok k deg drow) by (assumption || lia). simpl.
    unfold load_row. rewrite list_lookup_insert_eq by lia. simpl.
    rewrite (store_row_binary64_ok k (deg_to_rad deg) rrow); [reflexivity|assumption|].
    unfold deg_to_rad. rewrite length_map. lia.
  - constructor; simpl; try assumption.
    + split; [rewrite length_insert; exact Hp|].
      apply insert_row_binary64_shape; assumption.
    + split; [rewrite length_insert; exact Hd|].
      apply insert_row_binary64_shape; assumption.
    + split; [rewrite length_insert; exact Hr|].
      apply insert_row_binary64_shape; [|assumption].
      unfold deg_to_rad. rewrite length_map. exact Hdegn.
Qed.




End Binary64Facts.

(** ** The joint positions of theano_renderer.py *)

(** The loop over the children returns normally exactly when every
    child does, each started where the one before it stopped, and it
    then adds the positions of the children, in their order, to the
    ones it was given. *)
Lemma joints_of_children_emit (o : options) (angles : list R) (trans : mat4)
    (cs : list Node) :
  forall acc i js i',
    joints_of_children
      (fun child j => joint_positions_from o child angles j trans) cs acc i
    = Ok (js, i')
    <-> exists more, js = acc ++ more
                     /\ children_emit o angles trans cs i more i'.
Proof.
  induction cs as [|c cs IH]; intros acc i js i'; simpl.
  - split.
    + intros [= <- <-]. exists []. rewrite app_nil_r.
      split; [reflexivity|constructor].
    + intros (more & -> & H). inversion H; subst.
      rewrite app_nil_r. reflexivity.
  - destruct (joint_positions_from o c angles i trans) as [[sub i1]|e] eqn:Hc;
      simpl.
    + rewrite IH. split.
      * intros (more & -> & H). exists (sub ++ more).
        rewrite app_assoc. split; [reflexivity|].
        econstructor; eassumption.
      * intros (more & -> & H). inversion H; subst.
        match goal with
        | Hc' : joint_positions_from o c angles i trans = Ok _ |- _ =>
            rewrite Hc in Hc'; injection Hc' as <- <-
        end.
        eexists. rewrite app_assoc. split; [reflexivity|assumption].
    + split; [discriminate|].
      intros (more & _ & H). inversion H; subst. congruence.
Qed.

(** The positions in the output are as many as the joints that
    [emitted_joints] lists. *)
Lemma joint_positions_count (o : options) (angles : list R) (node : Node) :
  forall i trans joints i',
    joint_positions_from o node angles i trans = Ok (joints, i') ->
    length joints = length (emitted_joints (skip o) node).
Proof.
  induction node as [nm chs off cs es len ou IH] using Node_tree_ind.
  intros i trans joints i'. simpl.
  destruct (joint_rotation (fixed_angles o) nm chs angles eye3 i)
    as [[rot i1]|e]; simpl; [|discriminate].
  unfold pruned. simpl.
  destruct (in_skip (lower nm) (skip o)) eqn:Hskip; simpl.
  - destruct es; simpl; [intros [= <- <-]; reflexivity|].
    destruct (node_transform o _ rot trans) as [nt|e]; simpl; [|discriminate].
    intros Hrun. apply joints_of_children_emit in Hrun as (more & -> & Hem).
    simpl. clear Hskip. induction Hem as [|c rest j sub j1 more j2 Hc _ IHem].
    + reflexivity.
    + apply List.Forall_cons_iff in IH as [IHc IHrest].
      simpl. rewrite !length_app, (IHc _ _ _ _ Hc), (IHem IHrest).
      reflexivity.
  - destruct (node_transform o _ rot trans) as [nt|e]; simpl; [|discriminate].
    intros Hrun. apply joints_of_children_emit in Hrun as (more & -> & Hem).
    simpl. f_equal. clear Hskip.
    induction Hem as [|c rest j sub j1 more j2 Hc _ IHem].
    + reflexivity.
    + apply List.Forall_cons_iff in IH as [IHc IHrest].
      simpl. rewrite !length_app, (IHc _ _ _ _ Hc), (IHem IHrest).
      reflexivity.
Qed.

(** C5: the skip set of [joint_positions]. Once the loop over the
    channels of a node has built its rotation [rot]:
    - a node in [skip] that is an end site puts nothing in the output,
      and what is below it is not visited;
    - a node in [skip] that is not an end site puts no position of its
      own in the output; the call returns exactly when every child
      returns, each computed under the parent's transform times the
      rotation and the offset of the skipped node, and the output is the
      positions of the children, one child after the other;
    - a node that is not in [skip] puts its own position first, then the
      positions of its children in the same way, whatever is skipped
      below it;
    - in every case the output has one position for each joint that is
      not in [skip] and not below a skipped end site. *)
Theorem joint_positions_skip_semantics
    (o : options) (node : Node) (angles : list R) (i : nat)
    (parent_trans : mat4) (rot : mat3) (i1 : nat) :
  joint_rotation (fixed_angles o) (name node) (channels node) angles eye3 i
  = Ok (rot, i1) ->
  let node_trans_with off :=
    mat4_dot parent_trans (set_translation (set_rotation eye4 rot) off) in
  (in_skip (lower (name node)) (skip o) = true ->
   is_end_site node = true ->
   joint_positions_from o node angles i parent_trans = Ok ([], i1))
  /\ (in_skip (lower (name node)) (skip o) = true ->
      is_end_site node = false ->
      forall off, node_offset o node = Ok off ->
      forall joints i',
        joint_positions_from o node angles i parent_trans = Ok (joints, i')
        <-> children_emit o angles (node_trans_with off) (children node)
                          i1 joints i')
  /\ (in_skip (lower (name node)) (skip o) = false ->
      forall off, node_offset o node = Ok off ->
      forall joints i',
        joint_positions_from o node angles i parent_trans = Ok (joints, i')
        <-> exists below,
              joints = column3 (node_trans_with off) :: below
              /\ children_emit o angles (node_trans_with off)
                               (children node) i1 below i')
  /\ (forall joints i',
        joint_positions_from o node angles i parent_trans = Ok (joints, i')
        -> length joints = length (emitted_joints (skip o) node)).
Proof.
  intros Hrot node_trans_with.
  split; [|split; [|split]].
  - intros Hskip Hes. destruct node as [nm chs off0 cs es len ou].
    simpl in *. rewrite Hrot. simpl.
    unfold pruned. simpl. rewrite Hskip, Hes. reflexivity.
  - intros Hskip Hes off Hoff joints i'.
    destruct node as [nm chs off0 cs es len ou]. simpl in Hrot, Hskip, Hes.
    assert (pruned o (mkNode nm chs off0 cs es len ou) = false) as Hpruned.
    { unfold pruned. simpl. rewrite Hes. apply andb_false_r. }
    simpl. rewrite Hrot. simpl. rewrite Hpruned.
    unfold node_transform. rewrite Hoff, !bind_ok, Hskip.
    rewrite joints_of_children_emit. split.
    + intros (more & -> & H). exact H.
    + intros H. exists joints. split; [reflexivity|exact H].
  - intros Hskip off Hoff joints i'.
    destruct node as [nm chs off0 cs es len ou]. simpl in Hrot, Hskip.
    assert (pruned o (mkNode nm chs off0 cs es len ou) = false) as Hpruned.
    { unfold pruned. simpl. rewrite Hskip. reflexivity. }
    simpl. rewrite Hrot. simpl. rewrite Hpruned.
    unfold node_transform. rewrite Hoff, !bind_ok, Hskip.
    rewrite joints_of_children_emit. split.
    + intros (more & -> & H). exists more. split; [reflexivity|exact H].
    + intros (below & -> & H). exists below. split; [reflexivity|exact H].
  - intros joints i'. apply joint_positions_count.
Qed.

(** The head of the torso below the turned spine: its position, and
    nothing for the end site that is skipped. *)
Lemma head_below_turned_spine :
  joint_positions_from skip_spine_and_top head_with_top [(PI / 2)%R] 1
    (mat4_dot (mat4_dot eye4 (set_translation (set_rotation eye4 eye3)
                                              (0, 0, 0)%R))
              (set_translation
                 (set_rotation eye4 (mat3_dot eye3 (rot_z (PI / 2))))
                 (0, 1, 0)%R))
  = Ok ([(-1, 1, 0, 1)%R], 1).
Proof.
  simpl. unfold mat3_dot, mat4_dot, mat4_vec, vec3_dot, vec4_dot, column3,
    set_translation, set_rotation, rot_z, eye3, eye4; simpl.
  rewrite cos_PI2, sin_PI2.
  repeat f_equal; ring.
Qed.

Lemma hips_at_the_origin :
  column3 (mat4_dot eye4 (set_translation (set_rotation eye4 eye3)
                                          (0, 0, 0)%R))
  = (0, 0, 0, 1)%R.
Proof.
  unfold mat4_dot, vec4_dot, column3, set_translation, set_rotation,
    eye3, eye4; simpl.
  repeat f_equal; ring.
Qed.

Lemma joint_positions_skip_semantics_witness :
  joint_positions_from skip_spine_and_top torso [(PI / 2)%R] 0 eye4
  = Ok ([(0, 0, 0, 1)%R; (-1, 1, 0, 1)%R], 1)
  /\ length (emitted_joints (skip skip_spine_and_top) torso) = 2.
Proof.
  assert (joint_positions_from skip_spine_and_top torso [(PI / 2)%R] 0 eye4
          = Ok ([column3 (mat4_dot eye4
                            (set_translation (set_rotation eye4 eye3)
                                             (0, 0, 0)%R));
                 (-1, 1, 0, 1)%R], 1)) as Hrun.
  { apply (proj1 (proj2 (proj2 (joint_positions_skip_semantics
                                  skip_spine_and_top torso [(PI / 2)%R] 0
                                  eye4 eye3 0 eq_refl)))
             eq_refl (0, 0, 0)%R eq_refl).
    exists [(-1, 1, 0, 1)%R]. split; [reflexivity|].
    apply (children_emit_cons _ _ _ turning_spine [] 0
             [(-1, 1, 0, 1)%R] 1 [] 1); [|constructor].
    apply (proj1 (proj2 (joint_positions_skip_semantics
                           skip_spine_and_top turning_spine [(PI / 2)%R] 0
                           _ (mat3_dot eye3 (rot_z (PI / 2))) 1 eq_refl))
             eq_refl eq_refl (0, 1, 0)%R eq_refl).
    apply (children_emit_cons _ _ _ head_with_top [] 1
             [(-1, 1, 0, 1)%R] 1 [] 1); [|constructor].
    exact head_below_turned_spine. }
  split.
  - rewrite Hrun, hips_at_the_origin. reflexivity.
  - exact (eq_sym
             (proj2 (proj2 (proj2 (joint_positions_skip_semantics
                                     skip_spine_and_top torso [(PI / 2)%R] 0
                                     eye4 eye3 0 eq_refl))) _ 1 Hrun)).
Defined.

(** ** The batch of one *)

Lemma joint_rotation_batch_of_one (fixed : option (gmap string R))
    (nm : string) (chs : list string) (angles : list R) :
  forall rot i,
    joint_rotation_batch fixed nm chs [angles] [rot] i
    = (fun r => ([fst r], snd r)) <$> joint_rotation fixed nm chs angles rot i.
Proof.
  induction chs as [|ch chs IH]; intros rot i; simpl; [reflexivity|].
  destruct (channel_key nm ch) as [key|e]; simpl; [|reflexivity].
  destruct (rotation_map ch) as [r|]; [|apply IH].
  destruct (fixed_angle fixed key) as [a|]; [apply IH|].
  destruct (angles !! i) as [a|]; simpl; [apply IH|reflexivity].
Qed.

Lemma node_offset_batch_of_one (o : options) (node : Node) :
  node_offset_batch (batch_options_of o) node
  = batch_of_one <$> node_offset o node.
Proof.
  unfold node_offset_batch, node_offset, batch_options_of. simpl.
  destruct (lengths o) as [lens|]; simpl; [|reflexivity].
  destruct (node_length node) as [len|]; [|reflexivity].
  destruct (Req_dec_T len 0); [reflexivity|].
  unfold lookup_length_batch, lookup_length.
  destruct (lengths_map o) as [m|]; [|reflexivity].
  destruct (m !! lower (name node)) as [k|]; [|reflexivity].
  simpl. destruct (lens !! k) as [x|]; simpl; [|reflexivity].
  destruct (offset_unit node); reflexivity.
Qed.

Lemma node_transform_batch_of_one (o : options) (node : Node) (rot : mat3)
    (parent_trans : mat4) :
  node_transform_batch (batch_options_of o) node 1 [rot] [parent_trans]
  = batch_of_one <$> node_transform o node rot parent_trans.
Proof.
  unfold node_transform_batch, node_transform.
  rewrite node_offset_batch_of_one.
  destruct (node_offset o node) as [off|e]; reflexivity.
Qed.

(** The recursion of the batch variant on a batch of one is the
    recursion of the single-sample function, joint by joint. *)
Lemma joint_positions_batch_from_of_one (o : options) (angles : list R)
    (node : Node) :
  forall i parent_trans,
    joint_positions_batch_from (batch_options_of o) node [angles] i
                               [parent_trans]
    = lift_joints <$> joint_positions_from o node angles i parent_trans.
Proof.
  induction node as [nm chs off cs es len ou IH] using Node_tree_ind.
  intros i parent_trans. simpl.
  unfold repeat_batch. simpl.
  rewrite joint_rotation_batch_of_one.
  destruct (joint_rotation (fixed_angles o) nm chs angles eye3 i)
    as [[rot i1]|e]; simpl; [|reflexivity].
  change (pruned_batch (batch_options_of o) (mkNode nm chs off cs es len ou))
    with (pruned o (mkNode nm chs off cs es len ou)).
  destruct (pruned o _); [reflexivity|].
  rewrite node_transform_batch_of_one.
  destruct (node_transform o _ rot parent_trans) as [node_trans|e]; simpl;
    [|reflexivity].
  assert (forall acc j,
            joints_of_children
              (fun child j =>
                 joint_positions_batch_from (batch_options_of o) child
                   [angles] j [node_trans])
              cs (map batch_of_one acc) j
            = lift_joints <$>
                joints_of_children
                  (fun child j =>
                     joint_positions_from o child angles j node_trans)
                  cs acc j) as Hloop.
  { induction IH as [|c cs' Hc _ IHcs]; intros acc j; simpl; [reflexivity|].
    rewrite Hc.
    destruct (joint_positions_from o c angles j node_trans)
      as [[sub j']|e]; simpl; [|reflexivity].
    unfold lift_joints at 1. simpl. rewrite <- map_app. apply IHcs. }
  destruct (in_skip (lower nm) (skip o)).
  - apply (Hloop []).
  - apply (Hloop [column3 node_trans]).
Qed.

(** C4: called with a vector of angles, which it turns into a batch of
    one, and with the lengths, if any, as a vector, the batch variant
    yields for every joint the batch that holds the one position that
    the single-sample function yields for that joint on the same
    arguments, and it raises what the single-sample function raises. *)
Theorem joint_positions_batch_of_one
    (fixed : option (gmap string R)) (lens : option (list R))
    (lmap : option (gmap string nat)) (skipped : list string)
    (node : Node) (angles : list R) :
  joint_positions_batch
    (mkBatchOptions fixed (Rank1 <$> lens) lmap skipped) node (Rank1 angles)
  = map batch_of_one <$>
      joint_positions (mkOptions fixed lens lmap skipped) node angles.
Proof.
  unfold joint_positions_batch, joint_positions. simpl.
  unfold repeat_batch. simpl.
  set (o := mkOptions fixed lens lmap skipped).
  match goal with
  | |- context [joint_positions_batch_from ?bo _ _ _ _] =>
      replace bo with (batch_options_of o)
        by (unfold batch_options_of; destruct lens; reflexivity)
  end.
  rewrite joint_positions_batch_from_of_one.
  destruct (joint_positions_from o node angles 0 eye4) as [[js i]|e];
    reflexivity.
Qed.

(** * Further properties of the code *)

(** ** The reconciler's buffers *)

Lemma assign_slice_length (lo : nat) (t l : list R) :
  lo + length t <= length l ->
  length (assign_slice lo (lo + length t) t l) = length l.
Proof.
  intros H. unfold assign_slice.
  rewrite !length_app, length_take, length_drop. lia.
Qed.

Lemma assign_slice_here (lo : nat) (t l : list R) (r : nat) :
  lo + length t <= length l -> r < length t ->
  assign_slice lo (lo + length t) t l !! (lo + r) = t !! r.
Proof.
  intros H Hr. unfold assign_slice.
  rewrite lookup_app_r by (rewrite length_take; lia).
  rewrite length_take.
  replace (lo + r - lo `min` length l) with r by lia.
  apply lookup_app_l. exact Hr.
Qed.

Lemma assign_slice_elsewhere (lo : nat) (t l : list R) (p : nat) :
  lo + length t <= length l ->
  (forall r, r < length t -> p <> lo + r) ->
  assign_slice lo (lo + length t) t l !! p = l !! p.
Proof.
  intros H Hp. unfold assign_slice.
  destruct (Nat.lt_ge_cases p lo) as [Hlt|Hge].
  - rewrite lookup_app_l by (rewrite length_take; lia).
    apply lookup_take_lt. exact Hlt.
  - assert (lo + length t <= p) as Hhi.
    { destruct (Nat.lt_ge_cases p (lo + length t)) as [Hin|]; [|assumption].
      exfalso. apply (Hp (p - lo)); lia. }
    rewrite lookup_app_r by (rewrite length_take; lia).
    rewrite lookup_app_r by (rewrite length_take; lia).
    rewrite length_take, lookup_drop. f_equal. lia.
Qed.

Lemma vec3_to_list_length (v : vec3) : length (vec3_to_list v) = 3.
Proof. destruct v as [[x y] z]. reflexivity. Qed.

(** What the run over reconciling nodes with distinct slots leaves in
    [offsets] and in the index cell. *)
Lemma populate_nodes_offsets jo (k : nat) (l : list Node) :
  forall b,
    Forall (reconciles jo) l ->
    NoDup (map (slot_of jo) l) ->
    Forall (fun s => s < k) (map (slot_of jo) l) ->
    length (channel_order b) = 3 * k ->
    length (offsets b) = 3 * k ->
    exists b',
      populate_nodes jo l b = Ok b'
      /\ index b' = index b + 3 * length l
      /\ length (offsets b') = 3 * k
      /\ (forall n r, In n l -> r < 3 ->
            offsets b' !! (3 * slot_of jo n + r)
            = vec3_to_list (offset n) !! r)
      /\ (forall p, (forall n r, In n l -> r < 3 -> p <> 3 * slot_of jo n + r) ->
            offsets b' !! p = offsets b !! p).
Proof.
  induction l as [|n l IH]; intros b Hrec Hnd Hlt Hlen Hlen2.
  - exists b. simpl. split; [reflexivity|]. split; [lia|].
    split; [exact Hlen2|]. split; [intros n r []|reflexivity].
  - simpl in Hnd, Hlt.
    apply List.Forall_cons_iff in Hrec as [[slot Hslot] Hrec].
    apply NoDup_cons in Hnd as [Hnotin Hnd].
    apply List.Forall_cons_iff in Hlt as [Hs Hlt].
    assert (slot_of jo n = slot) as Hso.
    { unfold slot_of. rewrite Hslot. reflexivity. }
    rewrite Hso in Hs, Hnotin.
    simpl. rewrite (populate_node_ok jo n slot b Hslot) by lia. simpl.
    set (b1 := mkBuffers _ _ _).
    pose proof (vec3_to_list_length (offset n)) as H3.
    assert (offsets b1
            = assign_slice (3 * slot) (3 * slot + length (vec3_to_list (offset n)))
                           (vec3_to_list (offset n)) (offsets b)) as Hoffs.
    { subst b1. simpl. rewrite H3. f_equal; lia. }
    destruct (IH b1 Hrec Hnd Hlt) as (b' & Hrun & Hidx & Hlen' & Hhere & Helse).
    { subst b1. simpl. rewrite write_slot_length. exact Hlen. }
    { rewrite Hoffs, assign_slice_length; [exact Hlen2|lia]. }
    exists b'. split; [exact Hrun|]. split.
    { rewrite Hidx. subst b1. simpl. lia. }
    split; [exact Hlen'|]. split.
    + intros m r [<-|Hm] Hr.
      * rewrite Hso, Helse.
        -- rewrite Hoffs. apply assign_slice_here; lia.
        -- intros m r' Hm Hr' Heq. apply Hnotin.
           apply list_elem_of_In, in_map_iff. exists m. split; [lia|exact Hm].
      * apply Hhere; assumption.
    + intros p Hp. rewrite Helse.
      * rewrite Hoffs. apply assign_slice_elsewhere; [lia|].
        intros r Hr. rewrite H3 in Hr. rewrite <- Hso.
        apply Hp; [left; reflexivity|exact Hr].
      * intros m r Hm Hr. apply Hp; [right; exact Hm|exact Hr].
Qed.

(** X1: a tree whose reached joints all reconcile with the joint order and
    have distinct slots below k is reconciled without an exception on
    buffers of 3k places, also when it lacks some of the canonical
    joints. The three places of each joint's slot in [offsets] then hold
    its offset, the three places in [channel_order] hold the three
    consecutive indices that the joint was given in the order of the
    traversal, every other place of both buffers is as it was, and the
    index cell has moved on by three for each joint. *)
Theorem populate_fills_the_slots_of_its_joints
    (jo : gmap string (nat * string)) (k : nat) (root : Node) (b : buffers) :
  Forall (reconciles jo) (visited root) ->
  NoDup (map (slot_of jo) (visited root)) ->
  Forall (fun s => s < k) (map (slot_of jo) (visited root)) ->
  length (channel_order b) = 3 * k ->
  length (offsets b) = 3 * k ->
  exists b',
    populate_channel_order_and_offsets jo root b = Ok b'
    /\ index b' = index b + 3 * length (visited root)
    /\ length (channel_order b') = 3 * k
    /\ length (offsets b') = 3 * k
    /\ (forall j n r, visited root !! j = Some n -> r < 3 ->
          channel_order b' !! (3 * slot_of jo n + r)
          = Some (index b + 3 * j + r)
          /\ offsets b' !! (3 * slot_of jo n + r)
             = vec3_to_list (offset n) !! r)
    /\ (forall p,
          (forall n r, In n (visited root) -> r < 3 ->
                       p <> 3 * slot_of jo n + r) ->
          channel_order b' !! p = channel_order b !! p
          /\ offsets b' !! p = offsets b !! p).
Proof.
  intros Hrec Hnd Hlt Hlen Hlen2. rewrite populate_as_visited.
  destruct (populate_nodes_ok jo k (visited root) b Hrec Hnd Hlt Hlen)
    as (b1 & Hrun1 & Hco & Hhere & Helse).
  destruct (populate_nodes_offsets jo k (visited root) b Hrec Hnd Hlt Hlen Hlen2)
    as (b2 & Hrun2 & Hidx & Hoff & Hhere2 & Helse2).
  assert (b2 = b1) as -> by congruence.
  exists b1. split; [exact Hrun1|]. split; [exact Hidx|].
  split; [exact Hco|]. split; [exact Hoff|]. split.
  - intros j n r Hj Hr. split; [apply Hhere; assumption|].
    apply Hhere2; [|exact Hr].
    apply list_elem_of_In. eapply list_elem_of_lookup_2, Hj.
  - intros p Hp. split; [apply Helse, Hp|apply Helse2, Hp].
Qed.

Lemma populate_fills_the_slots_of_its_joints_witness :
  exists b',
    populate_channel_order_and_offsets standard_joint_order
      (joint "Spine" xyz (0, 1, 0)%R [joint "Head" xyz (0, 4, 0)%R []])
      (fresh_buffers standard_joint_order) = Ok b'
    /\ index b' = 0 + 3 * 2
    /\ length (channel_order b') = 3 * 21
    /\ length (offsets b') = 3 * 21
    /\ (forall j n r,
          visited (joint "Spine" xyz (0, 1, 0)%R
                         [joint "Head" xyz (0, 4, 0)%R []]) !! j = Some n ->
          r < 3 ->
          channel_order b' !! (3 * slot_of standard_joint_order n + r)
          = Some (0 + 3 * j + r)
          /\ offsets b' !! (3 * slot_of standard_joint_order n + r)
             = vec3_to_list (offset n) !! r)
    /\ (forall p,
          (forall n r,
             In n (visited (joint "Spine" xyz (0, 1, 0)%R
                                  [joint "Head" xyz (0, 4, 0)%R []])) ->
             r < 3 -> p <> 3 * slot_of standard_joint_order n + r) ->
          channel_order b' !! p
          = channel_order (fresh_buffers standard_joint_order) !! p
          /\ offsets b' !! p
             = offsets (fresh_buffers standard_joint_order) !! p).
Proof.
  apply (populate_fills_the_slots_of_its_joints standard_joint_order 21
           (joint "Spine" xyz (0, 1, 0)%R [joint "Head" xyz (0, 4, 0)%R []])
           (fresh_buffers standard_joint_order)).
  - repeat (apply List.Forall_cons; [eexists; reflexivity|]).
    apply List.Forall_nil.
  - apply (bool_decide_unpack _). vm_compute. exact I.
  - repeat (apply List.Forall_cons; [vm_compute; lia|]). apply List.Forall_nil.
  - reflexivity.
  - reflexivity.
Defined.

(** X2: a joint that reconciles but whose slot does not lie within
    [channel_order] makes the call raise IndexError, also when the first
    places of the slot exist and have been written by then. *)
Theorem populate_slot_out_of_range
    (jo : gmap string (nat * string)) (n : Node) (slot : nat) (b : buffers) :
  is_end_site n = false ->
  jo !! lower (name n) = Some (slot, file_order_string (channels n)) ->
  length (channel_order b) < slot * 3 + 3 ->
  populate_channel_order_and_offsets jo n b = Err IndexError.
Proof.
  intros Hes Hjo Hlen. destruct n as [nm chs off cs es len ou].
  simpl in Hes. subst es. simpl in *.
  unfold populate_node. simpl. rewrite Hjo, String.eqb_refl.
  unfold store_range, store_index. simpl.
  destruct (Nat.ltb_spec (slot * 3) (length (channel_order b)));
    [|reflexivity].
  simpl. rewrite length_insert.
  destruct (Nat.ltb_spec (S (slot * 3)) (length (channel_order b)));
    [|reflexivity].
  simpl. rewrite !length_insert.
  destruct (Nat.ltb_spec (S (S (slot * 3))) (length (channel_order b)));
    [lia|reflexivity].
Qed.

Lemma populate_slot_out_of_range_witness :
  populate_channel_order_and_offsets standard_joint_order
    (joint "RightToeBase" xyz (0, 0, 1)%R [])
    (mkBuffers (repeat 0%nat 62) (repeat 0%R 63) 0)
  = Err IndexError.
Proof.
  apply (populate_slot_out_of_range standard_joint_order
           (joint "RightToeBase" xyz (0, 0, 1)%R []) 20
           (mkBuffers (repeat 0%nat 62) (repeat 0%R 63) 0)
           eq_refl eq_refl).
  simpl. lia.
Defined.

(** ** The loader *)

Lemma load_one_same_data jo (path : string) (reader : NumpyBvhReader)
    (acc1 acc2 : loaded) :
  same_data acc1 acc2 ->
  match load_one jo path reader acc1, load_one jo path reader acc2 with
  | Ok acc1', Ok acc2' => same_data acc1' acc2'
  | Err e1, Err e2 => e1 = e2
  | _, _ => False
  end.
Proof.
  intros [Ha Ho]. unfold load_one.
  destruct (populate_channel_order_and_offsets jo (root reader) _)
    as [b|[message| | | | | |]]; simpl; try reflexivity.
  - destruct (take_columns _ _ _) as [cols|e]; simpl; [|reflexivity].
    split; simpl; congruence.
  - split; assumption.
Qed.

Lemma load_loop_same_data jo (files : list (string * NumpyBvhReader)) :
  forall acc1 acc2,
    same_data acc1 acc2 ->
    match load_loop jo files acc1, load_loop jo files acc2 with
    | Ok acc1', Ok acc2' => same_data acc1' acc2'
    | Err e1, Err e2 => e1 = e2
    | _, _ => False
    end.
Proof.
  induction files as [|[path reader] files IH]; intros acc1 acc2 Hsame; simpl.
  - exact Hsame.
  - pose proof (load_one_same_data jo path reader acc1 acc2 Hsame) as Hone.
    destruct (load_one jo path reader acc1) as [acc1'|e1],
             (load_one jo path reader acc2) as [acc2'|e2];
      simpl; try contradiction.
    + apply IH, Hone.
    + exact Hone.
Qed.

(** X3: a file whose reconciliation fails on the assertion of the channel
    order does not change what [load_all] returns as angles and offsets:
    they are the ones of the same files without it (and so is the
    exception, if one is raised), whatever comes before and after it. *)
Theorem load_all_skips_mismatching_file
    (jo : gmap string (nat * string))
    (earlier later : list (string * NumpyBvhReader))
    (path : string) (reader : NumpyBvhReader) (message : string) :
  populate_channel_order_and_offsets jo (root reader) (fresh_buffers jo)
  = Err (AssertionError message) ->
  loaded_data (load_all jo (earlier ++ (path, reader) :: later))
  = loaded_data (load_all jo (earlier ++ later)).
Proof.
  intros Hbad. unfold loaded_data, load_all.
  rewrite !load_loop_app.
  destruct (load_loop jo earlier (mkLoaded [] [] [])) as [acc|e]; simpl;
    [|reflexivity].
  rewrite (load_one_skips_mismatch jo path reader acc message Hbad). simpl.
  set (acc' := mkLoaded _ _ _).
  pose proof (load_loop_same_data jo later acc' acc
                (conj eq_refl eq_refl)) as Hsame.
  destruct (load_loop jo later acc') as [r1|e1],
           (load_loop jo later acc) as [r2|e2];
    simpl; try contradiction.
  - destruct Hsame as [Ha Ho]. rewrite Ha, Ho.
    destruct (np_vstack (angles_list r2)); reflexivity.
  - congruence.
Qed.

Lemma load_all_skips_mismatching_file_witness :
  loaded_data
    (load_all standard_joint_order
       ([("a.bvh", hips_only_file)] ++
        ("b.bvh", one_joint_file "LeftForeArm") :: [("c.bvh", hips_only_file)]))
  = loaded_data
      (load_all standard_joint_order
         ([("a.bvh", hips_only_file)] ++ [("c.bvh", hips_only_file)])).
Proof.
  apply (load_all_skips_mismatching_file standard_joint_order
           [("a.bvh", hips_only_file)] [("c.bvh", hips_only_file)]
           "b.bvh" (one_joint_file "LeftForeArm")
           "Expected channel order yzx but file specifies xyz for node LeftForeArm").
  reflexivity.
Defined.

(** X4: when no file is loaded, either because there is none or because
    every file is skipped for its channel order, [load_all] does not
    return empty arrays: [np.vstack] of the empty list raises
    ValueError. *)
Theorem load_all_nothing_loaded
    (jo : gmap string (nat * string))
    (files : list (string * NumpyBvhReader)) :
  Forall (fun f =>
            exists message,
              populate_channel_order_and_offsets jo (root (snd f))
                (fresh_buffers jo) = Err (AssertionError message)) files ->
  load_all jo files = Err ValueError.
Proof.
  intros Hall. unfold load_all.
  assert (forall acc,
            exists acc', load_loop jo files acc = Ok acc'
                         /\ angles_list acc' = angles_list acc) as Hloop.
  { induction Hall as [|[path reader] files [message Hbad] _ IH]; intros acc.
    - exists acc. split; reflexivity.
    - simpl in Hbad. simpl.
      rewrite (load_one_skips_mismatch jo path reader acc message Hbad).
      simpl. destruct (IH (mkLoaded (angles_list acc) (offsets_list acc)
                   (printed acc ++
                    ["Skipping file " +:+ path +:+
                     " due to unexpected channel order: " +:+ message])))
        as (acc' & Hrun & Hangles).
      exists acc'. split; [exact Hrun|exact Hangles]. }
  destruct (Hloop (mkLoaded [] [] [])) as (acc' & Hrun & Hangles).
  rewrite Hrun. simpl in *. rewrite Hangles. reflexivity.
Qed.

Lemma load_all_nothing_loaded_witness :
  load_all standard_joint_order [("b.bvh", one_joint_file "LeftForeArm")]
  = Err ValueError.
Proof.
  apply (load_all_nothing_loaded standard_joint_order
           [("b.bvh", one_joint_file "LeftForeArm")]).
  apply List.Forall_cons; [eexists; reflexivity|apply List.Forall_nil].
Defined.

(** ** The channel labels *)

Lemma store_labels_ok (joint_name : string) (order : string) :
  forall i all_channels,
    i + String.length order <= length all_channels ->
    exists all',
      store_labels joint_name order i all_channels = Ok all'
      /\ length all' = length all_channels
      /\ (forall r c, String.get r order = Some c ->
            all' !! (i + r)
            = Some (Label (joint_name +:+ "_" +:+ String c EmptyString)))
      /\ (forall p, p < i \/ i + String.length order <= p ->
            all' !! p = all_channels !! p).
Proof.
  induction order as [|c order IH]; intros i all_channels Hlen; simpl in *.
  - exists all_channels. split; [reflexivity|]. split; [reflexivity|].
    split; [intros r c; discriminate|reflexivity].
  - destruct (Nat.ltb_spec i (length all_channels)); [|lia].
    destruct (IH (S i)
                 (<[i := Label (joint_name +:+ "_" +:+ String c EmptyString)]>
                    all_channels))
      as (all' & Hrun & Hlen' & Hhere & Helse).
    { rewrite length_insert. lia. }
    exists all'. split; [exact Hrun|].
    split; [rewrite Hlen'; apply length_insert|]. split.
    + intros r c' Hget. destruct r as [|r].
      * injection Hget as <-. rewrite Nat.add_0_r.
        rewrite Helse by lia. apply list_lookup_insert_eq. lia.
      * replace (i + S r) with (S i + r) by lia. apply Hhere, Hget.
    + intros p Hp. rewrite Helse by lia.
      apply list_lookup_insert_ne. lia.
Qed.

Lemma string_get_lt (s : string) (r : nat) (c : ascii) :
  String.get r s = Some c -> r < String.length s.
Proof.
  revert r. induction s as [|a s IH]; intros r; simpl; [discriminate|].
  destruct r as [|r]; [lia|]. intros H. apply IH in H. lia.
Qed.

(** The labels after the loop over a list of keys with distinct slots and
    orders of three letters. *)
Lemma label_joints_ok jo (k : nat) (keys : list string) :
  forall all_channels,
    Forall (fun key => exists slot order,
              jo !! key = Some (slot, order)
              /\ slot < k /\ String.length order = 3) keys ->
    NoDup (map (fun key => default 0%nat (fst <$> jo !! key)) keys) ->
    length all_channels = 3 * k ->
    exists all',
      label_joints jo keys all_channels = Ok all'
      /\ length all' = 3 * k
      /\ (forall key slot order r c,
            In key keys -> jo !! key = Some (slot, order) ->
            String.get r order = Some c ->
            all' !! (3 * slot + r)
            = Some (Label (key +:+ "_" +:+ String c EmptyString)))
      /\ (forall p,
            (forall key slot order r,
               In key keys -> jo !! key = Some (slot, order) -> r < 3 ->
               p <> 3 * slot + r) ->
            all' !! p = all_channels !! p).
Proof.
  induction keys as [|key keys IH]; intros all_channels Hall Hnd Hlen.
  - exists all_channels. split; [reflexivity|]. split; [exact Hlen|].
    split; [intros ? ? ? ? ? []|reflexivity].
  - apply List.Forall_cons_iff in Hall as [(slot & order & Hjo & Hs & Ho) Hall].
    simpl in Hnd. apply NoDup_cons in Hnd as [Hnotin Hnd].
    rewrite Hjo in Hnotin. simpl in Hnotin.
    simpl. rewrite Hjo.
    destruct (store_labels_ok key order (slot * 3) all_channels)
      as (all1 & Hrun1 & Hlen1 & Hhere1 & Helse1); [lia|].
    rewrite Hrun1. simpl.
    destruct (IH all1 Hall Hnd) as (all' & Hrun & Hlen' & Hhere & Helse);
      [lia|].
    exists all'. split; [exact Hrun|]. split; [exact Hlen'|]. split.
    + intros key' slot' order' r c [<-|Hin] Hjo' Hget.
      * rewrite Hjo in Hjo'. injection Hjo' as <- <-.
        pose proof (string_get_lt _ _ _ Hget) as Hr.
        rewrite Helse.
        -- replace (3 * slot + r) with (slot * 3 + r) by lia.
           apply Hhere1, Hget.
        -- intros key' slot' order' r' Hin Hjo' Hr' Heq.
           apply Hnotin. apply list_elem_of_In, in_map_iff.
           exists key'. rewrite Hjo'. simpl. split; [lia|exact Hin].
      * eapply Hhere; eassumption.
    + intros p Hp. rewrite Helse.
      * apply Helse1.
        destruct (Nat.lt_ge_cases p (slot * 3)) as [?|Hge]; [left; assumption|].
        right. rewrite Ho.
        destruct (Nat.lt_ge_cases p (slot * 3 + 3)) as [Hlt|?]; [|assumption].
        exfalso. apply (Hp key slot order (p - slot * 3));
          [left; reflexivity|exact Hjo|lia|lia].
      * intros key' slot' order' r Hin. apply Hp. right. exact Hin.
Qed.

(** X5: for a joint order with enumerated slots and orders of three
    letters, [get_all_channels] returns a list of 3 x (number of joints)
    labels with none of the initial entries left, and the label at place
    [r] of the slot of a joint is the joint's name, an underscore and
    letter [r] of its order; this does not depend on the order in which
    the dict yields its keys. *)
Theorem get_all_channels_labels_every_slot
    (jo : gmap string (nat * string)) (keys : list string) :
  keys ≡ₚ map fst (map_to_list jo) ->
  slots_enumerated jo ->
  map_Forall (fun _ v => String.length (snd v) = 3) jo ->
  exists all_channels,
    get_all_channels keys jo = Ok all_channels
    /\ length all_channels = 3 * size jo
    /\ (forall key slot order r c,
          jo !! key = Some (slot, order) ->
          String.get r order = Some c ->
          all_channels !! (3 * slot + r)
          = Some (Label (key +:+ "_" +:+ String c EmptyString)))
    /\ Forall (fun cell => cell <> Unset) all_channels.
Proof.
  intros Hkeys Henum Hthree.
  set (g := fun key : string => default 0%nat (fst <$> jo !! key)).
  assert (map g keys ≡ₚ seq 0 (size jo)) as Hslots.
  { transitivity (map g (map fst (map_to_list jo)));
      [apply Permutation_map, Hkeys|].
    etransitivity; [|exact Henum]. rewrite map_map.
    apply Permutation_refl'. apply map_ext_in. intros [key v] Hin. simpl.
    apply list_elem_of_In, elem_of_map_to_list in Hin.
    unfold g. rewrite Hin. reflexivity. }
  assert (forall key, In key keys <-> is_Some (jo !! key)) as Hdom.
  { intros key. rewrite <- list_elem_of_In, Hkeys.
    rewrite list_elem_of_fmap. split.
    - intros ([key' v] & -> & Hin). apply elem_of_map_to_list in Hin.
      simpl. rewrite Hin. eauto.
    - intros [v Hv]. exists (key, v). split; [reflexivity|].
      apply elem_of_map_to_list, Hv. }
  destruct (label_joints_ok jo (size jo) keys (repeat Unset (3 * size jo)))
    as (all' & Hrun & Hlen & Hhere & _).
  - apply List.Forall_forall. intros key Hin.
    apply Hdom in Hin as [[slot order] Hjo]. exists slot, order.
    split; [exact Hjo|]. split; [|exact (Hthree key _ Hjo)].
    assert (In (g key) (map g keys)) as Hg.
    { apply in_map, Hdom. rewrite Hjo. eauto. }
    apply list_elem_of_In in Hg. rewrite Hslots in Hg.
    apply list_elem_of_In, in_seq in Hg. unfold g in Hg. rewrite Hjo in Hg.
    simpl in Hg. lia.
  - fold g. rewrite Hslots. apply NoDup_seq.
  - apply repeat_length.
  - exists all'. split; [exact Hrun|]. split; [exact Hlen|]. split.
    + intros key slot order r c Hjo Hget.
      apply (Hhere key slot order r c); [|exact Hjo|exact Hget].
      apply Hdom. rewrite Hjo. eauto.
    + apply List.Forall_forall. intros cell Hcell.
      apply list_elem_of_In, list_elem_of_lookup in Hcell as [p Hp].
      assert (p < 3 * size jo) as Hlt.
      { rewrite <- Hlen. eapply lookup_lt_Some, Hp. }
      assert (In (p / 3) (map g keys)) as Hin.
      { apply list_elem_of_In. rewrite Hslots. apply list_elem_of_In, in_seq.
        split; [lia|]. rewrite Nat.add_0_l.
        apply Nat.Div0.div_lt_upper_bound. lia. }
      apply in_map_iff in Hin as (key & Hg & Hin).
      apply Hdom in Hin as [[slot order] Hjo].
      unfold g in Hg. rewrite Hjo in Hg. simpl in Hg. subst slot.
      pose proof (Hthree key _ Hjo) as Hlen3. simpl in Hlen3.
      assert (exists c, String.get (p mod 3) order = Some c) as [c Hc].
      { pose proof (Nat.mod_upper_bound p 3 ltac:(lia)) as Hr.
        destruct (String.get (p mod 3) order) as [c|] eqn:Hget; [eauto|].
        exfalso. clear -Hget Hr Hlen3.
        destruct order as [|a [|a' [|a'' order]]]; simpl in Hlen3;
          try discriminate.
        destruct (p mod 3) as [|[|[|r]]]; simpl in Hget;
          try discriminate; lia. }
      assert (p = 3 * (p / 3) + p mod 3) as Hdiv by apply Nat.div_mod_eq.
      assert (Hdom' : In key keys) by (apply Hdom; rewrite Hjo; eauto).
      pose proof (Hhere key (p / 3) order (p mod 3) c Hdom' Hjo Hc) as Hlab.
      rewrite <- Hdiv, Hp in Hlab. injection Hlab as ->. discriminate.
Qed.

Lemma get_all_channels_labels_every_slot_witness :
  exists all_channels,
    get_all_channels (map fst (map_to_list rom_joint_order)) rom_joint_order
    = Ok all_channels
    /\ length all_channels = 3 * size rom_joint_order
    /\ (forall key slot order r c,
          rom_joint_order !! key = Some (slot, order) ->
          String.get r order = Some c ->
          all_channels !! (3 * slot + r)
          = Some (Label (key +:+ "_" +:+ String c EmptyString)))
    /\ Forall (fun cell => cell <> Unset) all_channels.
Proof.
  apply (get_all_channels_labels_every_slot rom_joint_order
           (map fst (map_to_list rom_joint_order))).
  - reflexivity.
  - exact rom_joint_order_enumerated.
  - apply (bool_decide_unpack _). vm_compute. exact I.
Defined.

(** ** The bone lengths *)

Lemma measure_nodes_app lmap (l1 l2 : list Node) (lens : list R) :
  measure_nodes lmap (l1 ++ l2) lens
  = (measure_nodes lmap l1 lens ≫= measure_nodes lmap l2).
Proof.
  revert lens. induction l1 as [|n l1 IH]; intros lens; simpl.
  - reflexivity.
  - destruct (measure_node lmap n lens) as [lens'|e]; simpl;
      [apply IH|reflexivity].
Qed.

(** The recursion visits every node of the tree, parents first. *)
Lemma populate_lengths_as_subnodes lmap (node : Node) :
  forall lens,
    populate_lengths lmap node lens = measure_nodes lmap (subnodes node) lens.
Proof.
  induction node as [nm chs off cs es len ou IH] using Node_tree_ind.
  intros lens.
  change (subnodes (mkNode nm chs off cs es len ou))
    with (mkNode nm chs off cs es len ou :: flat_map subnodes cs).
  simpl. unfold measure_node at 1. simpl.
  destruct (match lmap !! lower nm with
            | Some k => _
            | None => _
            end) as [lens1|e]; simpl; [|reflexivity].
  clear lens. revert lens1.
  induction IH as [|c cs' Hc _ IHcs]; intros lens1; simpl; [reflexivity|].
  rewrite measure_nodes_app, Hc.
  destruct (measure_nodes lmap (subnodes c) lens1) as [lens2|e]; simpl;
    [apply IHcs|reflexivity].
Qed.

Lemma measure_nodes_ok lmap (l : list Node) :
  forall lens,
    Forall (fun n => forall k, lmap !! lower (name n) = Some k ->
                               k < length lens) l ->
    exists lens',
      measure_nodes lmap l lens = Ok lens'
      /\ length lens' = length lens
      /\ forall k,
           lens' !! k
           = match last (sent_to lmap k l) with
             | Some n =>
                 if decide (k < length lens)
                 then Some (euclidean_norm (offset n)) else None
             | None => lens !! k
             end.
Proof.
  induction l as [|n l IH]; intros lens Hall.
  - exists lens. split; [reflexivity|]. split; reflexivity.
  - apply List.Forall_cons_iff in Hall as [Hn Hall].
    simpl. unfold measure_node.
    destruct (lmap !! lower (name n)) as [k0|] eqn:Hk0.
    + specialize (Hn k0 eq_refl).
      destruct (Nat.ltb_spec k0 (length lens)); [|lia]. simpl.
      destruct (IH (<[k0 := euclidean_norm (offset n)]> lens))
        as (lens' & Hrun & Hlen & Hval).
      { rewrite length_insert. exact Hall. }
      exists lens'. split; [exact Hrun|].
      rewrite length_insert in Hlen. split; [exact Hlen|].
      intros k. rewrite Hval, length_insert. unfold sent_to.
      destruct (decide (k0 = k)) as [->|Hne].
      * rewrite filter_cons_True by exact Hk0.
        rewrite last_cons.
        destruct (last (filter _ l)); [reflexivity|].
        rewrite list_lookup_insert_eq by lia.
        destruct (decide (k < length lens)); [reflexivity|lia].
      * rewrite filter_cons_False by congruence.
        destruct (last (filter _ l)); [reflexivity|].
        apply list_lookup_insert_ne. exact Hne.
    + simpl. destruct (IH lens Hall) as (lens' & Hrun & Hlen & Hval).
      exists lens'. split; [exact Hrun|]. split; [exact Hlen|].
      intros k. rewrite Hval. unfold sent_to.
      rewrite filter_cons_False by congruence. reflexivity.
Qed.

(** X6: when every place that the map names lies within the array,
    [populate_lengths] returns the array with, at every place, the
    Euclidean norm of the offset of the last node of the tree (parents
    before children, children in their order) whose lowercase name the
    map sends there: of two bones with one label the later one is kept;
    a place that no node is sent to is as it was, and so is the length
    of the array. *)
Theorem populate_lengths_keeps_last_bone
    (lmap : gmap string nat) (root : Node) (lens : list R) :
  Forall (fun n => forall k, lmap !! lower (name n) = Some k ->
                             k < length lens) (subnodes root) ->
  exists lens',
    populate_lengths lmap root lens = Ok lens'
    /\ length lens' = length lens
    /\ forall k, k < length lens ->
         lens' !! k
         = match last (sent_to lmap k (subnodes root)) with
           | Some n => Some (euclidean_norm (offset n))
           | None => lens !! k
           end.
Proof.
  intros Hall. rewrite populate_lengths_as_subnodes.
  destruct (measure_nodes_ok lmap (subnodes root) lens Hall)
    as (lens' & Hrun & Hlen & Hval).
  exists lens'. split; [exact Hrun|]. split; [exact Hlen|].
  intros k Hk. rewrite Hval.
  destruct (last _); [|reflexivity].
  destruct (decide (k < length lens)); [reflexivity|contradiction].
Qed.

Lemma populate_lengths_keeps_last_bone_witness :
  exists lens',
    populate_lengths arms_map uneven_arms [0; 0]%R = Ok lens'
    /\ length lens' = length [0; 0]%R
    /\ forall k, k < length [0; 0]%R ->
         lens' !! k
         = match last (sent_to arms_map k (subnodes uneven_arms)) with
           | Some n => Some (euclidean_norm (offset n))
           | None => [0; 0]%R !! k
           end.
Proof.
  apply (populate_lengths_keeps_last_bone arms_map uneven_arms [0; 0]%R).
  repeat (apply List.Forall_cons;
          [intros k Hk; vm_compute in Hk; injection Hk as <-; simpl; lia|]).
  apply List.Forall_nil.
Defined.

(** X7: a place of the map that the array does not have makes
    [populate_lengths] raise IndexError at the first node that is sent
    there, when the nodes before it were stored. *)
Theorem populate_lengths_place_out_of_range
    (lmap : gmap string nat) (root : Node) (lens : list R)
    (before after : list Node) (n : Node) (k : nat) :
  subnodes root = before ++ n :: after ->
  Forall (fun m => forall j, lmap !! lower (name m) = Some j ->
                             j < length lens) before ->
  lmap !! lower (name n) = Some k ->
  length lens <= k ->
  populate_lengths lmap root lens = Err IndexError.
Proof.
  intros Hsub Hbefore Hk Hout.
  rewrite populate_lengths_as_subnodes, Hsub, measure_nodes_app.
  destruct (measure_nodes_ok lmap before lens Hbefore)
    as (lens' & Hrun & Hlen & _).
  rewrite Hrun. simpl. unfold measure_node. rewrite Hk.
  destruct (Nat.ltb_spec k (length lens')); [lia|reflexivity].
Qed.

Lemma populate_lengths_place_out_of_range_witness :
  populate_lengths arms_map uneven_arms [0]%R = Err IndexError.
Proof.
  apply (populate_lengths_place_out_of_range arms_map uneven_arms [0]%R
           [] (children uneven_arms) uneven_arms 1).
  - reflexivity.
  - apply List.Forall_nil.
  - reflexivity.
  - simpl. lia.
Defined.

(** ** More on the skeleton metrics *)

Lemma subnodes_unfold (n : Node) :
  subnodes n = n :: flat_map subnodes (children n).
Proof. destruct n; reflexivity. Qed.

Lemma process_node_children nm node :
  children (process_node nm node)
  = map (fun c => process_node (child_name nm c) c) (children node).
Proof. destruct node; reflexivity. Qed.

Lemma process_node_same_joint nm (c : Node) :
  same_joint c (process_node (child_name nm c) c).
Proof.
  destruct c as [cn chs off cs es len ou]. unfold same_joint. simpl.
  repeat split. intros ->. reflexivity.
Qed.

Lemma process_node_same_joints (node : Node) :
  forall nm,
    Forall2 same_joint (flat_map subnodes (children node))
            (flat_map subnodes (children (process_node nm node))).
Proof.
  induction node as [nm0 chs off cs es len ou IH] using Node_tree_ind.
  intros nm. simpl.
  induction IH as [|c cs' Hc _ IHcs]; simpl; [constructor|].
  apply Forall2_app; [|exact IHcs].
  destruct c as [cn cchs coff ccs ces clen cou].
  change (subnodes (mkNode cn cchs coff ccs ces clen cou))
    with (mkNode cn cchs coff ccs ces clen cou :: flat_map subnodes ccs).
  set (c := mkNode cn cchs coff ccs ces clen cou) in *.
  set (c' := process_node (child_name nm c) c).
  change (subnodes c') with (c' :: flat_map subnodes (children c')).
  constructor; [apply process_node_same_joint|].
  apply (Hc (child_name nm c)).
Qed.

Lemma process_node_renames (node : Node) :
  forall nm,
    Forall2 (fun p p' =>
               Forall2 (fun c c' =>
                          is_end_site c' = is_end_site c
                          /\ name c' = child_name (name p') c)
                       (children p) (children p'))
            (subnodes node) (subnodes (process_node nm node)).
Proof.
  induction node as [nm0 chs off cs es len ou IH] using Node_tree_ind.
  intros nm.
  set (node := mkNode nm0 chs off cs es len ou).
  change (subnodes node) with (node :: flat_map subnodes cs).
  change (subnodes (process_node nm node))
    with (process_node nm node
          :: flat_map subnodes (children (process_node nm node))).
  rewrite process_node_children. simpl children at 2.
  constructor.
  - rewrite process_node_children, process_node_name. simpl.
    clear IH. induction cs as [|c cs IHcs]; simpl; constructor;
      [|exact IHcs].
    rewrite process_node_is_end_site, process_node_name. split; reflexivity.
  - induction IH as [|c cs' Hc _ IHcs]; simpl; [constructor|].
    apply Forall2_app; [apply Hc|exact IHcs].
Qed.

(** X8: [process_skeleton] keeps the shape of the tree: node by node the
    flag, the channels and the offset are the ones of the file, and so
    is the name of every node that is not an end site. A child that is
    an end site called 'End Site' is called by the name of its parent in
    the processed tree followed by 'EndSite', every other child keeps
    its name; so no child that is an end site is called 'End Site'
    afterwards. *)
Theorem process_skeleton_names (root : Node) :
  Forall2 same_joint (subnodes root) (subnodes (process_skeleton root))
  /\ Forall2 (fun p p' =>
                Forall2 (fun c c' =>
                           name c' = if is_end_site c
                                        && String.eqb (name c) "End Site"
                                     then name p' +:+ "EndSite"
                                     else name c)
                        (children p) (children p'))
             (subnodes root) (subnodes (process_skeleton root))
  /\ Forall (fun p' =>
               Forall (fun c' => is_end_site c' = true ->
                                 name c' <> "End Site") (children p'))
            (subnodes (process_skeleton root)).
Proof.
  pose proof (process_node_renames root (name root)) as Hren.
  fold (process_skeleton root) in Hren.
  split; [|split].
  - unfold process_skeleton.
    rewrite (subnodes_unfold root),
      (subnodes_unfold (process_node (name root) root)).
    constructor; [|apply process_node_same_joints].
    destruct root; repeat split.
  - eapply Forall2_impl; [exact Hren|].
    intros p p' Hcs. eapply Forall2_impl; [exact Hcs|].
    intros c c' [_ Hname]. exact Hname.
  - eapply Forall2_Forall_r; [exact Hren|].
    apply Forall_true. intros p p' Hcs.
    eapply Forall2_Forall_r; [exact Hcs|].
    apply Forall_true. intros c c' [Hes Hname] Hes'.
    rewrite Hes in Hes'. rewrite Hname. unfold child_name.
    rewrite Hes'. simpl.
    destruct (String.eqb_spec (name c) "End Site") as [_|Hne];
      [apply end_site_suffix_is_not_marker|exact Hne].
Qed.

(** ** More on the frame decomposer *)

Section Binary64Frames.
Import PrimFloat.
Import Binary64.

Lemma list_index_ok (x : string) (l : list string) :
  In x l -> exists i, list_index x l = Ok i /\ l !! i = Some x.
Proof.
  induction l as [|y l IH]; intros Hin; [destruct Hin|]. simpl.
  destruct (String.eqb_spec y x) as [->|Hne].
  - exists 0. split; reflexivity.
  - destruct Hin as [Heq|Hin]; [contradiction|].
    destruct (IH Hin) as (i & Hi & Hl). rewrite Hi. simpl.
    exists (S i). split; [reflexivity|exact Hl].
Qed.

Lemma list_index_missing (x : string) (l : list string) :
  ~ In x l -> list_index x l = Err ValueError.
Proof.
  induction l as [|y l IH]; intros Hnot; simpl; [reflexivity|].
  destruct (String.eqb_spec y x) as [->|Hne].
  - exfalso. apply Hnot. left. reflexivity.
  - rewrite IH; [reflexivity|]. intros Hin. apply Hnot. right. exact Hin.
Qed.

Lemma list_index_lookup (x : string) (l : list string) (i : nat) :
  list_index x l = Ok i -> l !! i = Some x.
Proof.
  revert i. induction l as [|y l IH]; intros i; simpl; [discriminate|].
  destruct (String.eqb_spec y x) as [->|Hne].
  - intros [= <-]. reflexivity.
  - destruct (list_index x l) as [j|e]; simpl; [|discriminate].
    intros [= <-]. simpl. apply IH. reflexivity.
Qed.

(** X9: [on_hierarchy] returns normally exactly when the root declares
    the three position channels under these very labels; when one of
    them is missing it raises the ValueError of [list.index]. *)
Theorem on_hierarchy_needs_position_channels (n_channels : nat) (r : Node) :
  (In "Xposition" (channels r) /\ In "Yposition" (channels r)
   /\ In "Zposition" (channels r) ->
   is_ok (on_hierarchy n_channels r) = true)
  /\ (~ (In "Xposition" (channels r) /\ In "Yposition" (channels r)
         /\ In "Zposition" (channels r)) ->
      on_hierarchy n_channels r = Err ValueError).
Proof.
  unfold on_hierarchy. split.
  - intros (Hx & Hy & Hz).
    destruct (list_index_ok _ _ Hx) as (ix & -> & _).
    destruct (list_index_ok _ _ Hy) as (iy & -> & _).
    destruct (list_index_ok _ _ Hz) as (iz & -> & _).
    reflexivity.
  - intros Hnot.
    destruct (in_dec string_dec "Xposition" (channels r)) as [Hx|Hx];
      [|rewrite (list_index_missing _ _ Hx); reflexivity].
    destruct (list_index_ok _ _ Hx) as (ix & -> & _). simpl.
    destruct (in_dec string_dec "Yposition" (channels r)) as [Hy|Hy];
      [|rewrite (list_index_missing _ _ Hy); reflexivity].
    destruct (list_index_ok _ _ Hy) as (iy & -> & _). simpl.
    destruct (in_dec string_dec "Zposition" (channels r)) as [Hz|Hz];
      [|rewrite (list_index_missing _ _ Hz); reflexivity].
    exfalso. apply Hnot. repeat split; assumption.
Qed.

Lemma take_indices_values (l : list nat) (a : list float) (r : list float) :
  take_indices l a = Ok r ->
  Forall2 (fun i x => a !! i = Some x) l r.
Proof.
  revert r. induction l as [|i l IH]; intros r; simpl.
  - intros [= <-]. constructor.
  - destruct (a !! i) as [x|] eqn:Hx; [|discriminate].
    destruct (take_indices l a) as [xs|e]; simpl; [|discriminate].
    intros [= <-]. constructor; [exact Hx|]. apply IH. reflexivity.
Qed.

Lemma take_slice_three (a : list float) (i : nat) (x y z : float) :
  a !! i = Some x -> a !! (i + 1) = Some y -> a !! (i + 2) = Some z ->
  take_slice i (i + 2 + 1) a = [x; y; z].
Proof.
  intros Hx Hy Hz. unfold take_slice.
  replace (i + 2 + 1 - i) with 3 by lia.
  assert (drop i a !! 0 = Some x) as Hx'
    by (rewrite lookup_drop, Nat.add_0_r; exact Hx).
  assert (drop i a !! 1 = Some y) as Hy' by (rewrite lookup_drop; exact Hy).
  assert (drop i a !! 2 = Some z) as Hz' by (rewrite lookup_drop; exact Hz).
  destruct (drop i a) as [|x' [|y' [|z' rest]]]; simpl in *;
    try discriminate.
  rewrite take_0. congruence.
Qed.

(** X10: the indices of [on_hierarchy] split a frame of the counted
    width: the position index, be it a slice or a list, selects the
    values of Xposition, Yposition and Zposition in this order, and the
    angle indices are the other n - 3 places of the frame in ascending
    order. *)
Theorem on_hierarchy_splits_the_frame
    (n_channels : nat) (r : Node) (pos : pos_index) (ang : list nat)
    (values : list float) :
  on_hierarchy n_channels r = Ok (pos, ang) ->
  length (channels r) <= n_channels ->
  length values = n_channels ->
  exists ch_x ch_y ch_z x y z,
    channels r !! ch_x = Some "Xposition"
    /\ channels r !! ch_y = Some "Yposition"
    /\ channels r !! ch_z = Some "Zposition"
    /\ values !! ch_x = Some x /\ values !! ch_y = Some y
    /\ values !! ch_z = Some z
    /\ take_pos pos values = Ok [x; y; z]
    /\ ang = filter (fun i => i <> ch_x /\ i <> ch_y /\ i <> ch_z)
                    (seq 0 n_channels)
    /\ length ang = n_channels - 3.
Proof.
  intros Hidx Hch Hlen. unfold on_hierarchy in Hidx.
  destruct (list_index "Xposition" _) as [ch_x|] eqn:Hx; [|discriminate].
  destruct (list_index "Yposition" _) as [ch_y|] eqn:Hy; [|discriminate].
  destruct (list_index "Zposition" _) as [ch_z|] eqn:Hz; [|discriminate].
  pose proof (list_index_lt _ _ _ Hx) as Hxlt.
  pose proof (list_index_lt _ _ _ Hy) as Hylt.
  pose proof (list_index_lt _ _ _ Hz) as Hzlt.
  apply list_index_lookup in Hx, Hy, Hz.
  simpl in Hidx. injection Hidx as Hpos Hang.
  destruct (lookup_lt_is_Some_2 values ch_x) as [x Hvx]; [lia|].
  destruct (lookup_lt_is_Some_2 values ch_y) as [y Hvy]; [lia|].
  destruct (lookup_lt_is_Some_2 values ch_z) as [z Hvz]; [lia|].
  exists ch_x, ch_y, ch_z, x, y, z.
  repeat (split; [assumption|]).
  assert (ch_x <> ch_y /\ ch_x <> ch_z /\ ch_y <> ch_z) as (Hxy & Hxz & Hyz).
  { repeat split; intros ->; congruence. }
  assert (ang = filter (fun i => i <> ch_x /\ i <> ch_y /\ i <> ch_z)
                       (seq 0 n_channels)) as Hang'.
  { rewrite <- Hang. apply list_filter_iff. intros i. unfold nat_in. simpl.
    destruct (Nat.eqb_spec i ch_x), (Nat.eqb_spec i ch_y),
      (Nat.eqb_spec i ch_z); simpl; intuition. }
  split; [|split; [exact Hang'|]].
  - rewrite <- Hpos.
    destruct ((ch_y =? ch_x + 1)%nat && (ch_z =? ch_y + 1)%nat) eqn:Hc.
    + apply andb_true_iff in Hc as [H1 H2]. apply Nat.eqb_eq in H1, H2.
      simpl. f_equal.
      replace (ch_z + 1) with (ch_x + 2 + 1) by lia.
      apply take_slice_three; [exact Hvx| |].
      * rewrite <- H1. exact Hvy.
      * replace (ch_x + 2) with ch_z by lia. exact Hvz.
    + simpl. rewrite Hvx, Hvy, Hvz. reflexivity.
  - rewrite Hang'.
    pose proof (filter_app_complement
                  (fun i => i <> ch_x /\ i <> ch_y /\ i <> ch_z)
                  (seq 0 n_channels)) as Hsplit.
    apply Permutation_length in Hsplit.
    rewrite length_app, length_seq in Hsplit.
    assert (filter (fun i => ~ (i <> ch_x /\ i <> ch_y /\ i <> ch_z))
                   (seq 0 n_channels) ≡ₚ [ch_x; ch_y; ch_z]) as Hthree.
    { apply NoDup_Permutation.
      - apply NoDup_filter, NoDup_seq.
      - rewrite !NoDup_cons, !elem_of_cons, !elem_of_nil.
        repeat split; [lia|lia|tauto|apply NoDup_nil_2].
      - intros i. rewrite list_elem_of_filter, elem_of_seq.
        rewrite !elem_of_cons, elem_of_nil. lia. }
    apply Permutation_length in Hthree. simpl in Hthree. lia.
Qed.

Lemma on_hierarchy_splits_the_frame_witness :
  exists ch_x ch_y ch_z x y z,
    channels (root small_reader) !! ch_x = Some "Xposition"
    /\ channels (root small_reader) !! ch_y = Some "Yposition"
    /\ channels (root small_reader) !! ch_z = Some "Zposition"
    /\ [1; 2; 3; 90; 45; 180]%float !! ch_x = Some x
    /\ [1; 2; 3; 90; 45; 180]%float !! ch_y = Some y
    /\ [1; 2; 3; 90; 45; 180]%float !! ch_z = Some z
    /\ take_pos (PosSlice 0 3) [1; 2; 3; 90; 45; 180]%float = Ok [x; y; z]
    /\ [3; 4; 5] = filter (fun i => i <> ch_x /\ i <> ch_y /\ i <> ch_z)
                          (seq 0 6)
    /\ length [3; 4; 5] = 6 - 3.
Proof.
  apply (on_hierarchy_splits_the_frame 6 (root small_reader)
           (PosSlice 0 3) [3; 4; 5] [1; 2; 3; 90; 45; 180]%float).
  - reflexivity.
  - simpl. lia.
  - reflexivity.
Defined.


(** X11: a frame that arrives when every declared frame has been stored
    is not stored: [on_frame] raises IndexError. *)
Theorem on_frame_beyond_declared_count
    (self : NumpyBvhReader) (values : list float) :
  reader_ready self ->
  num_frames self <= _frame_num self ->
  length values = num_channels self ->
  on_frame self values = Err IndexError.
Proof.
  intros Hready Hframe Hlen.
  destruct (take_pos_binary64_ok self values Hready Hlen) as (pos & Hpos & _).
  destruct Hready as [_ _ [Hp _] _ _].
  unfold on_frame. rewrite Hpos. simpl. unfold store_row.
  rewrite (lookup_ge_None_2 (positions self) (_frame_num self)) by lia.
  reflexivity.
Qed.

Lemma on_frame_beyond_declared_count_witness :
  on_frame
    (on_motion (fun _ _ _ => 0%float) (root small_reader) 6
               (PosSlice 0 3, [3; 4; 5]) 0 1%float)
    [1; 2; 3; 90; 45; 180]%float
  = Err IndexError.
Proof.
  apply (on_frame_beyond_declared_count
           (on_motion (fun _ _ _ => 0%float) (root small_reader) 6
                      (PosSlice 0 3, [3; 4; 5]) 0 1%float)
           [1; 2; 3; 90; 45; 180]%float).
  - apply on_motion_binary64_ready; [reflexivity|simpl; lia].
  - simpl. lia.
  - reflexivity.
Defined.

Lemma on_frames_binary64_ok (frames : list (list float)) :
  forall self,
    reader_ready self ->
    _frame_num self + length frames <= num_frames self ->
    Forall (fun values => length values = num_channels self) frames ->
    exists self',
      on_frames self frames = Ok self'
      /\ reader_ready self'
      /\ _frame_num self' = _frame_num self + length frames
      /\ _pos_idx self' = _pos_idx self /\ _ang_idx self' = _ang_idx self
      /\ (forall j values,
            frames !! j = Some values ->
            exists pos deg,
              take_pos (_pos_idx self) values = Ok pos
              /\ take_indices (_ang_idx self) values = Ok deg
              /\ positions self' !! (_frame_num self + j) = Some pos
              /\ angles_deg self' !! (_frame_num self + j) = Some deg
              /\ angles_rad self' !! (_frame_num self + j)
                 = Some (deg_to_rad deg))
      /\ (forall i, i < _frame_num self ->
            positions self' !! i = positions self !! i
            /\ angles_deg self' !! i = angles_deg self !! i
            /\ angles_rad self' !! i = angles_rad self !! i).
Proof.
  induction frames as [|values frames IH]; intros self Hready Hroom Hall.
  - exists self. simpl. split; [reflexivity|]. split; [exact Hready|].
    split; [lia|]. split; [reflexivity|]. split; [reflexivity|].
    split; [intros j values; discriminate|auto].
  - apply List.Forall_cons_iff in Hall as [Hlen Hall]. simpl in Hroom.
    destruct (on_frame_binary64_step self values Hready ltac:(lia) Hlen)
      as (pos & deg & Hpos & Hdeg & Hrun & Hready1).
    set (self1 := mkReader _ _ _ _ _ _ _ _ _ _) in *.
    destruct (IH self1 Hready1) as
      (self' & Hrun' & Hready' & Hnum & Hpi & Hai & Hrows & Hold).
    { subst self1. simpl. lia. }
    { exact Hall. }
    destruct Hready as [_ _ [Hp _] [Hd _] [Hr _]].
    exists self'. simpl. rewrite Hrun. simpl.
    split; [exact Hrun'|]. split; [exact Hready'|].
    split; [rewrite Hnum; subst self1; simpl; lia|].
    split; [exact Hpi|]. split; [exact Hai|]. split.
    + intros j values' Hj. destruct j as [|j]; simpl in Hj.
      * injection Hj as <-. exists pos, deg.
        split; [exact Hpos|]. split; [exact Hdeg|].
        rewrite Nat.add_0_r.
        destruct (Hold (_frame_num self)) as (H1 & H2 & H3).
        { subst self1. simpl. lia. }
        rewrite H1, H2, H3. subst self1. simpl.
        rewrite !list_lookup_insert_eq by lia. auto.
      * destruct (Hrows j values' Hj) as (pos' & deg' & H1 & H2 & H3 & H4 & H5).
        exists pos', deg'. subst self1. simpl in *.
        replace (_frame_num self + S j) with (S (_frame_num self + j)) by lia.
        auto.
    + intros i Hi. destruct (Hold i) as (H1 & H2 & H3).
      { subst self1. simpl. lia. }
      rewrite H1, H2, H3. subst self1. simpl.
      rewrite !list_lookup_insert_ne by lia. auto.
Qed.

(** X12: frames of the counted width that are delivered one after the
    other, no more of them than rows are left, are all stored: row
    [_frame_num + j] of the three buffers holds the positions, the
    angles in degrees and the angles in radians of frame [j], the rows
    of earlier frames are as they were, and the frame index has moved on
    by the number of frames. *)
Theorem on_frames_fill_the_rows_in_order
    (self : NumpyBvhReader) (frames : list (list float)) :
  reader_ready self ->
  _frame_num self + length frames <= num_frames self ->
  Forall (fun values => length values = num_channels self) frames ->
  exists self',
    on_frames self frames = Ok self'
    /\ _frame_num self' = _frame_num self + length frames
    /\ (forall j values,
          frames !! j = Some values ->
          exists pos deg,
            take_pos (_pos_idx self) values = Ok pos
            /\ take_indices (_ang_idx self) values = Ok deg
            /\ positions self' !! (_frame_num self + j) = Some pos
            /\ angles_deg self' !! (_frame_num self + j) = Some deg
            /\ angles_rad self' !! (_frame_num self + j)
               = Some (deg_to_rad deg))
    /\ (forall i, i < _frame_num self ->
          positions self' !! i = positions self !! i
          /\ angles_deg self' !! i = angles_deg self !! i
          /\ angles_rad self' !! i = angles_rad self !! i).
Proof.
  intros Hready Hroom Hall.
  destruct (on_frames_binary64_ok frames self Hready Hroom Hall)
    as (self' & Hrun & _ & Hnum & _ & _ & Hrows & Hold).
  exists self'. auto.
Qed.

Lemma on_frames_fill_the_rows_in_order_witness :
  exists self',
    on_frames small_reader
              [[1; 2; 3; 90; 45; 180]%float; [4; 5; 6; 0; 30; 60]%float] = Ok self'
    /\ _frame_num self' = _frame_num small_reader + 2
    /\ (forall j values,
          [[1; 2; 3; 90; 45; 180]%float; [4; 5; 6; 0; 30; 60]%float] !! j
          = Some values ->
          exists pos deg,
            take_pos (_pos_idx small_reader) values = Ok pos
            /\ take_indices (_ang_idx small_reader) values = Ok deg
            /\ positions self' !! (_frame_num small_reader + j) = Some pos
            /\ angles_deg self' !! (_frame_num small_reader + j) = Some deg
            /\ angles_rad self' !! (_frame_num small_reader + j)
               = Some (deg_to_rad deg))
    /\ (forall i, i < _frame_num small_reader ->
          positions self' !! i = positions small_reader !! i
          /\ angles_deg self' !! i = angles_deg small_reader !! i
          /\ angles_rad self' !! i = angles_rad small_reader !! i).
Proof.
  apply (on_frames_fill_the_rows_in_order small_reader
           [[1; 2; 3; 90; 45; 180]%float; [4; 5; 6; 0; 30; 60]%float]).
  - apply on_motion_binary64_ready; [reflexivity|simpl; lia].
  - simpl. lia.
  - repeat (apply List.Forall_cons; [reflexivity|]). apply List.Forall_nil.
Defined.

End Binary64Frames.

(** ** The sorted angle channels *)

Lemma channel_count_app (l1 l2 : list Node) :
  channel_count (l1 ++ l2) = channel_count l1 + channel_count l2.
Proof.
  unfold channel_count. rewrite map_app, list_sum_app. reflexivity.
Qed.

Lemma angle_places_app (l1 l2 : list Node) :
  forall off,
    angle_places (l1 ++ l2) off
    = angle_places l1 off ++ angle_places l2 (off + channel_count l1).
Proof.
  induction l1 as [|n l1 IH]; intros off; simpl.
  - unfold channel_count. simpl. rewrite Nat.add_0_r. reflexivity.
  - rewrite IH. unfold channel_count. simpl.
    rewrite Nat.add_assoc. reflexivity.
Qed.

Lemma angle_places_shift (l : list Node) (d : nat) :
  forall off,
    angle_places l (off + d) = map (fun i => i + d) (angle_places l off).
Proof.
  induction l as [|n l IH]; intros off; simpl; [reflexivity|].
  replace (off + d + length (channels n))
    with (off + length (channels n) + d) by lia.
  rewrite IH, !Nat.add_assoc. reflexivity.
Qed.

Lemma angle_joints_unfold (n : Node) :
  angle_joints n
  = n :: flat_map (fun c => if is_end_site c then [] else angle_joints c)
                  (children n).
Proof. destruct n; reflexivity. Qed.

(** The recursion collects the rotation channels of the nodes it reaches
    in the order in which it reaches them. *)
Lemma sorted_angle_channels_flat (node : Node) :
  forall off,
    Forall has_rotations (angle_joints node) ->
    sorted_angle_channels node off
    = Ok (angle_places (angle_joints node) off,
          off + channel_count (angle_joints node)).
Proof.
  induction node as [nm chs off0 cs es len ou IH] using Node_tree_ind.
  intros off Hall. rewrite angle_joints_unfold in Hall |- *.
  simpl children in *.
  apply List.Forall_cons_iff in Hall as [(Hx & Hy & Hz) Hall].
  simpl in Hx, Hy, Hz.
  destruct (list_index_ok _ _ Hx) as (ix & Hix & _).
  destruct (list_index_ok _ _ Hy) as (iy & Hiy & _).
  destruct (list_index_ok _ _ Hz) as (iz & Hiz & _).
  simpl. unfold channel_place. simpl. rewrite Hix, Hiy, Hiz. simpl.
  set (below := flat_map _ cs) in *.
  assert (forall acc o,
            angles_of_children sorted_angle_channels cs acc o
            = Ok (acc ++ angle_places below o, o + channel_count below))
    as Hloop.
  { subst below. clear Hix Hiy Hiz Hx Hy Hz.
    induction IH as [|c cs' Hc _ IHcs]; intros acc o; simpl.
    - unfold channel_count. simpl. rewrite app_nil_r, Nat.add_0_r.
      reflexivity.
    - simpl in Hall. apply List.Forall_app in Hall as [Hc' Hall].
      destruct (is_end_site c).
      + simpl. apply IHcs, Hall.
      + rewrite (Hc o Hc'). simpl. rewrite (IHcs Hall).
        rewrite angle_places_app, channel_count_app, <- app_assoc.
        rewrite Nat.add_assoc. reflexivity. }
  rewrite Hloop. unfold channel_count at 2. simpl.
  fold (channel_count below). rewrite Nat.add_assoc. reflexivity.
Qed.

Lemma list_index_distinct (x y : string) (l : list string) (i j : nat) :
  x <> y -> list_index x l = Ok i -> list_index y l = Ok j -> i <> j.
Proof.
  intros Hne Hi Hj ->. apply list_index_lookup in Hi, Hj. congruence.
Qed.

Lemma angle_places_bounds (l : list Node) :
  forall off,
    Forall has_rotations l ->
    Forall (fun i => off <= i < off + channel_count l) (angle_places l off)
    /\ NoDup (angle_places l off)
    /\ length (angle_places l off) = 3 * length l.
Proof.
  induction l as [|n l IH]; intros off Hall.
  - simpl. split; [constructor|]. split; [constructor|reflexivity].
  - apply List.Forall_cons_iff in Hall as [(Hx & Hy & Hz) Hall].
    destruct (IH (off + length (channels n)) Hall) as (Hb & Hnd & Hlen).
    destruct (list_index_ok _ _ Hx) as (ix & Hix & _).
    destruct (list_index_ok _ _ Hy) as (iy & Hiy & _).
    destruct (list_index_ok _ _ Hz) as (iz & Hiz & _).
    pose proof (list_index_lt _ _ _ Hix).
    pose proof (list_index_lt _ _ _ Hiy).
    pose proof (list_index_lt _ _ _ Hiz).
    assert (ix <> iy)
      by (eapply list_index_distinct; [|exact Hix|exact Hiy]; discriminate).
    assert (ix <> iz)
      by (eapply list_index_distinct; [|exact Hix|exact Hiz]; discriminate).
    assert (iy <> iz)
      by (eapply list_index_distinct; [|exact Hiy|exact Hiz]; discriminate).
    simpl. unfold channel_place. rewrite Hix, Hiy, Hiz.
    unfold channel_count in *. simpl.
    rewrite List.Forall_forall in Hb.
    assert (forall i, i ∈ angle_places l (off + length (channels n)) ->
                      off + length (channels n) <= i) as Hlow.
    { intros i Hi. apply list_elem_of_In, Hb in Hi. lia. }
    split; [|split].
    + repeat (apply List.Forall_cons; [lia|]).
      apply List.Forall_forall. intros i Hi. apply Hb in Hi. lia.
    + rewrite !NoDup_cons, !elem_of_cons.
      repeat split; try exact Hnd;
        intros Hin;
        repeat (destruct Hin as [Hin|Hin]; [lia|]);
        apply Hlow in Hin; lia.
    + rewrite Hlen. lia.
Qed.

(** X13: when every node that it reaches declares the three rotation
    channels, [sorted_angle_channels] returns, for these nodes in the
    order of the traversal, the places of Xrotation, Yrotation and
    Zrotation in this order whatever order the node declares them in,
    counted from the cell plus the channels of the nodes before it:
    three distinct places for each node, all of them from the cell up to
    where the cell is left, which is the cell plus the number of
    channels of the nodes reached. *)
Theorem sorted_angle_channels_places (node : Node) (ch_offset : nat) :
  Forall has_rotations (angle_joints node) ->
  sorted_angle_channels node ch_offset
  = Ok (angle_places (angle_joints node) ch_offset,
        ch_offset + channel_count (angle_joints node))
  /\ length (angle_places (angle_joints node) ch_offset)
     = 3 * length (angle_joints node)
  /\ NoDup (angle_places (angle_joints node) ch_offset)
  /\ Forall (fun i => ch_offset <= i
                      < ch_offset + channel_count (angle_joints node))
            (angle_places (angle_joints node) ch_offset).
Proof.
  intros Hall.
  destruct (angle_places_bounds (angle_joints node) ch_offset Hall)
    as (Hb & Hnd & Hlen).
  split; [apply sorted_angle_channels_flat, Hall|].
  split; [exact Hlen|]. split; [exact Hnd|exact Hb].
Qed.

(** X14: a node that lacks one of the three rotation channels, as the
    end site or root without rotations that the method is called on,
    makes [sorted_angle_channels] raise ValueError. *)
Theorem sorted_angle_channels_needs_rotations (node : Node) (ch_offset : nat) :
  ~ has_rotations node ->
  sorted_angle_channels node ch_offset = Err ValueError.
Proof.
  intros Hnot. destruct node as [nm chs off cs es len ou].
  unfold has_rotations in Hnot. simpl in *.
  destruct (in_dec string_dec "Xrotation" chs) as [Hx|Hx];
    [|rewrite (list_index_missing _ _ Hx); reflexivity].
  destruct (list_index_ok _ _ Hx) as (ix & -> & _). simpl.
  destruct (in_dec string_dec "Yrotation" chs) as [Hy|Hy];
    [|rewrite (list_index_missing _ _ Hy); reflexivity].
  destruct (list_index_ok _ _ Hy) as (iy & -> & _). simpl.
  destruct (in_dec string_dec "Zrotation" chs) as [Hz|Hz];
    [|rewrite (list_index_missing _ _ Hz); reflexivity].
  exfalso. apply Hnot. repeat split; assumption.
Qed.

(** X15: the cell of [sorted_angle_channels] is a default argument that
    the method moves on: of two calls that leave it to its default, the
    second returns every place of the first increased by the number of
    channels that the first call counted. *)
Theorem sorted_angle_channels_shared_cell (node : Node) :
  Forall has_rotations (angle_joints node) ->
  sorted_angle_channels_twice node
  = Ok (angle_places (angle_joints node) 0,
        map (fun i => i + channel_count (angle_joints node))
            (angle_places (angle_joints node) 0)).
Proof.
  intros Hall. unfold sorted_angle_channels_twice.
  rewrite (sorted_angle_channels_flat node 0 Hall). simpl.
  rewrite (sorted_angle_channels_flat node _ Hall). simpl.
  rewrite <- angle_places_shift. reflexivity.
Qed.

Lemma uneven_arms_have_rotations :
  Forall has_rotations (angle_joints uneven_arms).
Proof.
  repeat (apply List.Forall_cons;
          [unfold has_rotations; simpl; intuition|]).
  apply List.Forall_nil.
Qed.

Lemma sorted_angle_channels_places_witness :
  sorted_angle_channels uneven_arms 3
  = Ok (angle_places (angle_joints uneven_arms) 3,
        3 + channel_count (angle_joints uneven_arms))
  /\ length (angle_places (angle_joints uneven_arms) 3)
     = 3 * length (angle_joints uneven_arms)
  /\ NoDup (angle_places (angle_joints uneven_arms) 3)
  /\ Forall (fun i => 3 <= i < 3 + channel_count (angle_joints uneven_arms))
            (angle_places (angle_joints uneven_arms) 3).
Proof.
  apply (sorted_angle_channels_places uneven_arms 3).
  exact uneven_arms_have_rotations.
Defined.

Lemma sorted_angle_channels_needs_rotations_witness :
  sorted_angle_channels (end_site (0, 1, 0)%R) 0 = Err ValueError.
Proof.
  apply (sorted_angle_channels_needs_rotations (end_site (0, 1, 0)%R) 0).
  intros (H & _). exact H.
Defined.

Lemma sorted_angle_channels_shared_cell_witness :
  sorted_angle_channels_twice uneven_arms
  = Ok (angle_places (angle_joints uneven_arms) 0,
        map (fun i => i + channel_count (angle_joints uneven_arms))
            (angle_places (angle_joints uneven_arms) 0)).
Proof.
  apply (sorted_angle_channels_shared_cell uneven_arms).
  exact uneven_arms_have_rotations.
Defined.

(** ** The rotation matrices *)

(** Equality of tuples, component by component. *)
Ltac tuple_eq :=
  repeat match goal with
         | |- (_, _) = (_, _) => apply f_equal2
         end.

(** X16: the three elementary rotations are orthogonal matrices for
    every angle: the transpose is the inverse, on both sides. *)
Theorem elementary_rotations_orthogonal (ang : R) :
  (mat3_dot (mat3_transpose (rot_x ang)) (rot_x ang) = eye3
   /\ mat3_dot (rot_x ang) (mat3_transpose (rot_x ang)) = eye3)
  /\ (mat3_dot (mat3_transpose (rot_y ang)) (rot_y ang) = eye3
      /\ mat3_dot (rot_y ang) (mat3_transpose (rot_y ang)) = eye3)
  /\ (mat3_dot (mat3_transpose (rot_z ang)) (rot_z ang) = eye3
      /\ mat3_dot (rot_z ang) (mat3_transpose (rot_z ang)) = eye3).
Proof.
  pose proof (sin2_cos2 ang) as H. unfold Rsqr in H.
  unfold rot_x, rot_y, rot_z, mat3_dot, mat3_transpose, vec3_dot, eye3.
  repeat split; tuple_eq; nra.
Qed.

(** X17: a rotation by the angle zero is the identity, and two rotations
    about one axis compose to the rotation by the sum of the angles. *)
Theorem elementary_rotations_compose (a b : R) :
  (rot_x 0 = eye3 /\ rot_y 0 = eye3 /\ rot_z 0 = eye3)
  /\ mat3_dot (rot_x a) (rot_x b) = rot_x (a + b)
  /\ mat3_dot (rot_y a) (rot_y b) = rot_y (a + b)
  /\ mat3_dot (rot_z a) (rot_z b) = rot_z (a + b).
Proof.
  unfold rot_x, rot_y, rot_z, mat3_dot, mat3_transpose, vec3_dot, eye3.
  rewrite cos_0, sin_0, cos_plus, sin_plus.
  repeat split; tuple_eq; ring.
Qed.

(** ** The bones are rigid *)

Lemma orthogonal_eye3 : orthogonal eye3.
Proof.
  unfold orthogonal, mat3_dot, mat3_transpose, vec3_dot, eye3.
  tuple_eq; ring.
Qed.

Lemma orthogonal_dot (a b : mat3) :
  orthogonal a -> orthogonal b -> orthogonal (mat3_dot a b).
Proof.
  destruct a as [[[[a0 a1] a2] [[a3 a4] a5]] [[a6 a7] a8]].
  destruct b as [[[[b0 b1] b2] [[b3 b4] b5]] [[b6 b7] b8]].
  unfold orthogonal, mat3_dot, mat3_transpose, vec3_dot, eye3.
  intros Ha Hb.
  injection Ha as A0 A1 A2 A3 A4 A5 A6 A7 A8.
  injection Hb as B0 B1 B2 B3 B4 B5 B6 B7 B8.
  tuple_eq; nsatz.
Qed.

Lemma rotation_map_orthogonal (ch : string) (r : R -> mat3) (ang : R) :
  rotation_map ch = Some r -> orthogonal (r ang).
Proof.
  unfold rotation_map. intros H.
  pose proof (sin2_cos2 ang) as Hsc. unfold Rsqr in Hsc.
  destruct (String.eqb ch "Xrotation");
    [|destruct (String.eqb ch "Yrotation");
      [|destruct (String.eqb ch "Zrotation"); [|discriminate]]];
    injection H as <-;
    unfold orthogonal, rot_x, rot_y, rot_z, mat3_dot, mat3_transpose,
      vec3_dot, eye3;
    tuple_eq; nra.
Qed.

Lemma bones_rotation_orthogonal (chs : list string) :
  forall rot a rot' rest,
    orthogonal rot ->
    bones_rotation chs rot a = Ok (rot', rest) ->
    orthogonal rot'.
Proof.
  induction chs as [|ch chs IH]; intros rot a rot' rest Hrot; simpl.
  - intros [= <- _]. exact Hrot.
  - destruct (rotation_map ch) as [r|] eqn:Hr; [|apply IH, Hrot].
    destruct a as [|x a]; [discriminate|].
    apply IH. apply orthogonal_dot; [exact Hrot|].
    eapply rotation_map_orthogonal, Hr.
Qed.

Lemma affine_dot (rp r : mat3) (tp t : vec3) :
  mat4_dot (affine rp tp) (affine r t)
  = affine (mat3_dot rp r) (vec3_add (mat3_vec rp t) tp).
Proof.
  destruct rp as [[[[a0 a1] a2] [[a3 a4] a5]] [[a6 a7] a8]].
  destruct r as [[[[b0 b1] b2] [[b3 b4] b5]] [[b6 b7] b8]].
  destruct tp as [[p0 p1] p2]. destruct t as [[t0 t1] t2].
  unfold affine, mat4_dot, mat4_transpose, mat3_dot, mat3_transpose,
    mat3_vec, vec3_add, vec3_dot, vec4_dot, set_translation, set_rotation,
    eye4.
  tuple_eq; ring.
Qed.

Lemma local_transform_affine (rot : mat3) (off : vec3) :
  set_column3 (set_rotation zeros4 rot) (homogeneous off) = affine rot off.
Proof.
  destruct rot as [[[[b0 b1] b2] [[b3 b4] b5]] [[b6 b7] b8]].
  destruct off as [[t0 t1] t2]. reflexivity.
Qed.

Lemma eye4_affine : eye4 = affine eye3 (0, 0, 0)%R.
Proof. reflexivity. Qed.

Lemma affine_point (rot : mat3) (t v : vec3) :
  dehomogenize (mat4_vec (affine rot t) (homogeneous v))
  = vec3_add (mat3_vec rot v) t
  /\ dehomogenize (mat4_vec (affine rot t) (0, 0, 0, 1)%R) = t.
Proof.
  destruct rot as [[[[b0 b1] b2] [[b3 b4] b5]] [[b6 b7] b8]].
  destruct t as [[t0 t1] t2]. destruct v as [[x y] z].
  unfold affine, mat4_vec, mat3_vec, vec3_add, vec3_dot, vec4_dot,
    dehomogenize, homogeneous, set_translation, set_rotation, eye4.
  split; tuple_eq; field; lra.
Qed.

Lemma orthogonal_keeps_norm (rot : mat3) (t v : vec3) :
  orthogonal rot ->
  euclidean_norm (vec3_sub (vec3_add (mat3_vec rot v) t) t)
  = euclidean_norm v.
Proof.
  destruct rot as [[[[b0 b1] b2] [[b3 b4] b5]] [[b6 b7] b8]].
  destruct t as [[t0 t1] t2]. destruct v as [[x y] z].
  unfold orthogonal, mat3_dot, mat3_transpose, vec3_dot, eye3.
  intros H. injection H as H0 H1 H2 H3 H4 H5 H6 H7 H8.
  unfold euclidean_norm, vec3_sub, vec3_add, mat3_vec, vec3_dot.
  f_equal. nsatz.
Qed.

Lemma get_bones_unfold nm chs off cs es len ou (a : list R) (T : mat4) :
  get_bones (mkNode nm chs off cs es len ou) a T
  = (bones_rotation chs eye3 a ≫= fun ra =>
       let T' := mat4_dot T (set_column3 (set_rotation zeros4 (fst ra))
                                         (homogeneous off)) in
       bones_of_children (fun child angles => get_bones child angles T')
                         (mat4_vec T' (0, 0, 0, 1)%R) T' cs [] (snd ra)).
Proof.
  simpl. destruct (bones_rotation chs eye3 a) as [[rot a1]|e]; reflexivity.
Qed.

Lemma get_bones_rigid (node : Node) :
  forall a rot t bones rest,
    orthogonal rot ->
    get_bones node a (affine rot t) = Ok (bones, rest) ->
    map bone_length bones
    = map (fun n => euclidean_norm (offset n)) (below node).
Proof.
  induction node as [nm chs off cs es len ou IH] using Node_tree_ind.
  intros a rot t bones rest Hrot. unfold below. simpl children.
  rewrite get_bones_unfold.
  destruct (bones_rotation chs eye3 a) as [[rot1 a1]|e] eqn:Hr;
    [|discriminate].
  pose proof (bones_rotation_orthogonal chs _ _ _ _ orthogonal_eye3 Hr)
    as Hrot1.
  rewrite bind_ok. cbv beta zeta. unfold fst, snd.
  rewrite local_transform_affine, affine_dot.
  set (rot2 := mat3_dot rot rot1).
  set (t2 := vec3_add (mat3_vec rot off) t).
  assert (orthogonal rot2) as Hrot2 by (apply orthogonal_dot; assumption).
  assert (forall acc a1 bones rest,
            bones_of_children
              (fun child angles => get_bones child angles (affine rot2 t2))
              (mat4_vec (affine rot2 t2) (0, 0, 0, 1)%R) (affine rot2 t2)
              cs acc a1 = Ok (bones, rest) ->
            map bone_length bones
            = map bone_length acc
              ++ map (fun n => euclidean_norm (offset n))
                     (flat_map subnodes cs)) as Hloop.
  { clear Hr. induction IH as [|c cs' Hc _ IHcs]; intros acc a2 bs rs; simpl.
    - intros [= <- _]. rewrite app_nil_r. reflexivity.
    - destruct (get_bones c a2 (affine rot2 t2)) as [[sub a3]|e] eqn:Hsub;
        simpl; [|discriminate].
      intros Hrun. apply IHcs in Hrun. rewrite Hrun.
      rewrite !map_app, <- !app_assoc. f_equal.
      rewrite (Hc a2 rot2 t2 sub a3 Hrot2 Hsub).
      rewrite (subnodes_unfold c). fold (below c). simpl. f_equal.
      unfold bone_length. simpl.
      destruct (affine_point rot2 t2 (offset c)) as [-> ->].
      apply orthogonal_keeps_norm, Hrot2. }
  intros Hrun. apply Hloop in Hrun. exact Hrun.
Qed.

(** X18: on a list with enough angles, and under a parent transform
    that is a rotation followed by a translation, [get_bones] returns
    one bone for every node below the root, parents before children,
    and the length of the bone that leads to a node is the Euclidean
    norm of the offset of that node, whatever the angles are. *)
Theorem get_bones_keeps_bone_lengths
    (node : Node) (a : list R) (rot : mat3) (t : vec3) :
  orthogonal rot ->
  total_rotations node <= length a ->
  exists bones,
    get_bones node a (affine rot t)
    = Ok (bones, drop (total_rotations node) a)
    /\ map bone_length bones
       = map (fun n => euclidean_norm (offset n)) (below node)
    /\ length bones = length (below node).
Proof.
  intros Hrot Hlen.
  destruct (get_bones_enough node (affine rot t) a Hlen) as (bones & Hrun & _).
  exists bones. split; [exact Hrun|].
  pose proof (get_bones_rigid node a rot t bones _ Hrot Hrun) as Hmap.
  split; [exact Hmap|].
  apply (f_equal (@length R)) in Hmap. rewrite !length_map in Hmap.
  exact Hmap.
Qed.

Lemma get_bones_keeps_bone_lengths_witness :
  exists bones,
    get_bones uneven_arms [0; PI / 2; 0; 1; 2; 3; 4; 5; 6]%R
              (affine eye3 (0, 0, 0)%R)
    = Ok (bones, drop (total_rotations uneven_arms)
                      [0; PI / 2; 0; 1; 2; 3; 4; 5; 6]%R)
    /\ map bone_length bones
       = map (fun n => euclidean_norm (offset n)) (below uneven_arms)
    /\ length bones = length (below uneven_arms).
Proof.
  apply (get_bones_keeps_bone_lengths uneven_arms
           [0; PI / 2; 0; 1; 2; 3; 4; 5; 6]%R eye3 (0, 0, 0)%R).
  - exact orthogonal_eye3.
  - simpl. lia.
Defined.

(** ** The two functions called get_bones *)

Lemma bones_rotation_rest (chs : list string) :
  forall rot a rot' rest,
    bones_rotation chs rot a = Ok (rot', rest) ->
    rest = drop (rotation_count chs) a.
Proof.
  induction chs as [|ch chs IH]; intros rot a rot' rest; simpl.
  - intros [= _ <-]. reflexivity.
  - destruct (rotation_map ch) as [r|]; [|apply IH].
    destruct a as [|x a]; [discriminate|]. apply IH.
Qed.

Lemma get_bones_rest (node : Node) (a : list R) (T : mat4)
    (bones : list bone) (rest : list R) :
  get_bones node a T = Ok (bones, rest) ->
  rest = drop (total_rotations node) a.
Proof.
  intros Hrun.
  destruct (Nat.lt_ge_cases (length a) (total_rotations node)) as [Hlt|Hge].
  - rewrite (get_bones_short node T a Hlt) in Hrun. discriminate.
  - destruct (get_bones_enough node T a Hge) as (b & Hb & _). congruence.
Qed.

Lemma bones_rotation_at_drop (chs : list string) (angles : list R) :
  forall rot i,
    TheanoBones.bones_rotation_at chs rot angles i
    = match bones_rotation chs rot (drop i angles) with
      | Ok (r, _) => Ok (r, i + rotation_count chs)
      | Err e => Err e
      end.
Proof.
  induction chs as [|ch chs IH]; intros rot i; simpl.
  - rewrite Nat.add_0_r. reflexivity.
  - destruct (rotation_map ch) as [r|]; [|apply IH].
    destruct (angles !! i) as [x|] eqn:Hx.
    + rewrite (drop_S _ _ _ Hx). rewrite IH.
      replace (S i + rotation_count chs) with (i + S (rotation_count chs))
        by lia.
      reflexivity.
    + rewrite drop_ge by (apply lookup_ge_None, Hx). reflexivity.
Qed.

Lemma mat4_vec_origin (T : mat4) :
  mat4_vec T (0, 0, 0, 1)%R = column3 T.
Proof.
  destruct T as [[[[[[a0 a1] a2] a3] [[[b0 b1] b2] b3]]
                   [[[c0 c1] c2] c3]] [[[d0 d1] d2] d3]].
  unfold mat4_vec, vec4_dot, column3. tuple_eq; ring.
Qed.

Lemma local_transform_corner (rot : mat3) (off : vec3) :
  TheanoBones.set_corner (set_translation (set_rotation zeros4 rot) off) 1
  = set_column3 (set_rotation zeros4 rot) (homogeneous off).
Proof.
  destruct rot as [[[[b0 b1] b2] [[b3 b4] b5]] [[b6 b7] b8]].
  destruct off as [[t0 t1] t2]. reflexivity.
Qed.

Lemma theano_get_bones_unfold nm chs off cs es len ou (a : list R)
    (i : nat) (T : mat4) :
  TheanoBones.get_bones (mkNode nm chs off cs es len ou) a i T
  = (TheanoBones.bones_rotation_at chs eye3 a i ≫= fun ri =>
       let T' := mat4_dot T (TheanoBones.set_corner
                               (set_translation
                                  (set_rotation zeros4 (fst ri)) off) 1) in
       TheanoBones.bones_of_children_at
         (fun child j => TheanoBones.get_bones child a j T')
         (column3 T') T' cs [] (snd ri)).
Proof.
  simpl. destruct (TheanoBones.bones_rotation_at chs eye3 a i)
    as [[rot i1]|e]; reflexivity.
Qed.

Lemma theano_get_bones_drop (angles : list R) (node : Node) :
  forall i T,
    TheanoBones.get_bones node angles i T
    = match get_bones node (drop i angles) T with
      | Ok (bones, _) => Ok (bones, i + total_rotations node)
      | Err e => Err e
      end.
Proof.
  induction node as [nm chs off cs es len ou IH] using Node_tree_ind.
  intros i T. rewrite theano_get_bones_unfold, get_bones_unfold.
  rewrite bones_rotation_at_drop.
  destruct (bones_rotation chs eye3 (drop i angles)) as [[rot a1]|e] eqn:Hr;
    [|reflexivity].
  apply bones_rotation_rest in Hr. rewrite drop_drop in Hr. subst a1.
  rewrite !bind_ok. cbv beta zeta. unfold fst, snd.
  rewrite local_transform_corner, mat4_vec_origin.
  set (T' := mat4_dot T _). simpl total_rotations.
  rewrite Nat.add_assoc.
  generalize (@nil bone) as acc.
  generalize (i + rotation_count chs) as j. clear i.
  induction IH as [|c cs' Hc _ IHcs]; intros j acc; simpl.
  - rewrite Nat.add_0_r. reflexivity.
  - rewrite Hc.
    destruct (get_bones c (drop j angles) T') as [[sub a2]|e] eqn:Hsub;
      [|reflexivity].
    apply get_bones_rest in Hsub. rewrite drop_drop in Hsub. subst a2.
    simpl. rewrite IHcs.
    destruct (bones_of_children _ _ _ cs' _ _) as [[bones rest]|e];
      [|reflexivity].
    f_equal. f_equal. lia.
Qed.

(** X19: the [get_bones] of theano_renderer.py, which reads the angles at
    its cell, and the [get_bones] of numpy_renderer.py, which pops them
    off the list, agree: started at cell 0 and under the same parent
    transform, the first returns the bones that the second returns and
    leaves the cell at the number of rotation channels of the tree, and
    it raises what the second raises. *)
Theorem theano_get_bones_agrees_with_numpy
    (node : Node) (angles : list R) (T : mat4) :
  TheanoBones.get_bones node angles 0 T
  = match get_bones node angles T with
    | Ok (bones, _) => Ok (bones, total_rotations node)
    | Err e => Err e
    end.
Proof. apply (theano_get_bones_drop angles node 0 T). Qed.

(** X20: the cell of the [get_bones] of theano_renderer.py is a default
    argument that the function moves on, so that a second call which
    leaves it to its default reads the angles after the ones of the
    first call: it returns what the [get_bones] of numpy_renderer.py
    returns on the rest of the list. *)
Theorem theano_get_bones_shared_cell
    (node : Node) (angles : list R) (T : mat4) (bones : list bone) (i : nat) :
  TheanoBones.get_bones node angles 0 T = Ok (bones, i) ->
  i = total_rotations node
  /\ TheanoBones.get_bones node angles i T
     = match get_bones node (drop (total_rotations node) angles) T with
       | Ok (bones', _) => Ok (bones', 2 * total_rotations node)
       | Err e => Err e
       end.
Proof.
  intros Hrun. rewrite theano_get_bones_drop in Hrun.
  destruct (get_bones node (drop 0 angles) T) as [[b r]|e]; [|discriminate].
  injection Hrun as _ <-. split; [reflexivity|].
  rewrite theano_get_bones_drop. simpl.
  destruct (get_bones node _ T) as [[b' r']|e]; [|reflexivity].
  f_equal. f_equal. lia.
Qed.

Lemma theano_get_bones_shared_cell_witness :
  1 = total_rotations minimal_skeleton
  /\ TheanoBones.get_bones minimal_skeleton [PI / 2; 0]%R 1 eye4
     = match get_bones minimal_skeleton
               (drop (total_rotations minimal_skeleton) [PI / 2; 0]%R) eye4
       with
       | Ok (bones', _) => Ok (bones', 2 * total_rotations minimal_skeleton)
       | Err e => Err e
       end.
Proof.
  eapply (theano_get_bones_shared_cell minimal_skeleton [PI / 2; 0]%R eye4).
  reflexivity.
Defined.

(** ** Joint positions and bones *)

Lemma joint_rotation_plain (nm : string) (chs : list string)
    (angles : list R) :
  Forall (fun ch => ch <> EmptyString) chs ->
  forall rot i,
    joint_rotation None nm chs angles rot i
    = TheanoBones.bones_rotation_at chs rot angles i.
Proof.
  induction 1 as [|ch chs Hch _ IH]; intros rot i; simpl; [reflexivity|].
  destruct ch as [|c ch]; [contradiction|]. simpl.
  destruct (rotation_map (String c ch)) as [r|]; [|apply IH].
  destruct (angles !! i); [apply IH|reflexivity].
Qed.

Lemma column3_dot_affine (T : mat4) (rot : mat3) (off : vec3) :
  column3 (mat4_dot T (affine rot off)) = mat4_vec T (homogeneous off).
Proof.
  destruct T as [[[[[[a0 a1] a2] a3] [[[b0 b1] b2] b3]]
                   [[[c0 c1] c2] c3]] [[[d0 d1] d2] d3]].
  destruct rot as [[[[r0 r1] r2] [[r3 r4] r5]] [[r6 r7] r8]].
  destruct off as [[t0 t1] t2].
  unfold column3, mat4_dot, mat4_transpose, mat4_vec, vec4_dot, affine,
    set_translation, set_rotation, eye4, homogeneous.
  tuple_eq; ring.
Qed.

Lemma local_transform_corner_affine (rot : mat3) (off : vec3) :
  TheanoBones.set_corner (set_translation (set_rotation zeros4 rot) off) 1
  = affine rot off.
Proof.
  destruct rot as [[[[b0 b1] b2] [[b3 b4] b5]] [[b6 b7] b8]].
  destruct off as [[t0 t1] t2]. reflexivity.
Qed.

Lemma joint_positions_plain_unfold nm chs off cs es len ou
    (angles : list R) (i : nat) (T : mat4) :
  joint_positions_from plain_options (mkNode nm chs off cs es len ou)
                       angles i T
  = (joint_rotation None nm chs angles eye3 i ≫= fun ri =>
       let T' := mat4_dot T (affine (fst ri) off) in
       joints_of_children
         (fun child j => joint_positions_from plain_options child angles j T')
         cs [column3 T'] (snd ri)).
Proof.
  simpl. destruct (joint_rotation None nm chs angles eye3 i)
    as [[rot i1]|e]; reflexivity.
Qed.

Lemma labels_not_empty_child nm chs off cs es len ou (c : Node) :
  labels_not_empty (mkNode nm chs off cs es len ou) ->
  In c cs -> labels_not_empty c.
Proof.
  unfold labels_not_empty. rewrite !List.Forall_forall.
  intros H Hc n Hn. apply H. simpl. right.
  apply in_flat_map. exists c. split; assumption.
Qed.

Lemma joint_positions_along_bones (angles : list R) (node : Node) :
  forall i T,
    labels_not_empty node ->
    joints_as_points <$> joint_positions_from plain_options node angles i T
    = end_points_after
        (dehomogenize (mat4_vec T (homogeneous (offset node))))
      <$> TheanoBones.get_bones node angles i T.
Proof.
  induction node as [nm chs off cs es len ou IH] using Node_tree_ind.
  intros i T Hlabels.
  rewrite joint_positions_plain_unfold, theano_get_bones_unfold.
  rewrite joint_rotation_plain.
  2:{ unfold labels_not_empty in Hlabels. simpl in Hlabels.
      apply List.Forall_inv in Hlabels. exact Hlabels. }
  destruct (TheanoBones.bones_rotation_at chs eye3 angles i)
    as [[rot i1]|e]; [|reflexivity].
  rewrite !bind_ok. cbv beta zeta.
  change (fst (rot, i1)) with rot. change (snd (rot, i1)) with i1.
  rewrite local_transform_corner_affine.
  set (T' := mat4_dot T (affine rot off)).
  simpl offset.
  assert (forall c, In c cs -> labels_not_empty c) as Hcs.
  { intros c Hc. eapply labels_not_empty_child; eassumption. }
  assert (forall accj accb j p0,
            map dehomogenize accj = p0 :: map snd accb ->
            joints_as_points
              <$> joints_of_children
                    (fun child j =>
                       joint_positions_from plain_options child angles j T')
                    cs accj j
            = end_points_after p0
              <$> TheanoBones.bones_of_children_at
                    (fun child j => TheanoBones.get_bones child angles j T')
                    (column3 T') T' cs accb j) as Hloop.
  { clear Hlabels. induction IH as [|c cs' Hc _ IHcs];
      intros accj accb j p0 Hacc; simpl.
    - unfold joints_as_points, end_points_after. simpl. rewrite Hacc.
      reflexivity.
    - pose proof (Hc j T' (Hcs c (or_introl eq_refl))) as Hchild.
      destruct (TheanoBones.get_bones c angles j T') as [[subb j']|e];
        destruct (joint_positions_from plain_options c angles j T')
          as [[subj j'']|e']; simpl in Hchild; try discriminate.
      + unfold joints_as_points, end_points_after in Hchild.
        simpl in Hchild. injection Hchild as Hsub ->. simpl.
        apply IHcs; [intros c' Hc'; apply Hcs; right; exact Hc'|].
        rewrite !map_app, Hacc, Hsub. simpl.
        rewrite <- app_assoc. reflexivity.
      + injection Hchild as ->. reflexivity. }
  rewrite (Hloop [column3 T'] [] i1
             (dehomogenize (mat4_vec T (homogeneous off)))).
  - reflexivity.
  - simpl. subst T'. rewrite column3_dot_affine. reflexivity.
Qed.

(** X21: with every option left at its default, and no channel label
    empty, the joint positions of [joint_positions] are, as points of
    space, the position of the root followed by the end points of the
    bones that the [get_bones] of the same module returns, in the same
    order; the cell is left at the same place, and the same exception is
    raised. *)
Theorem joint_positions_are_bone_end_points
    (node : Node) (angles : list R) (i : nat) (T : mat4) :
  labels_not_empty node ->
  joints_as_points <$> joint_positions_from plain_options node angles i T
  = end_points_after (dehomogenize (mat4_vec T (homogeneous (offset node))))
    <$> TheanoBones.get_bones node angles i T.
Proof. apply joint_positions_along_bones. Qed.

Lemma joint_positions_are_bone_end_points_witness :
  joints_as_points
    <$> joint_positions_from plain_options minimal_skeleton [PI / 2]%R 0 eye4
  = end_points_after
      (dehomogenize (mat4_vec eye4 (homogeneous (offset minimal_skeleton))))
    <$> TheanoBones.get_bones minimal_skeleton [PI / 2]%R 0 eye4.
Proof.
  apply (joint_positions_are_bone_end_points minimal_skeleton
           [PI / 2]%R 0 eye4).
  unfold labels_not_empty.
  repeat (apply List.Forall_cons;
          [repeat (apply List.Forall_cons; [discriminate|]);
           apply List.Forall_nil|]).
  apply List.Forall_nil.
Defined.

(** ** Fixed angles *)

Lemma joint_rotation_all_fixed (fixed : gmap string R) (nm : string)
    (chs : list string) :
  Forall (fun ch => forall r, rotation_map ch = Some r ->
                              exists key a,
                                channel_key nm ch = Ok key
                                /\ fixed !! key = Some a) chs ->
  forall angles angles' rot i,
    joint_rotation (Some fixed) nm chs angles rot i
    = joint_rotation (Some fixed) nm chs angles' rot i.
Proof.
  induction 1 as [|ch chs Hch _ IH]; intros angles angles' rot i; simpl;
    [reflexivity|].
  destruct (channel_key nm ch) as [key|e] eqn:Hkey; simpl; [|reflexivity].
  destruct (rotation_map ch) as [r|] eqn:Hr; [|apply IH].
  destruct (Hch r eq_refl) as (key' & a & Hkey' & Ha).
  injection Hkey' as <-. simpl. rewrite Ha. apply IH.
Qed.

Lemma joints_of_children_ext {J : Type}
    (rec1 rec2 : Node -> nat -> result (list J * nat)) (cs : list Node) :
  (forall c j, In c cs -> rec1 c j = rec2 c j) ->
  forall acc i,
    joints_of_children rec1 cs acc i = joints_of_children rec2 cs acc i.
Proof.
  induction cs as [|c cs IH]; intros Hext acc i; simpl; [reflexivity|].
  rewrite (Hext c i (or_introl eq_refl)).
  destruct (rec2 c i) as [[sub i']|e]; simpl; [|reflexivity].
  apply IH. intros c' j Hc'. apply Hext. right. exact Hc'.
Qed.

Lemma all_rotations_fixed_child fixed nm chs off cs es len ou (c : Node) :
  all_rotations_fixed fixed (mkNode nm chs off cs es len ou) ->
  In c cs -> all_rotations_fixed fixed c.
Proof.
  unfold all_rotations_fixed. rewrite !List.Forall_forall.
  intros H Hc n Hn. apply H. simpl. right.
  apply in_flat_map. exists c. split; assumption.
Qed.

Lemma joint_positions_from_all_fixed (o : options) (fixed : gmap string R)
    (node : Node) :
  fixed_angles o = Some fixed ->
  all_rotations_fixed fixed node ->
  forall angles angles' i T,
    joint_positions_from o node angles i T
    = joint_positions_from o node angles' i T.
Proof.
  intros Hfixed.
  induction node as [nm chs off cs es len ou IH] using Node_tree_ind.
  intros Hall angles angles' i T. simpl. rewrite Hfixed.
  rewrite (joint_rotation_all_fixed fixed nm chs) with (angles' := angles').
  2:{ unfold all_rotations_fixed in Hall. simpl in Hall.
      apply List.Forall_inv in Hall. exact Hall. }
  destruct (joint_rotation (Some fixed) nm chs angles' eye3 i)
    as [[rot i1]|e]; simpl; [|reflexivity].
  destruct (pruned o _); [reflexivity|].
  destruct (node_transform o _ rot T) as [T'|e]; simpl; [|reflexivity].
  apply joints_of_children_ext. intros c j Hc.
  rewrite List.Forall_forall in IH. apply IH; [exact Hc|].
  eapply all_rotations_fixed_child; eassumption.
Qed.

(** X22: when every rotation channel of the tree has a fixed angle, no
    angle of the argument is read: [joint_positions] returns for every
    list of angles what it returns for the empty one. *)
Theorem joint_positions_all_fixed_reads_no_angle
    (o : options) (fixed : gmap string R) (node : Node) (angles : list R) :
  fixed_angles o = Some fixed ->
  all_rotations_fixed fixed node ->
  joint_positions o node angles = joint_positions o node [].
Proof.
  intros Hfixed Hall. unfold joint_positions.
  rewrite (joint_positions_from_all_fixed o fixed node Hfixed Hall
             angles [] 0 eye4).
  reflexivity.
Qed.

(** ** Tables of lengths *)

(** X23: with a table of lengths, a node that [process_skeleton] has not
    run on has no length to compare with zero: once its rotation is
    built, and unless it is a skipped end site, [joint_positions] raises
    AttributeError at it. *)
Theorem joint_positions_needs_process_skeleton
    (o : options) (lens : list R) (node : Node) (angles : list R)
    (i : nat) (T : mat4) (rot : mat3) (i1 : nat) :
  lengths o = Some lens ->
  node_length node = None ->
  joint_rotation (fixed_angles o) (name node) (channels node) angles eye3 i
  = Ok (rot, i1) ->
  pruned o node = false ->
  joint_positions_from o node angles i T = Err AttributeError.
Proof.
  intros Hlens Hnone Hrot Hpruned.
  destruct node as [nm chs off cs es len ou]. simpl in *.
  rewrite Hrot. simpl. rewrite Hpruned.
  unfold node_transform, node_offset. simpl. rewrite Hlens. subst len.
  reflexivity.
Qed.

Lemma joint_positions_needs_process_skeleton_witness :
  joint_positions_from (mkOptions None (Some [2; 7]%R) (Some arms_map) [])
                       minimal_skeleton [0]%R 0 eye4
  = Err AttributeError.
Proof.
  apply (joint_positions_needs_process_skeleton
           (mkOptions None (Some [2; 7]%R) (Some arms_map) [])
           [2; 7]%R minimal_skeleton [0]%R 0 eye4
           (mat3_dot eye3 (rot_z 0)) 1);
    reflexivity.
Defined.

Lemma joint_positions_all_fixed_reads_no_angle_witness :
  joint_positions (mkOptions (Some quarter_turn_fixed) None None [])
                  minimal_skeleton [1; 2; 3]%R
  = joint_positions (mkOptions (Some quarter_turn_fixed) None None [])
                    minimal_skeleton [].
Proof.
  apply (joint_positions_all_fixed_reads_no_angle
           (mkOptions (Some quarter_turn_fixed) None None [])
           quarter_turn_fixed minimal_skeleton [1; 2; 3]%R).
  - reflexivity.
  - unfold all_rotations_fixed.
    apply List.Forall_cons.
    + apply List.Forall_cons; [|apply List.Forall_nil].
      intros r _. eexists _, _. split; reflexivity.
    + apply List.Forall_cons; [apply List.Forall_nil|apply List.Forall_nil].
Defined.

(** ** The elements of a batch are independent *)

Lemma take_column_lookup (k : nat) (m : list (list R)) (col : list R) :
  take_column k m = Ok col ->
  length col = length m
  /\ forall b row, m !! b = Some row ->
       exists x, row !! k = Some x /\ col !! b = Some x.
Proof.
  revert col. induction m as [|row0 m IH]; intros col; simpl.
  - intros [= <-]. split; [reflexivity|]. intros b row; discriminate.
  - destruct (row0 !! k) as [x0|] eqn:Hx0; [|discriminate].
    destruct (take_column k m) as [xs|e]; simpl; [|discriminate].
    intros [= <-]. destruct (IH xs eq_refl) as [Hlen Hrows].
    split; [simpl; rewrite Hlen; reflexivity|].
    intros b row Hb. destruct b as [|b]; simpl in *.
    + injection Hb as <-. exists x0. split; [exact Hx0|reflexivity].
    + apply Hrows, Hb.
Qed.

Lemma lookup_repeat {A : Type} (x : A) (n b : nat) :
  b < n -> repeat x n !! b = Some x.
Proof.
  revert b. induction n as [|n IH]; intros b Hb; [lia|].
  destruct b as [|b]; simpl; [reflexivity|]. apply IH. lia.
Qed.

Lemma joint_rotation_batch_at (fixed : option (gmap string R))
    (nm : string) (chs : list string) (rows : list (list R)) :
  forall rots i rots' i',
    joint_rotation_batch fixed nm chs rows rots i = Ok (rots', i') ->
    length rots = length rows ->
    length rots' = length rows
    /\ forall b row rot,
         rows !! b = Some row -> rots !! b = Some rot ->
         exists rot',
           rots' !! b = Some rot'
           /\ joint_rotation fixed nm chs row rot i = Ok (rot', i').
Proof.
  induction chs as [|ch chs IH]; intros rots i rots' i'; simpl.
  - intros [= <- <-] Hlen. split; [exact Hlen|].
    intros b row rot _ Hrot. exists rot. split; [exact Hrot|reflexivity].
  - destruct (channel_key nm ch) as [key|e]; simpl; [|discriminate].
    destruct (rotation_map ch) as [r|]; [|apply IH].
    destruct (fixed_angle fixed key) as [a|].
    + intros Hrun Hlen.
      destruct (IH _ _ _ _ Hrun) as [Hlen' Hat].
      { rewrite length_map. exact Hlen. }
      split; [exact Hlen'|]. intros b row rot Hrow Hrot.
      apply (Hat b row (mat3_dot rot (r a)) Hrow).
      rewrite list_lookup_fmap, Hrot. reflexivity.
    + destruct (take_column i rows) as [col|e] eqn:Hcol; simpl;
        [|discriminate].
      destruct (take_column_lookup i rows col Hcol) as [Hclen Hcrows].
      intros Hrun Hlen.
      destruct (IH _ _ _ _ Hrun) as [Hlen' Hat].
      { unfold batched_dot3. rewrite length_zip_with, length_map. lia. }
      split; [exact Hlen'|]. intros b row rot Hrow Hrot.
      destruct (Hcrows b row Hrow) as (x & Hx & Hcb).
      rewrite Hx. apply (Hat b row (mat3_dot rot (r x)) Hrow).
      unfold batched_dot3. rewrite lookup_zip_with, Hrot. simpl.
      rewrite list_lookup_fmap, Hcb. reflexivity.
Qed.

Lemma node_offset_batch_at (o : batch_options) (node : Node)
    (rows : list (list R)) (offs offs' : list vec3) :
  lengths_fit o rows ->
  node_offset_batch o node = Ok offs ->
  broadcast_rows (length rows) offs = Ok offs' ->
  length offs' = length rows
  /\ forall b, b < length rows ->
       exists v, offs' !! b = Some v
                 /\ node_offset (options_at o b) node = Ok v.
Proof.
  intros Hfit Hoffs Hbroad.
  assert (forall v, offs = [v] ->
            length offs' = length rows
            /\ forall b, b < length rows -> offs' !! b = Some v) as Hsingle.
  { intros v ->. unfold broadcast_rows in Hbroad.
    change (length [v]) with 1 in Hbroad.
    destruct (Nat.eqb_spec 1 (length rows)) as [Heq|Hne].
    - injection Hbroad as <-. split; [simpl; lia|].
      intros b Hb. destruct b; [reflexivity|lia].
    - injection Hbroad as <-. split; [apply repeat_length|].
      intros b Hb. apply lookup_repeat, Hb. }
  unfold node_offset_batch in Hoffs. unfold node_offset, options_at. simpl.
  destruct Hfit as [Hnone|(lrows & Hsome & Hlen)].
  - rewrite Hnone in *. injection Hoffs as <-.
    destruct (Hsingle _ eq_refl) as [Hl Hb]. split; [exact Hl|].
    intros b Hlt. exists (offset node). split; [apply Hb, Hlt|reflexivity].
  - rewrite Hsome in *.
    destruct (node_length node) as [len|]; [|discriminate].
    destruct (Req_dec_T len 0).
    + injection Hoffs as <-.
      destruct (Hsingle _ eq_refl) as [Hl Hb]. split; [exact Hl|].
      intros b Hlt. exists (offset node). split; [apply Hb, Hlt|].
      destruct (lookup_lt_is_Some_2 lrows b) as [lens ->]; [lia|].
      reflexivity.
    + unfold lookup_length_batch in Hoffs. unfold lookup_length.
      destruct (b_lengths_map o) as [m|]; [|discriminate].
      destruct (m !! lower (name node)) as [k|]; [|discriminate].
      destruct (take_column k lrows) as [xs|e] eqn:Hxs; simpl in Hoffs;
        [|discriminate].
      destruct (offset_unit node) as [u|]; [|discriminate].
      injection Hoffs as <-.
      destruct (take_column_lookup k lrows xs Hxs) as [Hxlen Hxrows].
      unfold broadcast_rows in Hbroad.
      rewrite length_map, Hxlen, Hlen, Nat.eqb_refl in Hbroad.
      injection Hbroad as <-.
      split; [rewrite length_map; lia|].
      intros b Hlt.
      destruct (lookup_lt_is_Some_2 lrows b) as [lens Hlens]; [lia|].
      destruct (Hxrows b lens Hlens) as (x & Hx & Hxb).
      exists (vec3_scale u x). rewrite list_lookup_fmap, Hxb, Hlens, Hx.
      split; reflexivity.
Qed.

Lemma node_transform_batch_at (o : batch_options) (node : Node)
    (rows : list (list R)) (rots : list mat3) (parents Ts : list mat4) :
  lengths_fit o rows ->
  length rots = length rows ->
  length parents = length rows ->
  node_transform_batch o node (length rows) rots parents = Ok Ts ->
  length Ts = length rows
  /\ forall b rot P,
       rots !! b = Some rot -> parents !! b = Some P ->
       exists T, Ts !! b = Some T
                 /\ node_transform (options_at o b) node rot P = Ok T.
Proof.
  intros Hfit Hrots Hparents Hrun. unfold node_transform_batch in Hrun.
  destruct (node_offset_batch o node) as [offs|e] eqn:Hoffs; simpl in Hrun;
    [|discriminate].
  destruct (broadcast_rows (length rows) offs) as [offs'|e] eqn:Hbroad;
    simpl in Hrun; [|discriminate].
  injection Hrun as <-.
  destruct (node_offset_batch_at o node rows offs offs' Hfit Hoffs Hbroad)
    as [Hlen Hat].
  unfold batched_dot4, repeat_batch. split.
  - rewrite !length_zip_with, repeat_length. lia.
  - intros b rot P Hrot HP.
    assert (b < length rows) as Hb.
    { rewrite <- Hrots. eapply lookup_lt_Some, Hrot. }
    destruct (Hat b Hb) as (v & Hv & Hsingle).
    exists (mat4_dot P (set_translation (set_rotation eye4 rot) v)).
    split.
    + rewrite !lookup_zip_with, HP. simpl.
      rewrite (lookup_repeat eye4 _ b Hb). simpl. rewrite Hrot. simpl.
      rewrite Hv. reflexivity.
    + unfold node_transform. rewrite Hsingle. reflexivity.
Qed.

Lemma joint_positions_batch_from_at (o : batch_options)
    (rows : list (list R)) (node : Node) :
  lengths_fit o rows ->
  forall i parents joints i',
    joint_positions_batch_from o node rows i parents = Ok (joints, i') ->
    length parents = length rows ->
    forall b row P,
      rows !! b = Some row -> parents !! b = Some P ->
      exists js,
        joint_positions_from (options_at o b) node row i P = Ok (js, i')
        /\ element_of_batch b joints = map Some js.
Proof.
  intros Hfit.
  induction node as [nm chs off cs es len ou IH] using Node_tree_ind.
  intros i parents joints i' Hrun Hparents b row P Hrow HP.
  simpl in Hrun. simpl.
  destruct (joint_rotation_batch (b_fixed_angles o) nm chs rows
              (repeat_batch eye3 (length rows)) i)
    as [[rots i1]|e] eqn:Hrots; simpl in Hrun; [|discriminate].
  assert (b < length rows) as Hb by (eapply lookup_lt_Some, Hrow).
  destruct (joint_rotation_batch_at _ _ _ _ _ _ _ _ Hrots) as [Hrlen Hrat].
  { apply repeat_length. }
  destruct (Hrat b row eye3 Hrow (lookup_repeat eye3 _ b Hb))
    as (rot & Hrot & Hsingle).
  change (fixed_angles (options_at o b)) with (b_fixed_angles o).
  rewrite Hsingle. simpl.
  change (pruned (options_at o b) (mkNode nm chs off cs es len ou))
    with (pruned_batch o (mkNode nm chs off cs es len ou)).
  destruct (pruned_batch o _).
  { injection Hrun as <- <-. exists []. split; reflexivity. }
  destruct (node_transform_batch o _ (length rows) rots parents)
    as [Ts|e] eqn:HTs; simpl in Hrun; [|discriminate].
  destruct (node_transform_batch_at o _ rows rots parents Ts Hfit Hrlen
              Hparents HTs) as [HTlen HTat].
  destruct (HTat b rot P Hrot HP) as (T & HT & HTsingle).
  rewrite HTsingle. simpl.
  change (skip (options_at o b)) with (b_skip o).
  assert (forall accb acc j joints i',
            joints_of_children
              (fun child j => joint_positions_batch_from o child rows j Ts)
              cs accb j = Ok (joints, i') ->
            element_of_batch b accb = map Some acc ->
            exists js,
              joints_of_children
                (fun child j =>
                   joint_positions_from (options_at o b) child row j T)
                cs acc j = Ok (js, i')
              /\ element_of_batch b joints = map Some js) as Hloop.
  { clear Hrun HTs HTat HTsingle. induction IH as [|c cs' Hc _ IHcs];
      intros accb acc j J j' Hrun Hacc; simpl in *.
    - injection Hrun as <- <-. exists acc. split; [reflexivity|exact Hacc].
    - destruct (joint_positions_batch_from o c rows j Ts)
        as [[subb j1]|e] eqn:Hsub; simpl in Hrun; [|discriminate].
      destruct (Hc j Ts subb j1 Hsub HTlen b row T Hrow HT)
        as (sub & Hsubsingle & Hsubat).
      rewrite Hsubsingle. simpl.
      eapply IHcs; [exact Hrun|].
      unfold element_of_batch in *. rewrite !map_app, Hacc, Hsubat.
      reflexivity. }
  destruct (in_skip (lower nm) (b_skip o)).
  - apply (Hloop [] [] i1 joints i' Hrun). reflexivity.
  - apply (Hloop [map column3 Ts] [column3 T] i1 joints i' Hrun).
    unfold element_of_batch. simpl. rewrite list_lookup_fmap, HT.
    reflexivity.
Qed.

(** X24: the elements of a batch do not influence each other. When
    [joint_positions_batch] returns for a matrix of angles (and, if
    lengths are given, a matrix of lengths with as many rows), then for
    every row of the matrix the single-sample [joint_positions] returns
    on that row (and that row of the lengths), and element [b] of every
    joint of the batch is the position that the single-sample call
    yields for that joint on row [b]. *)
Theorem joint_positions_batch_rows_independent
    (o : batch_options) (node : Node) (rows : list (list R))
    (joints : list (list vec4)) :
  lengths_fit o rows ->
  joint_positions_batch o node (Rank2 rows) = Ok joints ->
  forall b row,
    rows !! b = Some row ->
    exists js,
      joint_positions (options_at o b) node row = Ok js
      /\ element_of_batch b joints = map Some js.
Proof.
  intros Hfit Hrun b row Hrow.
  unfold joint_positions_batch in Hrun. simpl in Hrun.
  destruct o as [fixed lens lmap skipped]. simpl in Hrun.
  destruct (joint_positions_batch_from _ node rows 0 _)
    as [[J i']|e] eqn:Hfrom; simpl in Hrun; [|discriminate].
  injection Hrun as <-.
  assert (b < length rows) as Hb by (eapply lookup_lt_Some, Hrow).
  destruct (joint_positions_batch_from_at _ rows node Hfit 0 _ J i' Hfrom
              (repeat_length _ _) b row eye4 Hrow
              (lookup_repeat eye4 _ b Hb)) as (js & Hsingle & Hat).
  exists js. unfold joint_positions. rewrite Hsingle.
  split; [reflexivity|exact Hat].
Qed.

Lemma joint_positions_batch_rows_independent_witness :
  exists joints,
    joint_positions_batch (mkBatchOptions None None None []) minimal_skeleton
                          (Rank2 [[0]; [PI / 2]]%R) = Ok joints
    /\ forall b row,
         [[0]; [PI / 2]]%R !! b = Some row ->
         exists js,
           joint_positions
             (options_at (mkBatchOptions None None None []) b)
             minimal_skeleton row = Ok js
           /\ element_of_batch b joints = map Some js.
Proof.
  eexists. split; [reflexivity|].
  apply (joint_positions_batch_rows_independent
           (mkBatchOptions None None None []) minimal_skeleton
           [[0]; [PI / 2]]%R).
  - left. reflexivity.
  - reflexivity.
Defined.

(** ** The camera matrices *)

Lemma scale_rows_is_product (f : R) (rot : mat3) (p : vec3) :
  TheanoCamera.scale_rows f
    (TheanoCamera.set_last_column
       (TheanoCamera.set_block TheanoCamera.zeros34 rot) p)
  = TheanoCamera.mat3_dot34 ((f, 0, 0), (0, f, 0), (0, 0, 1))%R
      (TheanoCamera.set_last_column
         (TheanoCamera.set_block TheanoCamera.zeros34 rot) p).
Proof.
  destruct rot as [[[[r0 r1] r2] [[r3 r4] r5]] [[r6 r7] r8]].
  destruct p as [[x y] z].
  unfold TheanoCamera.scale_rows, TheanoCamera.mat3_dot34,
    TheanoCamera.set_last_column, TheanoCamera.set_block,
    TheanoCamera.zeros34, vec3_dot.
  tuple_eq; ring.
Qed.

Lemma zip_with_cons {A B C : Type} (f : A -> B -> C) x l y k :
  zip_with f (x :: l) (y :: k) = f x y :: zip_with f l k.
Proof. reflexivity. Qed.

Lemma repeat_succ {A : Type} (x : A) (n : nat) :
  repeat x (S n) = x :: repeat x n.
Proof. reflexivity. Qed.

Lemma broadcast_rows_same {A : Type} (n : nat) (rows : list A) :
  length rows = n -> Theano.broadcast_rows n rows = Ok rows.
Proof.
  intros H. unfold Theano.broadcast_rows.
  rewrite (proj2 (Nat.eqb_eq _ _) H). reflexivity.
Qed.

Lemma camera_batch_elements (fs : list R) :
  forall (ps yprs : list vec3),
    length ps = length fs -> length yprs = length fs ->
    zip_with TheanoCamera.scale_rows fs
      (zip_with TheanoCamera.set_last_column
         (zip_with TheanoCamera.set_block
            (repeat TheanoCamera.zeros34 (length fs))
            (Theano.batched_dot3
               (Theano.batched_dot3
                  (map rot_z (map (fun ypr : vec3 => snd ypr) yprs))
                  (map rot_x (map (fun ypr : vec3 => snd (fst ypr)) yprs)))
               (map rot_y (map (fun ypr : vec3 => fst (fst ypr)) yprs))))
         ps)
    = zip_with (fun f pose =>
                  TheanoCamera.camera_matrix f (fst pose) (snd pose))
               fs (zip ps yprs).
Proof.
  induction fs as [|f fs IH]; intros ps yprs Hps Hyprs.
  - reflexivity.
  - destruct ps as [|p ps]; [discriminate|].
    destruct yprs as [|[[yaw pitch] roll] yprs]; [discriminate|].
    simpl in Hps, Hyprs.
    unfold Theano.batched_dot3 in *.
    change (length (f :: fs)) with (S (length fs)).
    rewrite repeat_succ, !map_cons, !zip_with_cons.
    f_equal.
    + rewrite scale_rows_is_product. reflexivity.
    + apply IH; lia.
Qed.

(** X25: [camera_matrix_batch] computes for every element of the batch
    the matrix that [camera_matrix] computes from the focal length, the
    position and the pose of that element: scaling the rows of the
    transposed batch by (f, f, 1) is the product with the intrinsic
    matrix. Called with one focal length, one position and one pose it
    returns the batch of that one matrix. *)
Theorem camera_matrix_batch_is_camera_matrix
    (fs : list R) (ps yprs : list vec3) (f : R) (p ypr : vec3) :
  (length ps = length fs -> length yprs = length fs ->
   TheanoCamera.camera_matrix_batch (TheanoCamera.Cameras fs ps yprs)
   = Ok (zip_with (fun f pose =>
                     TheanoCamera.camera_matrix f (fst pose) (snd pose))
                  fs (zip ps yprs)))
  /\ TheanoCamera.camera_matrix_batch (TheanoCamera.OneCamera f p ypr)
     = Ok [TheanoCamera.camera_matrix f p ypr].
Proof.
  assert (forall fs ps yprs,
            length ps = length fs -> length yprs = length fs ->
            TheanoCamera.camera_matrix_batch (TheanoCamera.Cameras fs ps yprs)
            = Ok (zip_with (fun f pose =>
                              TheanoCamera.camera_matrix f (fst pose)
                                                         (snd pose))
                           fs (zip ps yprs))) as Hbatch.
  { clear. intros fs ps yprs Hps Hyprs.
    unfold TheanoCamera.camera_matrix_batch.
    rewrite (broadcast_rows_same (length fs) ps Hps).
    rewrite (broadcast_rows_same (length fs)).
    2:{ unfold Theano.batched_dot3.
        rewrite !length_zip_with, !length_map. lia. }
    rewrite !bind_ok.
    f_equal. apply camera_batch_elements; assumption. }
  split; [apply Hbatch|].
  destruct ypr as [[yaw pitch] roll].
  change (TheanoCamera.camera_matrix_batch (TheanoCamera.OneCamera f p
                                              (yaw, pitch, roll)))
    with (TheanoCamera.camera_matrix_batch
            (TheanoCamera.Cameras [f] [p] [(yaw, pitch, roll)])).
  rewrite Hbatch; reflexivity.
Qed.

(** ** The printed tree *)

Lemma string_append_assoc (s1 s2 s3 : string) :
  (s1 +:+ s2) +:+ s3 = s1 +:+ (s2 +:+ s3).
Proof.
  induction s1 as [|c s1 IH]; [reflexivity|].
  change (String c ((s1 +:+ s2) +:+ s3) = String c (s1 +:+ (s2 +:+ s3))).
  rewrite IH. reflexivity.
Qed.

Lemma string_append_empty (s : string) : s +:+ EmptyString = s.
Proof.
  induction s as [|c s IH]; [reflexivity|].
  change (String c (s +:+ EmptyString) = String c s).
  rewrite IH. reflexivity.
Qed.

Lemma concat_strings_app (l1 l2 : list string) :
  concat_strings (l1 ++ l2) = concat_strings l1 +:+ concat_strings l2.
Proof.
  induction l1 as [|s l1 IH]; simpl; [reflexivity|].
  rewrite IH, string_append_assoc. reflexivity.
Qed.

Lemma string_repr_lines (node : Node) :
  forall prefix,
    string_repr node prefix
    = concat_strings (map repr_line (indented_nodes node prefix))
    /\ map snd (indented_nodes node prefix) = subnodes node.
Proof.
  induction node as [nm chs off cs es len ou IH] using Node_tree_ind.
  intros prefix. simpl. unfold repr_line at 1. simpl.
  set (line := prefix +:+ nm +:+ "(" +:+ join_comma chs +:+ ")" +:+ newline).
  assert (forall init,
            fold_left
              (fun rep child => rep +:+ string_repr child (prefix +:+ "--"))
              cs init
            = init +:+ concat_strings
                         (map repr_line
                              (flat_map
                                 (fun c => indented_nodes c (prefix +:+ "--"))
                                 cs))
            /\ map snd (flat_map
                          (fun c => indented_nodes c (prefix +:+ "--")) cs)
               = flat_map subnodes cs) as Hloop.
  { induction IH as [|c cs' Hc _ IHcs]; intros init; simpl.
    - rewrite string_append_empty. split; reflexivity.
    - destruct (Hc (prefix +:+ "--")) as [Hrepr Hnodes].
      destruct (IHcs (init +:+ string_repr c (prefix +:+ "--")))
        as [Hfold Hrest].
      rewrite Hfold, Hrepr, !map_app, concat_strings_app, Hnodes, Hrest.
      rewrite string_append_assoc. split; reflexivity. }
  destruct (Hloop line) as [Hfold Hnodes].
  rewrite Hfold, Hnodes. split; reflexivity.
Qed.

(** X26: [string_repr] writes one line for every node of the tree,
    parents before children and children in their order: the line of a
    node is its prefix (the prefix of the call, with two dashes more for
    every level below the root), its name, its channels separated by
    ', ' between brackets, and a newline. *)
Theorem string_repr_one_line_per_node (node : Node) (prefix : string) :
  string_repr node prefix
  = concat_strings (map repr_line (indented_nodes node prefix))
  /\ map snd (indented_nodes node prefix) = subnodes node.
Proof. apply string_repr_lines. Qed.
